(** * citecheck: citations and the propositions they support

    A shallow embedding of the rule-driven core of the citecheck
    repository (Python) and the properties its specification states.

    - [Py]               : the fragment of Python's [str] the code relies on.
    - [ParseBrief]       : [src/parse_brief.py]: sentences, signals,
                           parentheticals, external records, propositions.
    - [Analyzer]         : [src/backend/app/citation_analyzer.py].
    - [Layout], [ParseBriefLayout], [PdfExtractor] : the margin and
                           paragraph code of [src/parse_brief.py] and
                           [src/backend/app/pdf_extractor.py].
    - [Extractor]        : [src/extract_propositions.py].
    - [Detectors]        : the parenthetical detectors side by side.
    - [Processor]        : [src/backend/app/brief_processor.py].
    - [PdfExtractorQuotes] : the block-quote loop of
                           [src/backend/app/pdf_extractor.py].
    - [Invariants]       : the notions used to state what the loops keep.

    A Python string is a sequence of code points, so it is a [list N]
    here.  Positions and lengths are [nat].  The external citation
    recogniser (eyecite) and the PDF library are inputs of the functions
    that call them.  The properties follow the definitions. *)

From Stdlib Require Import List Sorted Permutation Arith NArith ZArith QArith
  Qround Qabs String Ascii Bool Lia.
Import ListNotations.

Set Implicit Arguments.
Close Scope Q_scope.
Close Scope Z_scope.
Open Scope nat_scope.
Open Scope list_scope.

(* ===================================================================== *)
(** * Python strings *)
(* ===================================================================== *)

Module Py.

Definition char := N.
Definition str := list char.

(** An ASCII literal of the source, as a sequence of code points. *)
Definition py (s : string) : str := map N_of_ascii (list_ascii_of_string s).

Definition in_range (lo hi c : N) : bool := ((lo <=? c) && (c <=? hi))%N.

(** [str.isspace] on one code point: the characters Python's Unicode
    database classes as whitespace. *)
Definition isspace (c : char) : bool :=
  in_range 9 13 c || in_range 28 32 c || (c =? 133)%N || (c =? 160)%N
  || (c =? 5760)%N || in_range 8192 8202 c || (c =? 8232)%N
  || (c =? 8233)%N || (c =? 8239)%N || (c =? 8287)%N || (c =? 12288)%N.

(** Case and letter classes.  They are given on the ASCII range, which is
    where every literal of the source and every text of the properties
    below lives; a code point above 127 is treated as a caseless symbol. *)
Definition isupper (c : char) : bool := in_range 65 90 c.
Definition islower (c : char) : bool := in_range 97 122 c.
Definition isdigit (c : char) : bool := in_range 48 57 c.
Definition isalpha (c : char) : bool := isupper c || islower c.
Definition isalnum (c : char) : bool := isalpha c || isdigit c.

Definition lower_char (c : char) : char := if isupper c then (c + 32)%N else c.
Definition upper_char (c : char) : char := if islower c then (c - 32)%N else c.

(** The class [\w] of the [re] module. *)
Definition is_word (c : char) : bool := isalnum c || (c =? 95)%N.

Definition char_in (c : char) (set : str) : bool := existsb (N.eqb c) set.

Fixpoint str_eqb (a b : str) : bool :=
  match a, b with
  | [], [] => true
  | x :: a', y :: b' => (x =? y)%N && str_eqb a' b'
  | _, _ => false
  end.

Definition str_in (s : str) (l : list str) : bool := existsb (str_eqb s) l.

Definition lower (s : str) : str := map lower_char s.
Definition len (s : str) : nat := List.length s.

(** [s[a:b]] and [s[a:]] for non-negative [a], [b]. *)
Definition slice (s : str) (a b : nat) : str := firstn (b - a) (skipn a s).
Definition slice_from (s : str) (a : nat) : str := skipn a s.

Fixpoint lstrip_by (p : char -> bool) (s : str) : str :=
  match s with
  | c :: s' => if p c then lstrip_by p s' else s
  | [] => []
  end.
Definition rstrip_by (p : char -> bool) (s : str) : str :=
  rev (lstrip_by p (rev s)).
Definition strip_by (p : char -> bool) (s : str) : str :=
  rstrip_by p (lstrip_by p s).

Definition lstrip := lstrip_by isspace.
Definition rstrip := rstrip_by isspace.
Definition strip := strip_by isspace.
Definition lstrip_chars (set : str) := lstrip_by (fun c => char_in c set).
Definition rstrip_chars (set : str) := rstrip_by (fun c => char_in c set).
Definition strip_chars (set : str) := strip_by (fun c => char_in c set).

Fixpoint startswith (s p : str) : bool :=
  match p, s with
  | [], _ => true
  | x :: p', y :: s' => (x =? y)%N && startswith s' p'
  | _ :: _, [] => false
  end.
Definition endswith (s p : str) : bool := startswith (rev s) (rev p).

(** [hay.find(needle)]: the lowest index where [needle] occurs. *)
Fixpoint find_from (needle hay : str) (i : nat) : option nat :=
  if startswith hay needle then Some i
  else match hay with
       | [] => None
       | _ :: hay' => find_from needle hay' (S i)
       end.
Definition find (hay needle : str) : option nat := find_from needle hay 0.
(** [needle in hay]. *)
Definition contains (hay needle : str) : bool :=
  match find hay needle with Some _ => true | None => false end.

(** [s.split()]: the maximal runs of non-whitespace. *)
Fixpoint split_acc (s : str) (cur : str) : list str :=
  match s with
  | [] => match cur with [] => [] | _ => [rev cur] end
  | c :: s' =>
      if isspace c
      then match cur with
           | [] => split_acc s' []
           | _ => rev cur :: split_acc s' []
           end
      else split_acc s' (c :: cur)
  end.
Definition split (s : str) : list str := split_acc s [].

Fixpoint join (sep : str) (l : list str) : str :=
  match l with
  | [] => []
  | [x] => x
  | x :: l' => x ++ sep ++ join sep l'
  end.

(** Truthiness of a string and of an optional string ([None] or empty). *)
Definition nonempty (s : str) : bool := match s with [] => false | _ => true end.
Definition truthy (o : option str) : bool :=
  match o with Some s => nonempty s | None => false end.

End Py.

Import Py.

(* ===================================================================== *)
(** * parse_brief.py: sentence segmentation *)
(* ===================================================================== *)

Module ParseBrief.

Definition LEGAL_ABBREVS : list str := map py
  [ "v."; "vs."; "inc."; "ltd."; "corp."; "co."; "no."; "nos.";
    "app."; "crim."; "civ."; "ct."; "dist."; "supp."; "rev.";
    "stat."; "ann."; "gen."; "ass."; "ch."; "cl."; "div.";
    "ed."; "ex."; "fed."; "gov."; "jr."; "sr."; "mr."; "mrs.";
    "ms."; "dr."; "prof."; "rep."; "sen."; "st."; "tex."; "cal.";
    "n.y."; "fla."; "u.s."; "s.w."; "n.w."; "s.e."; "n.e.";
    "so."; "f."; "l."; "r."; "s."; "w."; "p."; "proc."; "evid.";
    "art."; "n."; "e.g."; "cf."; "i.e."; "et."; "al.";
    "cir."; "pet."; "op."; "cert."; "reh."; "aff."; "mem.";
    "s.w.2d"; "s.w.3d"; "n.w.2d"; "n.e.2d"; "s.e.2d"; "so.2d";
    "so.3d"; "f.2d"; "f.3d"; "f.4th"; "l.ed."; "l.ed.2d"; "s.ct." ]%string.

(** The characters [".!?"] that may end a sentence and the quotation marks
    that may open the next one (straight and curly, double and single). *)
Definition terminators : str := py ".!?".
Definition opening_quotes : str := [34; 8220; 8221; 8216; 8217; 39]%N.

(** [_get_word_ending_at]: walk left from [pos] over letters, digits,
    periods and hyphens. *)
Fixpoint word_start (text : str) (start : nat) : nat :=
  match start with
  | O => O
  | S k =>
      match nth_error text k with
      | Some c => if isalnum c || char_in c (py ".-") then word_start text k
                  else start
      | None => start
      end
  end.

Definition _get_word_ending_at (text : str) (pos : nat) : str :=
  slice text (word_start text pos) (pos + 1).

(** The abbreviation test of [segment_sentences] for the mark at [i], given
    [rest], the text after the mark with leading whitespace removed. *)
Definition is_abbrev (text : str) (i : nat) (rest : str) : bool :=
  let word_before := _get_word_ending_at text i in
  let is_abbrev := str_in (lower word_before) LEGAL_ABBREVS in
  if negb is_abbrev && (len word_before =? 2)%nat then
    match rest, word_before with
    | r0 :: r1 :: _, w0 :: _ =>
        if isalpha r0 && (r1 =? 46)%N then
          let combined := word_before ++ [r0; 46%N] in
          let is_abbrev :=
            if str_in (lower combined) LEGAL_ABBREVS then true else is_abbrev in
          if char_in (upper_char w0) (py "UNSEW")
             && char_in (upper_char r0) (py "SYEWTC")
          then true else is_abbrev
        else is_abbrev
    | _, _ => is_abbrev
    end
  else is_abbrev.

(** Whether the mark at position [i] closes the current sentence. *)
Definition sentence_break (text : str) (i : nat) : bool :=
  let rest := lstrip (slice_from text (i + 1)) in
  match rest with
  | [] => true
  | r0 :: _ =>
      if isupper r0 || char_in r0 opening_quotes
      then negb (is_abbrev text i rest)
      else false
  end.

(** The [while i < len(text)] loop; [todo] is [text[i:]]. *)
Fixpoint segment_loop (text todo : str) (i : nat)
         (current : str) (sentences : list str) : list str * str :=
  match todo with
  | [] => (sentences, current)
  | char :: todo' =>
      let current := current ++ [char] in
      if char_in char terminators && sentence_break text i
      then segment_loop text todo' (S i) [] (sentences ++ [strip current])
      else segment_loop text todo' (S i) current sentences
  end.

Definition segment_sentences (text : str) : list str :=
  let '(sentences, current) := segment_loop text text 0 [] [] in
  match current with
  | [] => sentences
  | _ => let remaining := strip current in
         if nonempty remaining then sentences ++ [remaining] else sentences
  end.

(** ** Signals and parentheticals ([_find_signal_before],
       [_find_parenthetical_after]) *)

Definition SIGNALS : list str := map py
  [ "see, e.g.,"; "see also"; "see generally"; "but see"; "but cf.";
    "see"; "cf."; "compare"; "contra"; "e.g.,"; "accord"; "citing" ]%string.

(** [sorted(l, key=len, reverse=True)]: a stable sort, longest first. *)
Fixpoint insert_by_len (x : str) (l : list str) : list str :=
  match l with
  | [] => [x]
  | y :: l' => if len y <? len x then x :: l else y :: insert_by_len x l'
  end.
Definition sorted_by_len_desc (l : list str) : list str :=
  fold_left (fun acc x => insert_by_len x acc) l [].

Definition SIGNALS_SORTED : list str := sorted_by_len_desc SIGNALS.

Definition PAREN_VERBS : list str := map py
  [ "holding"; "stating"; "finding"; "noting"; "explaining"; "observing";
    "concluding"; "reasoning"; "emphasizing"; "recognizing"; "determining";
    "clarifying"; "reaffirming"; "affirming"; "reversing"; "quoting";
    "citing"; "discussing"; "describing"; "providing"; "defining" ]%string.

Definition _find_signal_before (text : str) (pos : nat) : option str :=
  let lookback := Nat.min pos 30 in
  let preceding := lower (rstrip (slice text (pos - lookback) pos)) in
  List.find (fun signal => endswith preceding (lower signal)) SIGNALS_SORTED.

(** The depth-counting scan for the matching close parenthesis: the loop
    [while i < len(text) and depth > 0], [todo] being [text[i:]].  It
    returns the final [depth] and [i]. *)
Fixpoint close_paren (todo : str) (i depth : nat) : nat * nat :=
  match depth with
  | O => (depth, i)
  | S d =>
      match todo with
      | [] => (depth, i)
      | c :: todo' =>
          if (c =? 40)%N then close_paren todo' (S i) (S depth)
          else if (c =? 41)%N then close_paren todo' (S i) d
          else close_paren todo' (S i) depth
      end
  end.

(** [re.match(r'\s*\(', s)]: the end of the match, if any. *)
Fixpoint match_open_paren (s : str) (i : nat) : option nat :=
  match s with
  | c :: s' => if isspace c then match_open_paren s' (S i)
               else if (c =? 40)%N then Some (S i) else None
  | [] => None
  end.

Definition _find_parenthetical_after (text : str) (pos : nat) : option str :=
  let search := slice text pos (pos + 200) in
  match match_open_paren search 0 with
  | None => None
  | Some match_end =>
      let paren_start := pos + match_end in
      let after_paren := lower (lstrip (slice text paren_start (paren_start + 50))) in
      if existsb (fun v => startswith after_paren v) PAREN_VERBS then
        let '(depth, i) := close_paren (slice_from text paren_start) paren_start 1 in
        if depth =? 0 then Some (strip (slice text paren_start (i - 1)))
        else None
      else None
  end.

(** ** Citations and external records *)

Inductive CiteType := full_case | short_case | id_cite | supra | unknown.

Definition CiteType_eqb (a b : CiteType) : bool :=
  match a, b with
  | full_case, full_case | short_case, short_case | id_cite, id_cite
  | supra, supra | unknown, unknown => true
  | _, _ => false
  end.

(** A CourtListener record is a JSON object; the code reads its
    ['citation'] entry, a list whose string members look like
    ["184 S.W.3d 242"]. *)
Inductive jitem := JStr (s : str) | JNotStr.
Inductive jvalue := JList (l : list jitem) | JText (s : str) | JOther.
Definition dict := list (str * jvalue).

Fixpoint dict_get (d : dict) (k : str) : option jvalue :=
  match d with
  | [] => None
  | (k', v) :: d' => if str_eqb k' k then Some v else dict_get d' k
  end.

(** Truthiness of an optional dict: present and not empty. *)
Definition dict_truthy (o : option dict) : bool :=
  match o with Some (_ :: _) => true | _ => false end.

Record Citation := mkCitation {
  text : str;
  case_name : option str;
  volume : option str;
  reporter : option str;
  page : option str;
  pin_cite : option str;
  cite_type : CiteType;
  span : nat * nat;
  signal : option str;
  parenthetical : option str;
  refers_to : option str;
  cl_record : option dict
}.

Definition set_cl_record (c : Citation) (r : option dict) : Citation :=
  mkCitation (text c) (case_name c) (volume c) (reporter c) (page c)
    (pin_cite c) (cite_type c) (span c) (signal c) (parenthetical c)
    (refers_to c) r.
Definition set_case_name (c : Citation) (n : option str) : Citation :=
  mkCitation (text c) n (volume c) (reporter c) (page c)
    (pin_cite c) (cite_type c) (span c) (signal c) (parenthetical c)
    (refers_to c) (cl_record c).
Definition set_pin_cite (c : Citation) (p : option str) : Citation :=
  mkCitation (text c) (case_name c) (volume c) (reporter c) (page c)
    p (cite_type c) (span c) (signal c) (parenthetical c)
    (refers_to c) (cl_record c).

(** [a or b] on optional strings. *)
Definition or_else (a b : option str) : option str :=
  if truthy a then a else b.

(** ** [int(s)] on decimal text: optional sign, digits, single underscores
       between digits; [None] stands for [ValueError]. *)
Fixpoint digits_value (s : str) (acc : N) (after_digit : bool) : option N :=
  match s with
  | [] => if after_digit then Some acc else None
  | c :: s' =>
      if isdigit c then digits_value s' (acc * 10 + (c - 48))%N true
      else if (c =? 95)%N && after_digit then
        match s' with
        | d :: _ => if isdigit d then digits_value s' acc false else None
        | [] => None
        end
      else None
  end.

Definition int (s : str) : option Z :=
  match strip s with
  | 43%N :: ds => option_map Z.of_N (digits_value ds 0%N false)
  | 45%N :: ds => option_map (fun n => Z.opp (Z.of_N n)) (digits_value ds 0%N false)
  | ds => option_map Z.of_N (digits_value ds 0%N false)
  end.

(** [re.search(r'(\d+)', s)]: the first maximal run of digits. *)
Fixpoint take_digits (s : str) : str :=
  match s with
  | c :: s' => if isdigit c then c :: take_digits s' else []
  | [] => []
  end.
Fixpoint search_digits (s : str) : option str :=
  match s with
  | [] => None
  | c :: s' => if isdigit c then Some (take_digits s) else search_digits s'
  end.

(** ** [propagate_cl_records] *)

(** [get_start_page]: the page of the first string entry
    ["<volume> <reporter> <page>"] whose last part is a number. *)
Fixpoint first_start_page (l : list jitem) : option Z :=
  match l with
  | [] => None
  | JStr c :: l' =>
      let parts := split c in
      if 3 <=? List.length parts then
        match int (last parts []) with
        | Some n => Some n
        | None => first_start_page l'
        end
      else first_start_page l'
  | JNotStr :: l' => first_start_page l'
  end.

Definition get_start_page (cl_record : dict) : option Z :=
  match dict_get cl_record (py "citation") with
  | None => first_start_page []
  | Some (JList citations) => first_start_page citations
  | Some _ => None
  end.

(** Truthiness of an optional integer: present and not zero. *)
Definition int_truthy (o : option Z) : bool :=
  match o with Some n => negb (n =? 0)%Z | None => false end.

Definition is_valid_pin_cite (pin_cite : str) (start_page : Z) : bool :=
  if negb (nonempty pin_cite) then true
  else match search_digits pin_cite with
       | None => true
       | Some m =>
           match int m with
           | None => true
           | Some pin_page =>
               if (pin_page <? start_page)%Z then false
               else if (pin_page >? start_page + 500)%Z then false
               else true
           end
       end.

(** The state of the resolver: the full citations by ["volume|reporter"],
    the most recent citation carrying a record, and the most recent pin
    cite.  A citation is recorded after its own update and is not written
    to afterwards, so the state holds values. *)
Record PropagateState := mkPState {
  full_cites_by_key : list (str * Citation);
  last_cite : option Citation;
  last_pin_cite : option str
}.

Definition initial_state : PropagateState := mkPState [] None None.

Fixpoint cites_get (m : list (str * Citation)) (k : str) : option Citation :=
  match m with
  | [] => None
  | (k', v) :: m' => if str_eqb k' k then Some v else cites_get m' k
  end.

Definition cite_key (volume reporter : option str) : option str :=
  match volume, reporter with
  | Some v, Some r =>
      if nonempty v && nonempty r then Some (v ++ py "|" ++ r) else None
  | _, _ => None
  end.

(** Copy record and case name from [src] into [c]:
    [cite['cl_record'] = cl_record; cite['case_name'] = cite.get('case_name') or src.get('case_name')]. *)
Definition inherit (c src : Citation) (r : dict) : Citation :=
  set_case_name (set_cl_record c (Some r)) (or_else (case_name c) (case_name src)).

(** Record [c] as the last citation when it carries a record. *)
Definition track_last (st : PropagateState) (c : Citation) : PropagateState :=
  if dict_truthy (cl_record c)
  then mkPState (full_cites_by_key st) (Some c) (or_else (pin_cite c) (page c))
  else st.

(** One iteration of the loop of [process_citations]: the new state and
    the citation as it is left in the list. *)
Definition process_citation (st : PropagateState) (cite : Citation)
  : PropagateState * Citation :=
  match cite_type cite with
  | full_case =>
      let st1 :=
        match cite_key (volume cite) (reporter cite) with
        | Some key => mkPState ((key, cite) :: full_cites_by_key st)
                               (last_cite st) (last_pin_cite st)
        | None => st
        end in
      (track_last st1 cite, cite)
  | short_case =>
      let cite1 :=
        match cite_key (volume cite) (reporter cite) with
        | Some key =>
            match cites_get (full_cites_by_key st) key with
            | Some full_cite =>
                match cl_record full_cite with
                | Some ((_ :: _) as r) =>
                    let start_page := get_start_page r in
                    if int_truthy start_page && truthy (page cite) then
                      match start_page, option_map int (page cite) with
                      | Some sp, Some (Some p) =>
                          if (p >=? sp)%Z then inherit cite full_cite r else cite
                      | _, _ => cite
                      end
                    else inherit cite full_cite r
                | _ => cite
                end
            | None => cite
            end
        | None => cite
        end in
      (track_last st cite1, cite1)
  | id_cite =>
      match last_cite st with
      | Some last =>
          match cl_record last with
          | Some ((_ :: _) as r) =>
              let start_page := get_start_page r in
              let effective_pin := or_else (pin_cite cite) (last_pin_cite st) in
              let fill (c : Citation) :=
                if negb (truthy (pin_cite cite)) && truthy effective_pin
                then set_pin_cite c effective_pin else c in
              let cite1 :=
                if int_truthy start_page && truthy effective_pin then
                  match start_page, effective_pin with
                  | Some sp, Some pin =>
                      if is_valid_pin_cite pin sp
                      then fill (inherit cite last r) else cite
                  | _, _ => cite
                  end
                else fill (inherit cite last r) in
              let pin' :=
                if truthy (pin_cite cite) then pin_cite cite
                else if truthy effective_pin then effective_pin
                else last_pin_cite st in
              (mkPState (full_cites_by_key st) (last_cite st) pin', cite1)
          | _ => (st, cite)
          end
      | None => (st, cite)
      end
  | _ => (st, cite)
  end.

Fixpoint process_citations (st : PropagateState) (citations : list Citation)
  : PropagateState * list Citation :=
  match citations with
  | [] => (st, [])
  | cite :: rest =>
      let '(st1, cite1) := process_citation st cite in
      let '(st2, rest1) := process_citations st1 rest in
      (st2, cite1 :: rest1)
  end.

(** The parsed argument: paragraphs that are block quotes (with their own
    citations) or bodies (sentences with citations). *)
Record Sentence := mkSentence {
  sent_text : str;
  sent_citations : list Citation
}.

Inductive Paragraph :=
| BlockQuotePara (intro : option str) (quote_text : str) (citations : list Citation)
| BodyPara (sentences : list Sentence).

Fixpoint propagate_sentences (st : PropagateState) (l : list Sentence)
  : PropagateState * list Sentence :=
  match l with
  | [] => (st, [])
  | s :: l' =>
      let '(st1, cs) := process_citations st (sent_citations s) in
      let '(st2, l1) := propagate_sentences st1 l' in
      (st2, mkSentence (sent_text s) cs :: l1)
  end.

Fixpoint propagate_paragraphs (st : PropagateState) (l : list Paragraph)
  : PropagateState * list Paragraph :=
  match l with
  | [] => (st, [])
  | BlockQuotePara i t cs :: l' =>
      let '(st1, cs1) := process_citations st cs in
      let '(st2, l1) := propagate_paragraphs st1 l' in
      (st2, BlockQuotePara i t cs1 :: l1)
  | BodyPara ss :: l' =>
      let '(st1, ss1) := propagate_sentences st ss in
      let '(st2, l1) := propagate_paragraphs st1 l' in
      (st2, BodyPara ss1 :: l1)
  end.

Definition propagate_cl_records (paragraphs : list Paragraph) : list Paragraph :=
  snd (propagate_paragraphs initial_state paragraphs).

(** The citations of the specification's Id. example: a full citation
    whose record starts at page 100, then "Id. at 105." and "Id. at 900." *)
Definition smith_record : dict :=
  [ (py "caseName", JText (py "Smith v. State"));
    (py "citation", JList [JStr (py "184 S.W.3d 100")]) ].

Definition smith_full : Citation :=
  mkCitation (py "Smith v. State, 184 S.W.3d 100 (Tex. 2020)")
    (Some (py "Smith v. State")) (Some (py "184")) (Some (py "S.W.3d"))
    (Some (py "100")) None full_case (0, 42) None None None (Some smith_record).

Definition id_at (pin : string) : Citation :=
  mkCitation (py "Id. " ++ py pin) None None None None (Some (py pin))
    id_cite (0, 4 + String.length pin) None None None None.

(** ** [extract_propositions] *)

(** The ['type'] of a proposition; [no_type] is the empty string returned
    with no proposition text. *)
Inductive PropType := statement | quote | block_quote | parenthetical_type | no_type.

Record Proposition := mkProposition {
  prop_text : str;
  prop_intro : option str;
  prop_type : PropType;
  prop_citations : list Citation
}.

(** [_has_quotation]: [re.search] of an opening quotation mark, at least
    15 characters that are neither a straight double quote nor a closing
    curly mark, and a
    closing mark.  [quote_run] is the maximal run and whether a closing
    mark follows it. *)
Definition is_closing (c : char) : bool := (c =? 34)%N || (c =? 8221)%N.
Definition is_opening (c : char) : bool := (c =? 34)%N || (c =? 8220)%N.

Fixpoint quote_run (s : str) : nat * bool :=
  match s with
  | [] => (0, false)
  | c :: s' => if is_closing c then (0, true)
               else let '(n, b) := quote_run s' in (S n, b)
  end.

Fixpoint quoted_at_least (k : nat) (s : str) : bool :=
  match s with
  | [] => false
  | c :: s' =>
      (is_opening c && let '(n, b) := quote_run s' in (k <=? n) && b)
      || quoted_at_least k s'
  end.

Definition _has_quotation (text : str) : bool := quoted_at_least 15 text.

(** [min(citations, key=...)] and [max(citations, key=...)]: the first
    element with the least, respectively the greatest, key. *)
Fixpoint min_by (key : Citation -> nat) (best : Citation) (l : list Citation) : Citation :=
  match l with
  | [] => best
  | c :: l' => min_by key (if key c <? key best then c else best) l'
  end.
Fixpoint max_by (key : Citation -> nat) (best : Citation) (l : list Citation) : Citation :=
  match l with
  | [] => best
  | c :: l' => max_by key (if key best <? key c then c else best) l'
  end.

Definition quote_or_statement (text : str) : PropType :=
  if _has_quotation text then quote else statement.

(** [s[:-n]]. *)
Definition drop_last (n : nat) (s : str) : str := firstn (len s - n) s.

Definition _extract_proposition_from_sentence
    (sent_text : str) (citations : list Citation) (prev_sentence : option str)
  : option str * PropType :=
  match citations with
  | [] => (None, no_type)
  | c0 :: cs =>
      let first_cite := min_by (fun c => fst (span c)) c0 cs in
      let last_cite := max_by (fun c => snd (span c)) c0 cs in
      let cite_start := fst (span first_cite) in
      let cite_end := snd (span last_cite) in
      let text_before := strip (slice sent_text 0 cite_start) in
      let text_after := strip (slice_from sent_text cite_end) in
      if endswith text_before (py "--") && startswith text_after (py "--") then
        let intro := strip (drop_last 2 text_before) in
        let conclusion := strip (slice_from text_after 2) in
        let prop_text := strip (intro ++ py " " ++ conclusion) in
        (Some prop_text, quote_or_statement prop_text)
      else
        let text_before :=
          match signal first_cite with
          | Some sig =>
              if nonempty sig && endswith (lower text_before) (lower sig)
              then strip (drop_last (len sig) text_before)
              else text_before
          | None => text_before
          end in
        let text_before :=
          rstrip_chars (py ".,;:-" ++ [8211%N; 32%N]) text_before in
        if 20 <=? len text_before then
          (Some text_before, quote_or_statement text_before)
        else if truthy prev_sentence then
          (prev_sentence,
           quote_or_statement (match prev_sentence with Some p => p | None => [] end))
        else if nonempty text_before then (Some text_before, statement)
        else (None, no_type)
  end.

Definition signaled_with_parenthetical (cite : Citation) : bool :=
  truthy (signal cite) && truthy (parenthetical cite).

Definition paren_prop (cite : Citation) : Proposition :=
  mkProposition (match parenthetical cite with Some t => t | None => [] end)
                None parenthetical_type [cite].

(** What one body sentence with text [sent_text] appends to the output. *)
Definition sentence_propositions (sent : Sentence) (prev_sentence_text : option str)
  : list Proposition :=
  match sent_citations sent with
  | [] => []
  | citations =>
      let '(prop_text, prop_type) :=
        _extract_proposition_from_sentence (sent_text sent) citations
                                           prev_sentence_text in
      match prop_text with
      | Some ((_ :: _) as t) =>
          map paren_prop (filter signaled_with_parenthetical citations)
          ++ [mkProposition t None prop_type citations]
      | _ => []
      end
  end.

(** The loop over the sentences of a body paragraph: the last sentence text
    seen and the propositions appended. *)
Fixpoint body_loop (prev : option str) (sents : list Sentence)
  : option str * list Proposition :=
  match sents with
  | [] => (prev, [])
  | sent :: rest =>
      let here := sentence_propositions sent prev in
      let '(prev', out) := body_loop (Some (sent_text sent)) rest in
      (prev', here ++ out)
  end.

Fixpoint paragraphs_loop (prev : option str) (paras : list Paragraph)
  : option str * list Proposition :=
  match paras with
  | [] => (prev, [])
  | BlockQuotePara intro quote_text citations :: rest =>
      let here :=
        match citations with
        | [] => []
        | _ => [mkProposition quote_text intro block_quote citations]
        end in
      let '(prev', out) := paragraphs_loop (Some quote_text) rest in
      (prev', here ++ out)
  | BodyPara sents :: rest =>
      let '(prev1, here) := body_loop prev sents in
      let '(prev', out) := paragraphs_loop prev1 rest in
      (prev', here ++ out)
  end.

Definition extract_propositions (paragraphs : list Paragraph) : list Proposition :=
  snd (paragraphs_loop None paragraphs).


(** A brief whose argument opens with a signaled citation. *)
Definition see_sentence_text : str :=
  py "See Smith v. State, 1 U.S. 1 (1900) (holding that the statute applies).".

Definition see_cite : Citation :=
  mkCitation (py "Smith v. State, 1 U.S. 1 (1900)")
    (Some (py "Smith v. State")) (Some (py "1")) (Some (py "U.S."))
    (Some (py "1")) None full_case (4, 35)
    (_find_signal_before see_sentence_text 4)
    (_find_parenthetical_after see_sentence_text 35) None None.



(** The sentence of the specification's segmentation example. *)
Definition smith_text : str :=
  py "See Smith v. State, 123 S.W.3d 456 (Tex. 2020). The court erred.".

End ParseBrief.

(** ** The head of [parse_argument_section] *)

Module ParseBriefSection.
Import ParseBrief.

(** What [parse_argument_section] returns: the dict with the one key
    ['error'], or the dict with the key ['argument']. *)
Inductive Parsed :=
| error_dict (error : str)
| argument_dict (start_page end_page : nat) (paragraphs : list Paragraph).

(** [parsed.get('argument', {}).get('paragraphs', [])]. *)
Definition paragraphs_of (parsed : Parsed) : list Paragraph :=
  match parsed with
  | error_dict _ => []
  | argument_dict _ _ paragraphs => paragraphs
  end.

Definition START_HEADINGS : list str := map py
  [ "Reply Argument"; "Argument"; "ARGUMENT"; "REPLY ARGUMENT" ]%string.
Definition END_HEADINGS : list str := map py
  [ "Conclusion"; "Prayer"; "CONCLUSION"; "PRAYER" ]%string.

Section ParseArgumentSection.

(** The section lookups over the document and the paragraph processing
    that follows them. *)
Variable SectionInfo : Type.
Variable find_section : str -> list str -> option SectionInfo.
Variable find_section_by_prefix : str -> list str -> option SectionInfo.
Variable section_pages : SectionInfo -> nat * nat.
Variable process_paragraphs : SectionInfo -> list Paragraph.

(** The loop over the exact headings, left at the first section found. *)
Fixpoint first_section (starts : list str) : option SectionInfo :=
  match starts with
  | [] => None
  | start :: rest =>
      match find_section start END_HEADINGS with
      | Some section => Some section
      | None => first_section rest
      end
  end.

Definition parse_argument_section : Parsed :=
  let section :=
    match first_section START_HEADINGS with
    | Some section => Some section
    | None => find_section_by_prefix (py "Argument") END_HEADINGS
    end in
  match section with
  | None => error_dict (py "Could not find Argument section")
  | Some section =>
      argument_dict (fst (section_pages section) + 1)
                    (snd (section_pages section) + 1)
                    (process_paragraphs section)
  end.

End ParseArgumentSection.

End ParseBriefSection.

(* ===================================================================== *)
(** * citation_analyzer.py *)
(* ===================================================================== *)

Module Analyzer.

Definition SIGNALS : list str := map py
  [ "see"; "see also"; "see generally"; "cf."; "compare"; "contra";
    "but see"; "but cf."; "see, e.g.,"; "e.g.,"; "accord" ]%string.

Definition LEGAL_ABBREVS : list str := map py
  [ "v."; "vs."; "Inc."; "Ltd."; "Corp."; "Co."; "No."; "Nos.";
    "App."; "Crim."; "Civ."; "Ct."; "Dist."; "Supp."; "Rev.";
    "Stat."; "Ann."; "Gen."; "Ass."; "Ch."; "Cl."; "Div.";
    "Ed."; "Ex."; "Fed."; "Gov."; "Int."; "Jr."; "Sr."; "Mr.";
    "Mrs."; "Ms."; "Dr."; "Prof."; "Rep."; "Sen."; "St.";
    "Tex."; "Cal."; "N.Y."; "Fla."; "U.S."; "S.W."; "N.W.";
    "S.E."; "N.E."; "So."; "P."; "F."; "L."; "R."; "S."; "W." ]%string.

(** ** The compiled patterns

    Each pattern of [_compile_patterns] is matched by a function written
    for it.  All of them are compiled with [re.IGNORECASE]: a literal
    matches when the lower-cased text equals the lower-cased literal. *)

(** The literal [lit] at the start of [s], ignoring case. *)
Definition istartswith (s lit : str) : bool := startswith (lower s) (lower lit).

Definition all_space (s : str) : bool := forallb isspace s.

(** [\b] between [prev] and the head of [s]. *)
Definition word_boundary (prev : option char) (s : str) : bool :=
  xorb (match prev with Some c => is_word c | None => false end)
       (match s with c :: _ => is_word c | [] => false end).

(** [signal_pattern], the signals joined by [|] inside
    [\b( ... )\s*$]: a match at the head of [s] is a signal followed by
    whitespace up to the end. *)
Definition signal_here (s : str) : option str :=
  List.find (fun sig => istartswith s sig && all_space (skipn (len sig) s))
            SIGNALS.

(** [signal_pattern.search]: the leftmost match, as its start and its
    group 1. *)
Fixpoint signal_search (prev : option char) (s : str) (i : nat)
  : option (nat * str) :=
  match (if word_boundary prev s then signal_here s else None) with
  | Some sig => Some (i, firstn (len sig) s)
  | None =>
      match s with
      | [] => None
      | c :: s' => signal_search (Some c) s' (S i)
      end
  end.

Definition _extract_signal (text : str) : option str :=
  match signal_search None text 0 with
  | Some (_, group1) => Some (lower group1)
  | None => None
  end.

(** [signal_pattern.sub('', text)]: the match runs to the end of the text,
    so what is left is the text before it. *)
Definition remove_signal (text : str) : str :=
  match signal_search None text 0 with
  | Some (start, _) => firstn start text
  | None => text
  end.

(** [inline_quote_pattern]: a quotation mark (straight or curly), one or
    more characters that are not quotation marks, a quotation mark. *)
Definition is_quote_mark (c : char) : bool :=
  (c =? 34)%N || (c =? 8220)%N || (c =? 8221)%N.

Record Quotation := mkQuotation {
  q_text : str;
  q_start : nat;
  q_end : nat
}.

(** [finditer]: scanning from position [i]; [open] is the position of the
    quotation mark that may open a match and the characters read since, in
    reverse. *)
Fixpoint quotations_scan (s : str) (i : nat) (open : option (nat * str))
  : list Quotation :=
  match s with
  | [] => []
  | c :: s' =>
      match open with
      | None =>
          quotations_scan s' (S i) (if is_quote_mark c then Some (i, []) else None)
      | Some (start, run) =>
          if is_quote_mark c then
            match run with
            | [] => quotations_scan s' (S i) (Some (i, []))
            | _ => mkQuotation (rev run) start (S i) :: quotations_scan s' (S i) None
            end
          else quotations_scan s' (S i) (Some (start, c :: run))
      end
  end.

Definition _find_quotations (text : str) : list Quotation :=
  quotations_scan text 0 None.

(** [parenthetical_pattern]: an open parenthesis, one of the verbs,
    whitespace, "that", whitespace, the content, a close parenthesis. *)
Definition PAREN_VERBS : list str := map py
  [ "holding"; "stating"; "finding"; "noting"; "explaining"; "observing";
    "concluding"; "reasoning"; "emphasizing"; "recognizing"; "determining";
    "clarifying"; "reaffirming"; "affirming"; "reversing" ]%string.

Fixpoint span_by (p : char -> bool) (s : str) : str * str :=
  match s with
  | c :: s' => if p c then let '(a, b) := span_by p s' in (c :: a, b)
               else ([], s)
  | [] => ([], [])
  end.

Definition not_close (c : char) : bool := negb (c =? 41)%N.

(** The part [\s+([^)]+)\)] on [s]: group 1 and the length of the match.
    When only whitespace stands before the close parenthesis, the group is
    its last character and needs another one before it. *)
Definition match_content (s : str) : option (str * nat) :=
  let '(ws, after_ws) := span_by isspace s in
  match ws with
  | [] => None
  | _ :: _ =>
      let '(run, after_run) := span_by not_close after_ws in
      match run, after_run with
      | _ :: _, _ :: _ => Some (run, len ws + len run + 1)
      | [], _ :: _ =>
          match rev ws with
          | w :: _ :: _ => Some ([w], len ws + 1)
          | _ => None
          end
      | _, [] => None
      end
  end.

(** The pattern at the head of [s]: group 1 and the length of the match. *)
Definition parenthetical_here (s : str) : option (str * nat) :=
  match s with
  | 40%N :: s1 =>
      match List.find (istartswith s1) PAREN_VERBS with
      | Some verb =>
          let s2 := skipn (len verb) s1 in
          let '(ws, s3) := span_by isspace s2 in
          match ws with
          | [] => None
          | _ :: _ =>
              if istartswith s3 (py "that") then
                match match_content (skipn 4 s3) with
                | Some (group1, n) => Some (group1, 1 + len verb + len ws + 4 + n)
                | None => None
                end
              else None
          end
      | None => None
      end
  | _ => None
  end.

(** [parenthetical_pattern.search]: start, end and group 1 of the leftmost
    match. *)
Fixpoint parenthetical_search (s : str) (i : nat) : option (nat * nat * str) :=
  match parenthetical_here s with
  | Some (group1, n) => Some (i, i + n, group1)
  | None =>
      match s with
      | [] => None
      | _ :: s' => parenthetical_search s' (S i)
      end
  end.

Record Parenthetical := mkParenthetical {
  full_text : str;
  content : str;
  has_quotations : bool;
  paren_quotations : list Quotation;
  paren_start : nat;
  paren_end : nat
}.

Definition _find_parenthetical_after (text : str) (position : nat)
  : option Parenthetical :=
  let lookahead := 200 in
  let end_ := Nat.min (len text) (position + lookahead) in
  let following_text := slice text position end_ in
  match parenthetical_search following_text 0 with
  | Some (m_start, m_end, group1) =>
      let parenthetical_content := strip group1 in
      let quotations := _find_quotations parenthetical_content in
      Some (mkParenthetical (slice following_text m_start m_end)
                            parenthetical_content
                            (0 <? List.length quotations)
                            quotations
                            (position + m_start)
                            (position + m_end))
  | None => None
  end.

(** The annotation pattern of [extract_citations_with_context],
    [^\([^)]*(?:added|omitted|...)[^)]*\)\s*\.?\s*], and its [sub('', _)]:
    a leading parenthesis group that holds one of the key words goes, with
    the whitespace and the period after it. *)
Definition ANNOTATION_WORDS : list str := map py
  [ "added"; "omitted"; "altered"; "supplied"; "cleaned up";
    "quotation mark"; "citation"; "internal"; "emphasis"; "footnote" ]%string.

Definition strip_annotation (s : str) : str :=
  match s with
  | 40%N :: s1 =>
      let '(inner, after) := span_by not_close s1 in
      match after with
      | _ :: rest =>
          if existsb (contains (lower inner)) ANNOTATION_WORDS then
            let rest := lstrip rest in
            let rest := match rest with 46%N :: r => r | _ => rest end in
            lstrip rest
          else s
      | [] => s
      end
  | _ => s
  end.

(** ** [_find_sentence_start] *)

(** Whether the text up to and including position [i] ends with one of
    the abbreviations, ignoring case. *)
Definition ends_with_abbrev (search_text : str) (i : nat) : bool :=
  existsb (fun abbrev =>
             (len abbrev <=? i + 1)
             && str_eqb (lower (slice search_text (i + 1 - len abbrev) (i + 1)))
                        (lower abbrev))
          LEGAL_ABBREVS.

(** The loop [while i >= 0] with [k = i + 1]; it returns [best_pos]. *)
Fixpoint sentence_start_loop (search_text : str) (k boundaries_found : nat) : nat :=
  match k with
  | O => 0
  | S i =>
      let continue_ := sentence_start_loop search_text i in
      match nth_error search_text i with
      | Some char =>
          if char_in char (py ".!?") then
            let after_punct := lstrip (slice_from search_text (i + 1)) in
            if match after_punct with [] => true | c :: _ => isupper c end then
              if negb (ends_with_abbrev search_text i) then
                if boundaries_found + 1 =? 2
                then len search_text - len after_punct
                else continue_ (boundaries_found + 1)
              else continue_ boundaries_found
            else continue_ boundaries_found
          else continue_ boundaries_found
      | None => continue_ boundaries_found
      end
  end.

Definition _find_sentence_start (text : str) (end_pos : nat) : nat :=
  let search_text := slice text 0 end_pos in
  sentence_start_loop search_text (len search_text) 0.

(** ** Citation tokens and their spans *)

(** What the recogniser gives for a citation: its class, [span()], the
    full span when it has one, and the guessed antecedent. *)
Inductive CiteClass :=
| FullCaseCitation | ShortCaseCitation | IdCitation | SupraCitation | OtherCitation.

Record Cite := mkCite {
  cite_class : CiteClass;
  span_start : nat;
  span_end : nat;
  full_span_start : option nat;
  full_span_end : option nat;
  antecedent_guess : option str
}.

(** [\b(<antecedent>)\s*,\s*$] at the head of [s]. *)
Definition antecedent_here (antecedent s : str) : bool :=
  istartswith s antecedent
  && match lstrip (skipn (len antecedent) s) with
     | 44%N :: rest => all_space rest
     | _ => false
     end.

Fixpoint antecedent_search (antecedent : str) (prev : option char) (s : str)
         (i : nat) : option nat :=
  if word_boundary prev s && antecedent_here antecedent s then Some i
  else match s with
       | [] => None
       | c :: s' => antecedent_search antecedent (Some c) s' (S i)
       end.

Definition full_span_or (cite : Cite) : option (nat * nat) :=
  match full_span_start cite with
  | Some fs =>
      Some (fs, match full_span_end cite with Some fe => fe | None => span_end cite end)
  | None => None
  end.

Definition _get_full_citation_span (cite : Cite) (text : str) : nat * nat :=
  match cite_class cite with
  | FullCaseCitation =>
      match full_span_or cite with
      | Some sp => sp
      | None => (span_start cite, span_end cite)
      end
  | ShortCaseCitation =>
      match full_span_or cite with
      | Some sp => sp
      | None =>
          match antecedent_guess cite with
          | Some ((_ :: _) as antecedent) =>
              let lookback := Nat.min (span_start cite) 100 in
              let preceding :=
                slice text (span_start cite - lookback) (span_start cite) in
              match antecedent_search antecedent None preceding 0 with
              | Some m_start =>
                  (span_start cite - lookback + m_start, span_end cite)
              | None => (span_start cite, span_end cite)
              end
          | _ => (span_start cite, span_end cite)
          end
      end
  | _ => (span_start cite, span_end cite)
  end.

(** ** [extract_citations_with_context] *)

Inductive CiteType := full_case | short_case | id_cite | supra | unknown.

Inductive ContentType := STATEMENT | QUOTATION | BLOCK_QUOTATION.

Record CitationInfo := mkCitationInfo {
  cit_text : str;
  cit_type : CiteType;
  cit_start : nat;
  cit_end : nat;
  signal : option str;
  parenthetical : option Parenthetical;
  needs_review : bool;
  refers_to : option str
}.

(** The block quote attached to an item by the processor. *)
Record BlockQuoteLink := mkBlockQuoteLink {
  link_text : str;
  intro_text : str;
  link_start_page : nat;
  link_end_page : nat
}.

Record Item := mkItem {
  preceding_text : str;
  citation : CitationInfo;
  has_quotation : bool;
  quotations : list Quotation;
  content_type : ContentType;
  is_string_cite : bool;
  string_cite_group : nat;
  block_quote : option BlockQuoteLink
}.

(** What the loop carries from one citation to the next. *)
Record LoopState := mkLoopState {
  last_end : nat;
  last_full_citation : option str;
  last_proposition : option str;
  group_counter : nat
}.

Definition start_state : LoopState := mkLoopState 0 None None 0.

(** The text before the citation, from its raw form
    [text[actual_start:start_pos]]: stripped, without the punctuation left
    by the previous citation, without a leading annotation and without a
    trailing signal; and the signal. *)
Definition clean_preceding (raw : str) : str * option str :=
  let preceding_text := strip raw in
  let preceding_text := lstrip_chars (py ".,;:!? " ++ [9%N; 10%N]) preceding_text in
  let preceding_text := strip_annotation preceding_text in
  let signal := _extract_signal preceding_text in
  match signal with
  | Some _ => (strip (remove_signal preceding_text), signal)
  | None => (preceding_text, signal)
  end.

Definition CONNECTORS : list str := map py [ "and"; "or"; "but" ]%string.

(** The string-cite test: the text attributed to the citation, whether it
    is part of a string cite, and the last proposition and the group
    counter after it. *)
Definition attribute (preceding_text : str)
           (last_proposition : option str) (string_cite_group : nat)
  : str * bool * option str * nat :=
  let stripped_preceding :=
    strip_chars (py ";,. " ++ [9%N; 10%N]) preceding_text in
  if negb (nonempty stripped_preceding) || str_in stripped_preceding CONNECTORS
  then
    (if truthy last_proposition
     then match last_proposition with Some p => p | None => preceding_text end
     else preceding_text,
     true, last_proposition, string_cite_group)
  else (preceding_text, false, Some preceding_text, string_cite_group + 1).

Definition cite_type_of (c : CiteClass) : CiteType :=
  match c with
  | FullCaseCitation => full_case
  | ShortCaseCitation => short_case
  | IdCitation => id_cite
  | SupraCitation => supra
  | OtherCitation => unknown
  end.

(** The raw text before a citation that starts at [start_pos]: from the
    end of the previous citation or the start of the sentence, whichever
    is later. *)
Definition raw_preceding (text : str) (last_end start_pos : nat) : str :=
  let sentence_start := _find_sentence_start text start_pos in
  let actual_start := Nat.max last_end sentence_start in
  slice text actual_start start_pos.

(** One turn of the loop over the citations found. *)
Definition step (text : str) (st : LoopState) (cite : Cite) : LoopState * Item :=
  let '(start_pos, end_pos) := _get_full_citation_span cite text in
  let citation_text := slice text start_pos end_pos in
  let '(preceding_text, signal) :=
    clean_preceding (raw_preceding text (last_end st) start_pos) in
  let '(preceding_text, is_string_cite, last_proposition, string_cite_group) :=
    attribute preceding_text (last_proposition st) (group_counter st) in
  let parenthetical := _find_parenthetical_after text end_pos in
  let cite_type := cite_type_of (cite_class cite) in
  let last_full_citation :=
    match cite_class cite with
    | FullCaseCitation => Some citation_text
    | _ => last_full_citation st
    end in
  let quotations := _find_quotations preceding_text in
  let needs_review :=
    match signal, parenthetical with
    | Some _, None => true
    | _, _ => false
    end in
  let refers_to :=
    match cite_type with
    | id_cite => if truthy last_full_citation then last_full_citation else None
    | _ => None
    end in
  let result :=
    mkItem preceding_text
           (mkCitationInfo citation_text cite_type start_pos end_pos signal
                           parenthetical needs_review refers_to)
           (0 <? List.length quotations)
           quotations
           (match quotations with [] => STATEMENT | _ => QUOTATION end)
           is_string_cite string_cite_group None in
  let last_end :=
    match parenthetical with
    | Some p => paren_end p
    | None => end_pos
    end in
  (mkLoopState last_end last_full_citation last_proposition string_cite_group,
   result).

Fixpoint citations_loop (text : str) (st : LoopState) (found : list Cite)
  : list Item :=
  match found with
  | [] => []
  | cite :: rest =>
      let '(st', result) := step text st cite in
      result :: citations_loop text st' rest
  end.

(** [found_citations] is what [get_citations(text)] returned. *)
Definition extract_citations_with_context (text : str) (found_citations : list Cite)
  : list Item :=
  citations_loop text start_state found_citations.

(** The text of the specification's string-cite example and the three
    citations the recogniser finds in it. *)
Definition rule_text : str :=
  py "The rule is clear. Smith v. State, 1 U.S. 1 (1900); Jones v. State, 2 U.S. 2 (1901); and Brown v. State, 3 U.S. 3 (1902).".

Definition rule_cites : list Cite :=
  [ mkCite FullCaseCitation 35 43 (Some 19) (Some 50) None;
    mkCite FullCaseCitation 68 76 (Some 52) (Some 83) None;
    mkCite FullCaseCitation 105 113 (Some 89) (Some 120) None ].

Definition rule_clear : str := py "The rule is clear.".

(** The raw texts before the citations of a run, in order. *)
Fixpoint raw_texts (text : str) (st : LoopState) (found : list Cite) : list str :=
  match found with
  | [] => []
  | cite :: rest =>
      raw_preceding text (last_end st) (fst (_get_full_citation_span cite text))
      :: raw_texts text (fst (step text st cite)) rest
  end.

(** A signaled citation with no parenthetical after it. *)
Definition see_text : str :=
  py "The rule is clear. See Smith v. State, 1 U.S. 1 (1900).".

Definition see_cite : Cite :=
  mkCite FullCaseCitation 39 47 (Some 23) (Some 54) None.

Definition see_item : Item := snd (step see_text start_state see_cite).

End Analyzer.

(* ===================================================================== *)
(** * Page layout: margins and block quotes *)
(* ===================================================================== *)

(** A text block of a page, as PyMuPDF gives it.  Coordinates are finite
    numbers; they are rationals here and compared exactly. *)
Module Layout.

Record Block := mkBlock {
  x0 : Q;
  y0 : Q;
  block_text : str;
  block_type : Z
}.

(** [round(x)]: to the nearest integer, ties to the even one. *)
Definition round (x : Q) : Z :=
  let f := Qfloor x in
  match Qcompare (x - inject_Z f) (1 # 2) with
  | Lt => f
  | Gt => (f + 1)%Z
  | Eq => if Z.even f then f else (f + 1)%Z
  end.

(** A [Counter] keeps its keys in insertion order. *)
Definition Counter := list (Z * nat).

Fixpoint counter_incr (k : Z) (c : Counter) : Counter :=
  match c with
  | [] => [(k, 1)]
  | (k', n) :: c' =>
      if (k =? k')%Z then (k', S n) :: c' else (k', n) :: counter_incr k c'
  end.

(** [most_common]: by count, highest first, equal counts in insertion
    order. *)
Fixpoint insert_by_count (x : Z * nat) (l : Counter) : Counter :=
  match l with
  | [] => [x]
  | y :: l' => if snd y <? snd x then x :: l else y :: insert_by_count x l'
  end.
Definition most_common (n : nat) (c : Counter) : Counter :=
  firstn n (fold_left (fun acc x => insert_by_count x acc) c []).

(** Only text blocks with more than 30 characters are counted. *)
Definition substantial (b : Block) : bool :=
  (block_type b =? 0)%Z && nonempty (strip (block_text b))
  && (30 <? len (strip (block_text b))).

Definition x0_counts (blocks : list Block) : Counter :=
  fold_left (fun c b => if substantial b then counter_incr (round (x0 b)) c else c)
            blocks [].

(** The two margin attributes of an extractor; both [None] when it is
    created. *)
Record Margins := mkMargins {
  body_margin : option Z;
  indent_margin : option Z
}.

Definition no_margins : Margins := mkMargins None None.

(** [_calculate_margins] with the offset used when a single margin is
    found: 36 in parse_brief.py ([_block_indent]), 20 in pdf_extractor.py
    ([_para_indent]).  [blocks] are the blocks of the pages of the section,
    in order. *)
Definition calculate_margins (offset : Z) (m : Margins) (blocks : list Block)
  : Margins :=
  match most_common 3 (x0_counts blocks) with
  | a :: b :: _ =>
      mkMargins (Some (Z.min (fst a) (fst b))) (Some (Z.max (fst a) (fst b)))
  | [a] => mkMargins (Some (fst a)) (Some (fst a + offset)%Z)
  | [] => m
  end.

End Layout.

Module ParseBriefLayout.
Import Layout.

Definition _calculate_margins := calculate_margins 36.

(** A block kept for the second pass of [extract_paragraphs]. *)
Record PBlock := mkPBlock {
  pb_text : str;
  pb_x0 : Q;
  pb_page : nat
}.

Inductive RawParagraph :=
| raw_block_quote (blocks : list PBlock)
| raw_body (blocks : list PBlock).

(** Truthiness of the margin: set and not zero. *)
Definition margin_truthy (bm : option Z) : option Z :=
  match bm with
  | Some m => if (m =? 0)%Z then None else Some m
  | None => None
  end.

(** The first pass keeps the text blocks that are not blank and not more
    than 100pt from the body margin; [blocks] are those between the
    headings of the section, [page] their page. *)
Definition Qgt_bool (a b : Q) : bool := negb (Qle_bool a b).

Definition keep_block (bm : option Z) (b : Block) : bool :=
  (block_type b =? 0)%Z && nonempty (strip (block_text b))
  && match margin_truthy bm with
     | Some m => negb (Qgt_bool (Qabs (x0 b - inject_Z m)) 100)
     | None => true
     end.

Definition first_pass (bm : option Z) (pages : list (nat * list Block))
  : list PBlock :=
  flat_map (fun '(page_num, blocks) =>
              map (fun b => mkPBlock (strip (block_text b)) (x0 b) (page_num + 1))
                  (filter (keep_block bm) blocks))
           pages.

(** [block['x0'] - self._body_margin if self._body_margin else 0]. *)
Definition indent_of (bm : option Z) (b : PBlock) : Q :=
  match margin_truthy bm with
  | Some m => pb_x0 b - inject_Z m
  | None => 0
  end.

Definition indented (bm : option Z) (b : PBlock) : bool :=
  Qgt_bool (indent_of bm b) 25.

(** The run of indented blocks that follows an indented block, and what
    is left after it. *)
Fixpoint take_indented (bm : option Z) (l : list PBlock)
  : list PBlock * list PBlock :=
  match l with
  | b :: l' =>
      if indented bm b
      then let '(q, rest) := take_indented bm l' in (b :: q, rest)
      else ([], l)
  | [] => ([], [])
  end.

(** The look-ahead from [k = j + 1]: an indented block makes the block at
    [j] the start of a block quote, a block within 10pt of the margin makes
    it a first-line indent. *)
Fixpoint is_block_quote (bm : option Z) (l : list PBlock) : bool :=
  match l with
  | [] => false
  | b :: l' =>
      if indented bm b then true
      else if Qle_bool (indent_of bm b) 10 then false
      else is_block_quote bm l'
  end.

(** The blocks added to a body paragraph after its first one. *)
Fixpoint collect_body (bm : option Z) (l : list PBlock)
  : list PBlock * list PBlock :=
  match l with
  | [] => ([], [])
  | next_block :: l' =>
      if indented bm next_block && is_block_quote bm l' then ([], l)
      else let '(body, rest) := collect_body bm l' in (next_block :: body, rest)
  end.

(** The second pass, [while i < len(all_blocks)]; every turn consumes at
    least one block, so [fuel] above the number of blocks is enough. *)
Fixpoint second_pass (fuel : nat) (bm : option Z) (all_blocks : list PBlock)
  : option (list RawParagraph) :=
  match fuel with
  | O => None
  | S fuel' =>
      match all_blocks with
      | [] => Some []
      | block :: after =>
          let body :=
            let '(body_blocks, rest) := collect_body bm after in
            option_map (cons (raw_body (block :: body_blocks)))
                       (second_pass fuel' bm rest) in
          if indented bm block then
            let '(quote_blocks, rest) := take_indented bm after in
            if 2 <=? List.length (block :: quote_blocks)
            then option_map (cons (raw_block_quote (block :: quote_blocks)))
                            (second_pass fuel' bm rest)
            else body
          else body
      end
  end.

(** [extract_paragraphs]: the margins are computed from [counted], all the
    blocks of the pages of the section; [pages] are the numbered pages with
    the blocks that lie between the headings. *)
Definition extract_paragraphs (m : Margins) (counted : list Block)
           (pages : list (nat * list Block)) : option (list RawParagraph) :=
  let m' := _calculate_margins m counted in
  let all_blocks := first_pass (body_margin m') pages in
  second_pass (S (List.length all_blocks)) (body_margin m') all_blocks.

(** The fallback as the specification words it: with fewer than two margin
    clusters, the indent margin is the single margin plus 36. *)
Definition fallback_to_single_margin : Prop :=
  forall (m : Margins) (blocks : list Block),
    List.length (x0_counts blocks) < 2 ->
    exists margin,
      body_margin (_calculate_margins m blocks) = Some margin
      /\ indent_margin (_calculate_margins m blocks) = Some (margin + 36)%Z.

(** A page whose only text block is a short heading: nothing is counted. *)
Definition short_block : Block :=
  mkBlock (72 # 1) (100 # 1) (py "ARGUMENT AND AUTHORITIES") 0.

(** A page with one long line at x0 = 72.3. *)
Definition long_block : Block :=
  mkBlock (723 # 10) (120 # 1)
          (py "The trial court erred in denying the motion to suppress.") 0.

End ParseBriefLayout.

(** The same step in pdf_extractor.py: the offset is 20, and the loop over
    the blocks subtracts the body margin without testing it. *)
Module PdfExtractor.
Import Layout.

Definition _calculate_margins := calculate_margins 20.

Inductive Raised := TypeError.

Record XBlock := mkXBlock {
  xb_text : str;
  xb_x0 : Q;
  xb_y0 : Q;
  xb_page : nat;
  is_indented : bool
}.

(** The loop that collects the blocks of one page; [outside] tells the
    blocks that lie before the start heading or after the end heading. *)
Fixpoint collect_blocks (bm : option Z) (outside : Block -> bool)
         (page_num : nat) (blocks : list Block) : Raised + list XBlock :=
  match blocks with
  | [] => inr []
  | b :: rest =>
      if negb (block_type b =? 0)%Z || negb (nonempty (strip (block_text b)))
      then collect_blocks bm outside page_num rest
      else
        match bm with
        | None => inl TypeError
        | Some m =>
            if negb (Qle_bool (Qabs (x0 b - inject_Z m)) 100) || outside b
            then collect_blocks bm outside page_num rest
            else
              match collect_blocks bm outside page_num rest with
              | inl e => inl e
              | inr l =>
                  inr (mkXBlock (strip (block_text b)) (x0 b) (y0 b)
                                (page_num + 1)
                                (negb (Qle_bool (x0 b) (inject_Z (m + 3))))
                       :: l)
              end
        end
  end.

End PdfExtractor.

(* ===================================================================== *)
(** * extract_propositions.py *)
(* ===================================================================== *)

Module Extractor.

Definition PAREN_VERBS : list str := map py
  [ "holding"; "stating"; "finding"; "noting"; "explaining"; "observing";
    "concluding"; "reasoning"; "emphasizing"; "recognizing"; "determining";
    "clarifying"; "reaffirming"; "affirming"; "reversing"; "quoting";
    "citing"; "discussing"; "describing"; "providing"; "defining";
    "establishing"; "requiring"; "permitting"; "allowing"; "prohibiting" ]%string.

(** [_find_parenthetical_after]: content, start and end of the
    parenthetical that opens right after [pos]. *)
Definition _find_parenthetical_after (text : str) (pos : nat)
  : option (str * nat * nat) :=
  let search_text := slice text pos (pos + 50) in
  match ParseBrief.match_open_paren search_text 0 with
  | None => None
  | Some match_end =>
      let paren_start := pos + match_end - 1 in
      let after_paren := lstrip (slice text (paren_start + 1) (paren_start + 50)) in
      if existsb (fun verb => startswith (lower after_paren) verb) PAREN_VERBS then
        let '(depth, i) :=
          ParseBrief.close_paren (slice_from text (paren_start + 1))
                                 (paren_start + 1) 1 in
        if negb (depth =? 0) then None
        else
          let paren_end := i in
          let content := strip (slice text (paren_start + 1) (paren_end - 1)) in
          Some (content, paren_start, paren_end)
      else None
  end.

(** ** [consolidate_propositions] *)

Record Citation := mkCitation {
  text : str;
  citation_type : str;
  case_name : option str;
  start : nat;
  end_ : nat;
  refers_to : option str
}.

Record Proposition := mkProposition {
  prop_text : str;
  proposition_type : str;
  citations : list Citation;
  signal : option str
}.

Record Consolidated := mkConsolidated {
  proposition : str;
  type : str;
  cons_citations : list Citation;
  cons_signal : option str
}.

(** The dict [consolidated], in the order its keys were inserted. *)
Definition Table := list (str * Consolidated).

(** [consolidated[key]] gets the citations of [prop], or a new entry. *)
Fixpoint add_proposition (key text : str) (prop : Proposition) (t : Table) : Table :=
  match t with
  | [] => [(key, mkConsolidated text (proposition_type prop)
                                (citations prop) (signal prop))]
  | (k, e) :: t' =>
      if str_eqb k key
      then (k, mkConsolidated (proposition e) (type e)
                              (cons_citations e ++ citations prop)
                              (cons_signal e)) :: t'
      else (k, e) :: add_proposition key text prop t'
  end.

(** The test that makes the loop skip a proposition. *)
Definition skipped (prop : Proposition) : bool :=
  let text := strip (prop_text prop) in
  negb (nonempty text) || (len text <? 10).

Definition consolidate_step (t : Table) (prop : Proposition) : Table :=
  let text := strip (prop_text prop) in
  if negb (nonempty text) || (len text <? 10) then t
  else add_proposition (slice text 0 200) text prop t.

Definition consolidate_propositions (propositions : list Proposition)
  : list Consolidated :=
  map snd (fold_left consolidate_step propositions []).

(** Two propositions for the examples: a fragment and a full sentence. *)
Definition smith_citation : Citation :=
  mkCitation (py "Smith v. State, 1 U.S. 1 (1900)") (py "full_case")
             (Some (py "Smith v. State")) 19 50 None.
Definition jones_citation : Citation :=
  mkCitation (py "Jones v. State, 2 U.S. 2 (1901)") (py "full_case")
             (Some (py "Jones v. State")) 52 83 None.

Definition fragment : Proposition :=
  mkProposition (py "  and so. ") (py "statement") [jones_citation] None.
Definition rule : Proposition :=
  mkProposition (py "The rule is clear.") (py "statement") [smith_citation] None.

(** What holds of every entry of the table, [props] being the
    propositions read so far: its text is the stripped text of a
    proposition that was not skipped, and so are its citations. *)
Definition entry_from (props : list Proposition) (e : Consolidated) : Prop :=
  (exists q, In q props /\ skipped q = false
             /\ proposition e = strip (prop_text q))
  /\ forall c, In c (cons_citations e) ->
               exists q, In q props /\ skipped q = false /\ In c (citations q).

End Extractor.

(* ===================================================================== *)
(** * The parenthetical detectors side by side *)
(* ===================================================================== *)

Module Detectors.







End Detectors.

(* ===================================================================== *)
(** * brief_processor.py *)
(* ===================================================================== *)

Module Processor.
Import Analyzer.

Record BlockQuote := mkBlockQuote {
  bq_text : str;
  bq_start_page : nat;
  bq_end_page : nat
}.

(** What [extract_section_with_blockquotes] returns for a section. *)
Record SectionData := mkSectionData {
  sec_text : str;
  sec_start_page : nat;
  sec_end_page : nat;
  sec_block_quotes : list BlockQuote;
  sec_body_margin : option Z;
  sec_para_indent : option Z
}.

(** The endings of an introduction: colon, em dash, comma, semicolon,
    ellipsis character, three periods. *)
Definition intro_endings : list str :=
  [ py ":"; [8212%N]; py ","; py ";"; [8230%N]; py "..." ].

Definition normalize (s : str) : str := join (py " ") (split s).

(** The first ten words of a block quote. *)
Definition bq_identifier (bq_text : str) : str :=
  join (py " ") (firstn 10 (split bq_text)).

Definition intro_of (preceding_normalized bq_identifier : str) : str :=
  match find preceding_normalized bq_identifier with
  | Some bq_start_idx =>
      if 0 <? bq_start_idx then
        let potential_intro := strip (slice preceding_normalized 0 bq_start_idx) in
        if nonempty potential_intro
           && existsb (endswith (rstrip potential_intro)) intro_endings
        then potential_intro else []
      else []
  | None => []
  end.

(** The item once it is linked to [bq]. *)
Definition linked (item : Item) (preceding_normalized : str) (bq : BlockQuote) : Item :=
  mkItem (preceding_text item) (citation item) false [] BLOCK_QUOTATION
         (is_string_cite item) (string_cite_group item)
         (Some (mkBlockQuoteLink (bq_text bq)
                  (intro_of preceding_normalized (bq_identifier (bq_text bq)))
                  (bq_start_page bq) (bq_end_page bq))).

(** The inner loop [for bq in block_quotes], left at the first match. *)
Fixpoint link_item (item : Item) (preceding_normalized : str)
         (block_quotes : list BlockQuote) : Item :=
  match block_quotes with
  | [] => item
  | bq :: rest =>
      if contains preceding_normalized (bq_identifier (bq_text bq))
      then linked item preceding_normalized bq
      else link_item item preceding_normalized rest
  end.

(** [_link_block_quotes_to_citations]: the items after the update in
    place. *)
Definition _link_block_quotes_to_citations
           (items : list Item) (block_quotes : list BlockQuote) : list Item :=
  map (fun item => link_item item (normalize (preceding_text item)) block_quotes)
      items.

(** ** [process_brief] *)

Inductive Exception := ValueError (message : str) | TypeError.

Record Metadata := mkMetadata {
  start_page : nat;
  end_page : nat;
  total_citations : nat;
  total_statements : nat;
  total_inline_quotations : nat;
  total_block_quotations : nat;
  meta_body_margin : option Z;
  meta_para_indent : option Z
}.

Record Result := mkResult {
  metadata : Metadata;
  items : list Item;
  block_quotes : list BlockQuote
}.

Definition ContentType_eqb (a b : ContentType) : bool :=
  match a, b with
  | STATEMENT, STATEMENT | QUOTATION, QUOTATION
  | BLOCK_QUOTATION, BLOCK_QUOTATION => true
  | _, _ => false
  end.

Definition count_type (t : ContentType) (items : list Item) : nat :=
  List.length (filter (fun item => ContentType_eqb (content_type item) t) items).

Section ProcessBrief.

(** The collaborators: the PDF extractor with its document, which may
    raise; eyecite's [clean_text] and [get_citations]. *)
Variable extract_section_with_blockquotes : str -> str -> Exception + option SectionData.
Variable normalize_text : str -> str.
Variable get_citations : str -> list Cite.

(** The section looked up under "Argument", then under "ARGUMENT". *)
Definition find_argument_section : Exception + option SectionData :=
  match extract_section_with_blockquotes (py "Argument") (py "Prayer") with
  | inl e => inl e
  | inr (Some argument_section) => inr (Some argument_section)
  | inr None => extract_section_with_blockquotes (py "ARGUMENT") (py "PRAYER")
  end.

Definition process_brief : Exception + Result :=
  match find_argument_section with
  | inl e => inl e
  | inr None => inl (ValueError (py "Could not find Argument section in the brief"))
  | inr (Some argument_section) =>
      let raw_text := sec_text argument_section in
      let normalized_text := normalize_text raw_text in
      let items :=
        extract_citations_with_context normalized_text
                                       (get_citations normalized_text) in
      let block_quotes := sec_block_quotes argument_section in
      let items := _link_block_quotes_to_citations items block_quotes in
      inr (mkResult
             (mkMetadata (sec_start_page argument_section)
                         (sec_end_page argument_section)
                         (List.length items)
                         (count_type STATEMENT items)
                         (count_type QUOTATION items)
                         (count_type BLOCK_QUOTATION items)
                         (sec_body_margin argument_section)
                         (sec_para_indent argument_section))
             items block_quotes)
  end.

End ProcessBrief.









End Processor.

(* ===================================================================== *)
(** * pdf_extractor.py: block quotes *)
(* ===================================================================== *)

Module PdfExtractorQuotes.
Import PdfExtractor Processor.

(** The block quote made of the blocks of a run: their texts joined by a
    space, the page of the first and the page of the last.  The run is
    never empty where the code builds one. *)
Definition first_page (blocks : list XBlock) : nat :=
  match blocks with
  | b :: _ => xb_page b
  | [] => 0
  end.

Fixpoint last_page (blocks : list XBlock) : nat :=
  match blocks with
  | [] => 0
  | [b] => xb_page b
  | _ :: rest => last_page rest
  end.

Definition quote_of (current_quote_blocks : list XBlock) : BlockQuote :=
  mkBlockQuote (join (py " ") (map xb_text current_quote_blocks))
               (first_page current_quote_blocks)
               (last_page current_quote_blocks).

(** [if len(current_quote_blocks) >= 2: block_quotes.append(...)]. *)
Definition flush (current_quote_blocks : list XBlock) : list BlockQuote :=
  if 2 <=? List.length current_quote_blocks
  then [quote_of current_quote_blocks] else [].

(** The loop over [all_blocks] of [extract_section_with_blockquotes], with
    the run collected so far, and the last group after it. *)
Fixpoint detect_loop (all_blocks current_quote_blocks : list XBlock)
  : list BlockQuote :=
  match all_blocks with
  | [] => flush current_quote_blocks
  | block :: rest =>
      if is_indented block
      then detect_loop rest (current_quote_blocks ++ [block])
      else flush current_quote_blocks ++ detect_loop rest []
  end.

Definition detect_block_quotes (all_blocks : list XBlock) : list BlockQuote :=
  detect_loop all_blocks [].

End PdfExtractorQuotes.

(* ===================================================================== *)
(** * Notions used to state the invariants *)
(* ===================================================================== *)

Module Invariants.

(** ** citation_analyzer.py *)

(** The number of items that open a new proposition. *)
Definition new_propositions (items : list Analyzer.Item) : nat :=
  List.length (filter (fun item => negb (Analyzer.is_string_cite item)) items).

(** The last proposition is set as soon as the counter is positive. *)
Definition counted (st : Analyzer.LoopState) : Prop :=
  1 <= Analyzer.group_counter st -> truthy (Analyzer.last_proposition st) = true.

(** ** parse_brief.py *)

(** The characters of a text that are not whitespace. *)
Definition non_space (s : str) : str := filter (fun c => negb (isspace c)) s.

(** A text without whitespace at its ends, and not empty. *)
Definition trimmed (s : str) : Prop := strip s = s /\ s <> [].

(** The blocks of a paragraph of [extract_paragraphs]. *)
Definition paragraph_blocks (p : ParseBriefLayout.RawParagraph)
  : list ParseBriefLayout.PBlock :=
  match p with
  | ParseBriefLayout.raw_block_quote blocks => blocks
  | ParseBriefLayout.raw_body blocks => blocks
  end.

(** A block quote is a run of two or more indented blocks; a body
    paragraph is not empty. *)
Definition well_formed_paragraph (bm : option Z)
           (p : ParseBriefLayout.RawParagraph) : Prop :=
  match p with
  | ParseBriefLayout.raw_block_quote blocks =>
      2 <= List.length blocks
      /\ forallb (ParseBriefLayout.indented bm) blocks = true
  | ParseBriefLayout.raw_body blocks => blocks <> []
  end.

(** ** pdf_extractor.py *)

(** A run of [all_blocks]: two or more indented blocks in a row that no
    indented block precedes or follows. *)
Definition indented_run (all_blocks run : list PdfExtractor.XBlock) : Prop :=
  exists before after,
    all_blocks = before ++ run ++ after
    /\ 2 <= List.length run
    /\ forallb PdfExtractor.is_indented run = true
    /\ match after with
       | b :: _ => PdfExtractor.is_indented b = false
       | [] => True
       end
    /\ match rev before with
       | b :: _ => PdfExtractor.is_indented b = false
       | [] => True
       end.

(** ** extract_propositions.py *)

(** The key of an entry of the result, and the kept propositions that
    fall under a key. *)
Definition entry_key (e : Extractor.Consolidated) : str :=
  slice (Extractor.proposition e) 0 200.

Definition kept_under (k : str) (prop : Extractor.Proposition) : bool :=
  negb (Extractor.skipped prop)
  && str_eqb (slice (strip (Extractor.prop_text prop)) 0 200) k.

(** What the table holds once the propositions [seen] are read. *)
Definition table_of (seen : list Extractor.Proposition) (t : Extractor.Table) : Prop :=
  NoDup (map fst t)
  /\ (forall k e, In (k, e) t ->
        k = entry_key e
        /\ Extractor.cons_citations e
           = flat_map Extractor.citations (filter (kept_under k) seen)
        /\ exists first rest,
             filter (kept_under k) seen = first :: rest
             /\ Extractor.proposition e = strip (Extractor.prop_text first)
             /\ Extractor.type e = Extractor.proposition_type first
             /\ Extractor.cons_signal e = Extractor.signal first)
  /\ (forall prop, In prop seen -> Extractor.skipped prop = false ->
        In (slice (strip (Extractor.prop_text prop)) 0 200) (map fst t)).

(** ** parse_brief.py: the records *)

(** What [propagate_cl_records] may change in a citation: the record,
    an empty case name, an empty pin cite, and nothing at all unless the
    citation is a short form or an Id. *)
Definition citation_updated (c c' : ParseBrief.Citation) : Prop :=
  ParseBrief.text c' = ParseBrief.text c
  /\ ParseBrief.volume c' = ParseBrief.volume c
  /\ ParseBrief.reporter c' = ParseBrief.reporter c
  /\ ParseBrief.page c' = ParseBrief.page c
  /\ ParseBrief.cite_type c' = ParseBrief.cite_type c
  /\ ParseBrief.span c' = ParseBrief.span c
  /\ ParseBrief.signal c' = ParseBrief.signal c
  /\ ParseBrief.parenthetical c' = ParseBrief.parenthetical c
  /\ ParseBrief.refers_to c' = ParseBrief.refers_to c
  /\ (truthy (ParseBrief.case_name c) = true ->
      ParseBrief.case_name c' = ParseBrief.case_name c)
  /\ (truthy (ParseBrief.pin_cite c) = true ->
      ParseBrief.pin_cite c' = ParseBrief.pin_cite c)
  /\ (ParseBrief.dict_truthy (ParseBrief.cl_record c) = true ->
      ParseBrief.dict_truthy (ParseBrief.cl_record c') = true)
  /\ (ParseBrief.cite_type c <> ParseBrief.short_case ->
      ParseBrief.cite_type c <> ParseBrief.id_cite -> c' = c).

Definition sentence_updated (s s' : ParseBrief.Sentence) : Prop :=
  ParseBrief.sent_text s' = ParseBrief.sent_text s
  /\ Forall2 citation_updated (ParseBrief.sent_citations s)
             (ParseBrief.sent_citations s').

Definition paragraph_updated (p p' : ParseBrief.Paragraph) : Prop :=
  match p, p' with
  | ParseBrief.BlockQuotePara i t cs, ParseBrief.BlockQuotePara i' t' cs' =>
      i' = i /\ t' = t /\ Forall2 citation_updated cs cs'
  | ParseBrief.BodyPara ss, ParseBrief.BodyPara ss' =>
      Forall2 sentence_updated ss ss'
  | _, _ => False
  end.

(** The citations of the parsed argument in reading order. *)
Definition citations_of (p : ParseBrief.Paragraph) : list ParseBrief.Citation :=
  match p with
  | ParseBrief.BlockQuotePara _ _ cs => cs
  | ParseBrief.BodyPara ss => flat_map ParseBrief.sent_citations ss
  end.

Definition all_citations (paragraphs : list ParseBrief.Paragraph)
  : list ParseBrief.Citation :=
  flat_map citations_of paragraphs.

(** The record of each citation of [outs] is the one it had in [ins] or
    the record of a citation that comes before it, [seen] being the
    citations before [ins]. *)
Fixpoint records_from_earlier (seen ins outs : list ParseBrief.Citation) : Prop :=
  match ins, outs with
  | [], [] => True
  | c :: ins', c' :: outs' =>
      (ParseBrief.cl_record c' = ParseBrief.cl_record c
       \/ In (ParseBrief.cl_record c') (map ParseBrief.cl_record seen))
      /\ records_from_earlier (seen ++ [c]) ins' outs'
  | _, _ => False
  end.

(** The records held by the state of the resolver are records of [seen]. *)
Definition state_from (seen : list ParseBrief.Citation)
           (st : ParseBrief.PropagateState) : Prop :=
  (forall k f, In (k, f) (ParseBrief.full_cites_by_key st) ->
               In (ParseBrief.cl_record f) (map ParseBrief.cl_record seen))
  /\ (forall l, ParseBrief.last_cite st = Some l ->
                In (ParseBrief.cl_record l) (map ParseBrief.cl_record seen)).

(** A citation that does not replace the full citation stored under
    [key]. *)
Definition keeps_key (key : str) (c : ParseBrief.Citation) : bool :=
  negb (ParseBrief.CiteType_eqb (ParseBrief.cite_type c) ParseBrief.full_case
        && match ParseBrief.cite_key (ParseBrief.volume c) (ParseBrief.reporter c) with
           | Some k => str_eqb k key
           | None => false
           end).

(** A short form of the Smith citation, page 9000 of the same volume. *)
Definition smith_short : ParseBrief.Citation :=
  ParseBrief.mkCitation (py "Smith, 184 S.W.3d at 9000") None
    (Some (py "184")) (Some (py "S.W.3d")) (Some (py "9000")) None
    ParseBrief.short_case (60, 85) None None None None.

(** The record after the step is the citation's own or one of [seen]. *)
Definition record_from (seen : list ParseBrief.Citation)
           (c c' : ParseBrief.Citation) : Prop :=
  ParseBrief.cl_record c' = ParseBrief.cl_record c
  \/ In (ParseBrief.cl_record c') (map ParseBrief.cl_record seen).

(** ** citation_analyzer.py: quotations and signals *)

Definition no_quote_mark (s : str) : bool :=
  forallb (fun c => negb (Analyzer.is_quote_mark c)) s.

(** A quotation of [text]: its positions delimit an opening mark, the
    quoted characters, which are not marks and not none, and a closing
    mark. *)
Definition quotation_in (text : str) (q : Analyzer.Quotation) : Prop :=
  Analyzer.q_text q <> []
  /\ no_quote_mark (Analyzer.q_text q) = true
  /\ Analyzer.q_end q = Analyzer.q_start q + len (Analyzer.q_text q) + 2
  /\ exists a b,
       Analyzer.is_quote_mark a = true /\ Analyzer.is_quote_mark b = true
       /\ slice text (Analyzer.q_start q) (Analyzer.q_end q)
          = a :: Analyzer.q_text q ++ [b].

(** Quotations in order, none starting before [i] or before the end of
    the one before it. *)
Fixpoint ordered_from (i : nat) (l : list Analyzer.Quotation) : Prop :=
  match l with
  | [] => True
  | q :: l' => i <= Analyzer.q_start q /\ ordered_from (Analyzer.q_end q) l'
  end.

(** What the scan has read, [open] being the pending opening mark. *)
Definition scan_state (pre : str) (open : option (nat * str)) : Prop :=
  match open with
  | None => True
  | Some (start, run) =>
      exists pre0 a,
        pre = pre0 ++ a :: rev run /\ len pre0 = start
        /\ Analyzer.is_quote_mark a = true /\ no_quote_mark run = true
  end.

Definition scan_from (pre : str) (open : option (nat * str)) : nat :=
  match open with
  | None => len pre
  | Some (start, _) => start
  end.

(** ** brief_processor.py *)

(** The content type of an item agrees with what the item holds. *)
Definition coherent (item : Analyzer.Item) : Prop :=
  Analyzer.has_quotation item = (0 <? List.length (Analyzer.quotations item))
  /\ match Analyzer.content_type item with
     | Analyzer.STATEMENT =>
         Analyzer.quotations item = [] /\ Analyzer.block_quote item = None
     | Analyzer.QUOTATION =>
         Analyzer.quotations item <> [] /\ Analyzer.block_quote item = None
     | Analyzer.BLOCK_QUOTATION =>
         Analyzer.quotations item = [] /\ Analyzer.block_quote item <> None
     end.

Definition is_linked (item : Analyzer.Item) : bool :=
  match Analyzer.block_quote item with Some _ => true | None => false end.

(** ** parse_brief.py and extract_propositions.py: parentheticals *)

(** The nesting depth after [s], read from depth [depth]; [None] when a
    close parenthesis has no open one before it. *)
Fixpoint depth_after (s : str) (depth : nat) : option nat :=
  match s with
  | [] => Some depth
  | c :: s' =>
      if (c =? 40)%N then depth_after s' (S depth)
      else if (c =? 41)%N then
        match depth with
        | O => None
        | S d => depth_after s' d
        end
      else depth_after s' depth
  end.

Definition balanced (s : str) : Prop := depth_after s 0 = Some 0.

(** A proposition of [extract_propositions] that is well formed, its
    citations being among [cited]. *)
Definition well_formed_proposition (cited : list ParseBrief.Citation)
           (p : ParseBrief.Proposition) : Prop :=
  ParseBrief.prop_citations p <> []
  /\ incl (ParseBrief.prop_citations p) cited
  /\ ParseBrief.prop_type p <> ParseBrief.no_type
  /\ (ParseBrief.prop_type p <> ParseBrief.block_quote ->
      ParseBrief.prop_text p <> []).

(** ** Margins *)

(** The number of substantial blocks whose left edge rounds to [k]. *)
Definition position_count (blocks : list Layout.Block) (k : Z) : nat :=
  List.length
    (filter (fun b => Layout.substantial b
                      && (Layout.round (Layout.x0 b) =? k)%Z) blocks).

(** [c[k]] on a [Counter], 0 for a missing key. *)
Fixpoint counter_get (c : Layout.Counter) (k : Z) : nat :=
  match c with
  | [] => 0
  | (k', n) :: c' => if (k =? k')%Z then n else counter_get c' k
  end.

(** The counter holds the counts of the blocks read. *)
Definition counts_of (seen : list Layout.Block) (c : Layout.Counter) : Prop :=
  NoDup (map fst c)
  /\ (forall k, counter_get c k = position_count seen k)
  /\ (forall k, In k (map fst c) -> 0 < position_count seen k).

(** What [calculate_margins] leaves in [r], from [m]. *)
Definition margins_from_counts (offset : Z) (m r : Layout.Margins)
           (blocks : list Layout.Block) : Prop :=
  (r = m /\ forallb (fun b => negb (Layout.substantial b)) blocks = true)
  \/ exists body : Z,
       Layout.body_margin r = Some body
       /\ 0 < position_count blocks body
       /\ ((Layout.indent_margin r = Some (body + offset)%Z
            /\ forall k, k <> body -> position_count blocks k = 0)
           \/ exists indent : Z,
                Layout.indent_margin r = Some indent
                /\ (body < indent)%Z
                /\ 0 < position_count blocks indent
                /\ forall k, k <> body -> k <> indent ->
                     position_count blocks k <= position_count blocks body
                     /\ position_count blocks k <= position_count blocks indent).

(** ** parse_brief.py: an example *)


End Invariants.

(* ===================================================================== *)
(** * Properties *)
(* ===================================================================== *)

Section SentenceSegmentation.
Import ParseBrief.

(** C6. [segment_sentences] splits the Smith v. State string into exactly
    two sentences; the periods of "S.W.3d" (positions 25 and 27) and of
    "Tex." (position 39) are periods of the text and none of them closes a
    sentence. *)
Theorem segment_sentences_smith :
  segment_sentences smith_text
  = [ py "See Smith v. State, 123 S.W.3d 456 (Tex. 2020).";
      py "The court erred." ]
  /\ List.length (segment_sentences smith_text) = 2
  /\ slice smith_text 24 30 = py "S.W.3d"
  /\ slice smith_text 36 40 = py "Tex."
  /\ sentence_break smith_text 25 = false
  /\ sentence_break smith_text 27 = false
  /\ sentence_break smith_text 39 = false.
Proof. repeat split; vm_compute; reflexivity. Qed.

End SentenceSegmentation.

(* --------------------------------------------------------------------- *)
(** ** Id. citations and the 500-page window *)
(* --------------------------------------------------------------------- *)

Section IdResolution.
Import ParseBrief.

Lemma search_digits_nonempty (s m : str) :
  search_digits s = Some m -> nonempty s = true.
Proof. destruct s; simpl; [discriminate | reflexivity]. Qed.

(** The pin-cite test is exactly the window [start_page, start_page + 500]
    once the pin cite holds a number. *)
Lemma is_valid_pin_cite_window (pin m : str) (p start_page : Z) :
  search_digits pin = Some m -> int m = Some p ->
  is_valid_pin_cite pin start_page
  = ((start_page <=? p)%Z && (p <=? start_page + 500)%Z).
Proof.
  intros Hs Hi. unfold is_valid_pin_cite.
  rewrite (search_digits_nonempty _ Hs), Hs, Hi. simpl.
  destruct (p <? start_page)%Z eqn:E1; destruct (p >? start_page + 500)%Z eqn:E2;
    destruct (start_page <=? p)%Z eqn:E3;
    destruct (p <=? start_page + 500)%Z eqn:E4; try reflexivity; lia.
Qed.

(** What an Id. citation becomes after [last], whose record [r] starts at
    [start_page], when its effective pin cite names page [p]. *)
Lemma process_id_citation (st : PropagateState) (c last : Citation)
      (r : dict) (pin m : str) (p start_page : Z) :
  cite_type c = id_cite ->
  last_cite st = Some last -> cl_record last = Some r -> r <> [] ->
  get_start_page r = Some start_page -> start_page <> 0%Z ->
  or_else (pin_cite c) (last_pin_cite st) = Some pin ->
  search_digits pin = Some m -> int m = Some p ->
  let c' := snd (process_citation st c) in
  ((start_page <= p <= start_page + 500)%Z ->
     cl_record c' = Some r
     /\ case_name c' = or_else (case_name c) (case_name last))
  /\ ((p < start_page \/ start_page + 500 < p)%Z -> c' = c).
Proof.
  intros Ht Hl Hr Hne Hsp Hnz Hpin Hs Hi.
  unfold process_citation. rewrite Ht, Hl, Hr.
  destruct r as [|kv r']; [congruence|].
  rewrite Hsp, Hpin. cbn [int_truthy truthy].
  replace (negb (start_page =? 0)%Z) with true
    by (symmetry; apply negb_true_iff, Z.eqb_neq; exact Hnz).
  rewrite (search_digits_nonempty _ Hs). cbn [andb].
  rewrite (is_valid_pin_cite_window _ _ Hs Hi).
  split.
  - intros [H1 H2].
    replace (start_page <=? p)%Z with true by (symmetry; apply Z.leb_le; lia).
    replace (p <=? start_page + 500)%Z with true by (symmetry; apply Z.leb_le; lia).
    cbn [andb snd].
    destruct (negb (truthy (pin_cite c)) && true); split; reflexivity.
  - intros H.
    replace ((start_page <=? p)%Z && (p <=? start_page + 500)%Z) with false.
    + reflexivity.
    + symmetry. apply andb_false_iff.
      destruct H; [left; apply Z.leb_gt | right; apply Z.leb_gt]; lia.
Qed.

(** C2. After a full citation whose external record starts at page 100, an
    Id. citation whose effective pin cite is page 105 takes the record and
    the case name of that citation; one whose effective pin cite is page
    900 is left as it was, so with no case name and no record when it had
    none. *)
Theorem id_inherits_within_500_pages
        (st : PropagateState) (c full : Citation) (r : dict) (pin m : str) :
  cite_type full = full_case ->
  last_cite st = Some full -> cl_record full = Some r -> r <> [] ->
  get_start_page r = Some 100%Z ->
  cite_type c = id_cite -> case_name c = None -> cl_record c = None ->
  or_else (pin_cite c) (last_pin_cite st) = Some pin ->
  search_digits pin = Some m ->
  let c' := snd (process_citation st c) in
  (int m = Some 105%Z ->
     cl_record c' = Some r /\ case_name c' = case_name full)
  /\ (int m = Some 900%Z ->
     cl_record c' = None /\ case_name c' = None /\ c' = c).
Proof.
  intros _ Hl Hr Hne Hsp Ht Hcn Hcr Hpin Hs c'. subst c'. split; intros Hi.
  - destruct (process_id_citation st c Ht Hl Hr Hne Hsp
                ltac:(discriminate) Hpin Hs Hi) as [Hin _].
    destruct Hin as [H1 H2]; [lia|]. split; [exact H1|].
    rewrite H2, Hcn. reflexivity.
  - destruct (process_id_citation st c Ht Hl Hr Hne Hsp
                ltac:(discriminate) Hpin Hs Hi) as [_ Hout].
    rewrite Hout by lia. auto.
Qed.

(** The specification's run: the full citation, "Id. at 105." and
    "Id. at 900." in this order. *)
Lemma id_inherits_within_500_pages_witness :
  let st := fst (process_citation initial_state smith_full) in
  let c1 := id_at "at 105" in
  let st1 := fst (process_citation st c1) in
  let c2 := id_at "at 900" in
  (cl_record (snd (process_citation st c1)) = Some smith_record
   /\ case_name (snd (process_citation st c1)) = Some (py "Smith v. State"))
  /\ (cl_record (snd (process_citation st1 c2)) = None
      /\ case_name (snd (process_citation st1 c2)) = None)
  /\ snd (process_citations initial_state [smith_full; c1; c2])
     = [smith_full;
        set_case_name (set_cl_record c1 (Some smith_record))
                      (Some (py "Smith v. State"));
        c2].
Proof.
  intros st c1 st1 c2. split; [|split].
  - apply (@id_inherits_within_500_pages st c1 smith_full smith_record
             (py "at 105") (py "105"));
      try reflexivity; discriminate.
  - assert (H := @id_inherits_within_500_pages st1 c2 smith_full smith_record
             (py "at 900") (py "900")).
    cbv zeta in H.
    destruct H as [_ H]; try reflexivity; try discriminate.
    destruct (H eq_refl) as (H1 & H2 & _). split; assumption.
  - vm_compute. reflexivity.
Defined.

End IdResolution.

(* --------------------------------------------------------------------- *)
(** ** Parenthetical propositions *)
(* --------------------------------------------------------------------- *)

Section ParentheticalPropositions.
Import ParseBrief.




Lemma quote_or_statement_cases (t : str) :
  quote_or_statement t = statement \/ quote_or_statement t = quote.
Proof. unfold quote_or_statement. destruct (_has_quotation t); auto. Qed.

(** A proposition text comes with the type statement or quote. *)
Lemma extracted_type (sent_text : str) (cs : list Citation)
      (prev : option str) (t : str) (ty : PropType) :
  _extract_proposition_from_sentence sent_text cs prev = (Some t, ty) ->
  ty = statement \/ ty = quote.
Proof.
  unfold _extract_proposition_from_sentence.
  destruct cs as [|c0 cs]; [discriminate|].
  repeat match goal with
         | |- context [if ?b then _ else _] => destruct b
         end;
    intros H; inversion H; subst;
    auto using quote_or_statement_cases; discriminate.
Qed.




End ParentheticalPropositions.


(* --------------------------------------------------------------------- *)
(** ** Margins *)
(* --------------------------------------------------------------------- *)

Section Margins.
Import Layout ParseBriefLayout.

Lemma take_indented_length (bm : option Z) (l : list PBlock) :
  List.length (snd (take_indented bm l)) <= List.length l.
Proof.
  induction l as [|b l IH]; simpl; [lia|].
  destruct (indented bm b); simpl; [|lia].
  destruct (take_indented bm l); simpl in *; lia.
Qed.

Lemma collect_body_length (bm : option Z) (l : list PBlock) :
  List.length (snd (collect_body bm l)) <= List.length l.
Proof.
  induction l as [|b l IH]; simpl; [lia|].
  destruct (indented bm b && is_block_quote bm l); simpl; [lia|].
  destruct (collect_body bm l); simpl in *; lia.
Qed.

(** The second pass ends: fuel above the number of blocks gives a result. *)
Lemma second_pass_total (fuel : nat) (bm : option Z) (l : list PBlock) :
  List.length l < fuel -> exists ps, second_pass fuel bm l = Some ps.
Proof.
  revert l. induction fuel as [|fuel IH]; intros l Hlen; [lia|].
  destruct l as [|block after]; [eexists; reflexivity|].
  cbn [second_pass].
  assert (Hbody : exists ps,
             (let '(body_blocks, rest) := collect_body bm after in
              option_map (cons (raw_body (block :: body_blocks)))
                         (second_pass fuel bm rest)) = Some ps).
  { pose proof (collect_body_length bm after) as Hc.
    destruct (collect_body bm after) as [bs rest]. cbn [snd] in Hc.
    destruct (IH rest) as [ps Hps]; [simpl in Hlen; lia|].
    rewrite Hps. eexists; reflexivity. }
  destruct (indented bm block); [|exact Hbody].
  pose proof (take_indented_length bm after) as Ht.
  destruct (take_indented bm after) as [qs rest]. cbn [snd] in Ht.
  destruct (2 <=? List.length (block :: qs)); [|exact Hbody].
  destruct (IH rest) as [ps Hps]; [simpl in Hlen; lia|].
  rewrite Hps. eexists; reflexivity.
Qed.

Lemma most_common_single (k : Z) (n : nat) : most_common 3 [(k, n)] = [(k, n)].
Proof. reflexivity. Qed.

(** C7 (as the code has it). When the blocks of the section give fewer
    than two margin clusters: with exactly one cluster, parse_brief.py sets
    the body margin to it and the block indent to it plus 36; with none,
    the margins stay as they were; in both cases the paragraph
    segmentation returns its paragraphs. *)
Theorem single_margin_fallback
        (m : Margins) (counted : list Block) (pages : list (nat * list Block)) :
  List.length (x0_counts counted) < 2 ->
  ((exists k n, x0_counts counted = [(k, n)]
                /\ _calculate_margins m counted
                   = mkMargins (Some k) (Some (k + 36)%Z))
   \/ (x0_counts counted = [] /\ _calculate_margins m counted = m))
  /\ exists paragraphs, extract_paragraphs m counted pages = Some paragraphs.
Proof.
  intros Hlen. split.
  - unfold _calculate_margins, calculate_margins.
    destruct (x0_counts counted) as [|[k n] [|kn rest]] eqn:E.
    + right. split; reflexivity.
    + left. exists k, n. split; reflexivity.
    + simpl in Hlen. lia.
  - unfold extract_paragraphs. apply second_pass_total. lia.
Qed.

Lemma single_margin_fallback_witness :
  _calculate_margins no_margins [long_block; short_block]
  = mkMargins (Some 72%Z) (Some 108%Z)
  /\ exists paragraphs,
      extract_paragraphs no_margins [long_block; short_block]
                         [(0, [short_block; long_block])] = Some paragraphs.
Proof.
  destruct (@single_margin_fallback no_margins [long_block; short_block]
              [(0, [short_block; long_block])]) as [_ H].
  - vm_compute. lia.
  - split; [vm_compute; reflexivity | exact H].
Defined.

(** C7 fails as worded: when no block is long enough to be counted there
    is no margin at all, and no indent margin 36pt past it. *)
Lemma no_cluster_no_fallback : ~ fallback_to_single_margin.
Proof.
  intros H. destruct (H no_margins [short_block]) as (margin & Hb & _).
  - vm_compute. lia.
  - vm_compute in Hb. discriminate.
Qed.

(** In pdf_extractor.py the offset of the single-margin case is 20. *)
Lemma pdf_extractor_single_margin (m : Margins) (blocks : list Block) (k : Z) (n : nat) :
  x0_counts blocks = [(k, n)] ->
  PdfExtractor._calculate_margins m blocks = mkMargins (Some k) (Some (k + 20)%Z).
Proof.
  intros E. unfold PdfExtractor._calculate_margins, calculate_margins.
  rewrite E. reflexivity.
Qed.

(** With no margin, pdf_extractor.py raises at the first text block. *)
Lemma pdf_extractor_raises_without_margin
      (outside : Block -> bool) (page_num : nat) (b : Block) (rest : list Block) :
  block_type b = 0%Z -> nonempty (strip (block_text b)) = true ->
  PdfExtractor.collect_blocks None outside page_num (b :: rest)
  = inl PdfExtractor.TypeError.
Proof.
  intros Ht Hn. cbn [PdfExtractor.collect_blocks]. rewrite Ht, Hn. reflexivity.
Qed.

End Margins.




(* --------------------------------------------------------------------- *)
(** ** Citations with their context *)
(* --------------------------------------------------------------------- *)

Section CitationContext.
Import Analyzer.

(** What one turn of the loop records about signal and parenthetical. *)
Lemma step_review (text : str) (st : LoopState) (cite : Cite) :
  let info := citation (snd (step text st cite)) in
  (needs_review info = true
   <-> signal info <> None /\ parenthetical info = None)
  /\ parenthetical info = _find_parenthetical_after text (cit_end info)
  /\ exists actual_start,
      signal info
      = snd (clean_preceding (slice text actual_start (cit_start info))).
Proof.
  unfold step.
  destruct (_get_full_citation_span cite text) as [start_pos end_pos].
  unfold raw_preceding.
  set (actual_start := Nat.max (last_end st) (_find_sentence_start text start_pos)).
  destruct (clean_preceding (slice text actual_start start_pos))
    as [pt sg] eqn:Ecp.
  destruct (attribute pt (last_proposition st) (group_counter st))
    as [[[t sc] lp] g].
  cbn [snd citation needs_review signal parenthetical cit_end cit_start].
  split; [|split].
  - destruct sg; destruct (_find_parenthetical_after text end_pos);
      split; try discriminate; try (intros [H1 H2]; congruence);
      intros _; split; congruence.
  - reflexivity.
  - exists actual_start. rewrite Ecp. reflexivity.
Qed.

Lemma citations_loop_items (text : str) (found : list Cite) (item : Item) :
  forall st, In item (citations_loop text st found) ->
             exists st' cite, item = snd (step text st' cite).
Proof.
  induction found as [|cite rest IH]; intros st Hin; simpl in Hin.
  - destruct Hin.
  - destruct (step text st cite) as [st1 result] eqn:E. destruct Hin as [H|H].
    + exists st, cite. rewrite E. symmetry. exact H.
    + eapply IH; eauto.
Qed.

(** C1. For every citation the extractor emits, [needs_review] is true
    exactly when a signal was found at the end of the text before the
    citation's span and no parenthetical was found after the span. *)
Theorem needs_review_iff_signal_without_parenthetical
        (text : str) (found_citations : list Cite) (item : Item) :
  In item (extract_citations_with_context text found_citations) ->
  (needs_review (citation item) = true
   <-> signal (citation item) <> None /\ parenthetical (citation item) = None)
  /\ parenthetical (citation item)
     = _find_parenthetical_after text (cit_end (citation item))
  /\ exists actual_start,
      signal (citation item)
      = snd (clean_preceding
               (slice text actual_start (cit_start (citation item)))).
Proof.
  intros Hin. apply citations_loop_items in Hin.
  destruct Hin as (st & cite & ->). apply step_review.
Qed.

Lemma needs_review_iff_signal_without_parenthetical_witness :
  In see_item (extract_citations_with_context see_text [see_cite])
  /\ signal (citation see_item) = Some (py "see")
  /\ parenthetical (citation see_item) = None
  /\ needs_review (citation see_item) = true.
Proof.
  assert (Hin : In see_item (extract_citations_with_context see_text [see_cite])).
  { vm_compute. left. reflexivity. }
  destruct (@needs_review_iff_signal_without_parenthetical
              see_text [see_cite] see_item Hin) as [[_ H] _].
  split; [exact Hin|]. split; [vm_compute; reflexivity|].
  split; [vm_compute; reflexivity|].
  apply H. split; [vm_compute; discriminate | vm_compute; reflexivity].
Defined.

(** C3. Three citations in a row whose preceding raw texts are "The rule
    is clear.", ";" and "; and" get the same proposition text, "The rule is
    clear.", and the same group: the counter goes up by one at the first
    and stays there at the second and third.  So it is in the run of the
    extractor on a text with these three citations. *)
Theorem string_cite_grouping (last_proposition : option str) (group : nat) :
  let '(t1, s1, lp1, g1) :=
    attribute (fst (clean_preceding (py "The rule is clear.")))
              last_proposition group in
  let '(t2, s2, lp2, g2) := attribute (fst (clean_preceding (py ";"))) lp1 g1 in
  let '(t3, s3, lp3, g3) := attribute (fst (clean_preceding (py "; and"))) lp2 g2 in
  (t1 = rule_clear /\ t2 = rule_clear /\ t3 = rule_clear)
  /\ (g1 = group + 1 /\ g2 = g1 /\ g3 = g1)
  /\ (s1 = false /\ s2 = true /\ s3 = true)
  /\ map (fun item => (preceding_text item, string_cite_group item))
         (extract_citations_with_context rule_text rule_cites)
     = [(rule_clear, 1); (rule_clear, 1); (rule_clear, 1)]
  /\ map strip (raw_texts rule_text start_state rule_cites)
     = [ py "The rule is clear."; py ";"; py "; and" ].
Proof.
  replace (fst (clean_preceding (py "The rule is clear."))) with rule_clear
    by (vm_compute; reflexivity).
  replace (fst (clean_preceding (py ";"))) with (@nil char)
    by (vm_compute; reflexivity).
  replace (fst (clean_preceding (py "; and"))) with (py "and")
    by (vm_compute; reflexivity).
  unfold attribute.
  replace (strip_chars (py ";,. " ++ [9%N; 10%N]) rule_clear)
    with (py "The rule is clear") by (vm_compute; reflexivity).
  replace (strip_chars (py ";,. " ++ [9%N; 10%N]) []) with (@nil char)
    by (vm_compute; reflexivity).
  replace (strip_chars (py ";,. " ++ [9%N; 10%N]) (py "and")) with (py "and")
    by (vm_compute; reflexivity).
  replace (negb (nonempty (py "The rule is clear"))
           || str_in (py "The rule is clear") CONNECTORS) with false
    by (vm_compute; reflexivity).
  replace (negb (nonempty []) || str_in [] CONNECTORS) with true
    by (vm_compute; reflexivity).
  replace (negb (nonempty (py "and")) || str_in (py "and") CONNECTORS) with true
    by (vm_compute; reflexivity).
  replace (truthy (Some rule_clear)) with true by (vm_compute; reflexivity).
  repeat split; vm_compute; reflexivity.
Qed.

End CitationContext.

(* --------------------------------------------------------------------- *)
(** ** Block quotes *)
(* --------------------------------------------------------------------- *)

Section BlockQuotes.
Import Analyzer Processor.

Lemma link_item_first (item : Item) (pn : str) (bqs : list BlockQuote) :
  link_item item pn bqs
  = match List.find (fun bq => contains pn (bq_identifier (bq_text bq))) bqs with
    | Some bq => linked item pn bq
    | None => item
    end.
Proof.
  induction bqs as [|bq rest IH]; simpl; [reflexivity|].
  destruct (contains pn (bq_identifier (bq_text bq))); [reflexivity | exact IH].
Qed.




End BlockQuotes.

(* --------------------------------------------------------------------- *)
(** ** A brief without an Argument section *)
(* --------------------------------------------------------------------- *)

Section MissingSection.
Import Analyzer Processor.

Variable extract_section_with_blockquotes : str -> str -> Exception + option SectionData.
Variable normalize_text : str -> str.
Variable get_citations : str -> list Cite.

(** A result means that a section was found, and its items come from that
    section's text. *)
Lemma process_brief_result (r : Result) :
  process_brief extract_section_with_blockquotes normalize_text get_citations
  = inr r ->
  exists argument_section,
    find_argument_section extract_section_with_blockquotes
    = inr (Some argument_section)
    /\ block_quotes r = sec_block_quotes argument_section
    /\ total_citations (metadata r) = List.length (items r).
Proof.
  unfold process_brief.
  destruct (find_argument_section extract_section_with_blockquotes)
    as [e|[sec|]]; try discriminate.
  intros H. injection H as <-. exists sec. repeat split.
Qed.


(** parse_brief.py does not raise: without a section,
    [parse_argument_section] returns the dict that holds the error message
    only, from which no paragraph and no proposition comes. *)
Lemma parse_argument_section_error
      (SectionInfo : Type)
      (find_section find_section_by_prefix : str -> list str -> option SectionInfo)
      (section_pages : SectionInfo -> nat * nat)
      (process_paragraphs : SectionInfo -> list ParseBrief.Paragraph) :
  (forall start, find_section start ParseBriefSection.END_HEADINGS = None) ->
  find_section_by_prefix (py "Argument") ParseBriefSection.END_HEADINGS = None ->
  let parsed := ParseBriefSection.parse_argument_section
                  find_section find_section_by_prefix
                  section_pages process_paragraphs in
  parsed = ParseBriefSection.error_dict (py "Could not find Argument section")
  /\ ParseBrief.extract_propositions (ParseBriefSection.paragraphs_of parsed) = [].
Proof.
  intros Hnone Hprefix parsed. subst parsed.
  unfold ParseBriefSection.parse_argument_section.
  cbn [ParseBriefSection.first_section ParseBriefSection.START_HEADINGS map].
  rewrite !Hnone, Hprefix. split; reflexivity.
Qed.

End MissingSection.


(* --------------------------------------------------------------------- *)
(** ** Consolidation *)
(* --------------------------------------------------------------------- *)

Section Consolidation.
Import Extractor.

Lemma consolidate_step_skipped (t : Table) (prop : Proposition) :
  skipped prop = true -> consolidate_step t prop = t.
Proof. unfold skipped, consolidate_step. intros ->. reflexivity. Qed.

Lemma entry_from_incl (props props' : list Proposition) (e : Consolidated) :
  incl props props' -> entry_from props e -> entry_from props' e.
Proof.
  intros Hincl [(q & Hq & Hs & He) Hc]. split.
  - exists q. auto.
  - intros c Hin. destruct (Hc c Hin) as (q' & Hq' & Hs' & Hc').
    exists q'. auto.
Qed.

Lemma add_proposition_from (props : list Proposition) (prop : Proposition)
      (key : str) (t : Table) :
  In prop props -> skipped prop = false ->
  Forall (fun ke => entry_from props (snd ke)) t ->
  Forall (fun ke => entry_from props (snd ke))
         (add_proposition key (strip (prop_text prop)) prop t).
Proof.
  intros Hin Hs. induction t as [|[k e] t IH]; intros Ht; simpl.
  - constructor; [|constructor]. split.
    + exists prop. auto.
    + intros c Hc. exists prop. auto.
  - inversion Ht as [|? ? He Ht']; subst.
    destruct (str_eqb k key).
    + constructor; [|exact Ht']. destruct He as [He1 He2]. split.
      * exact He1.
      * cbn [snd cons_citations]. intros c Hc.
        apply in_app_or in Hc. destruct Hc as [Hc|Hc].
        -- apply He2. exact Hc.
        -- exists prop. auto.
    + constructor; [exact He | apply IH; exact Ht'].
Qed.

Lemma consolidate_step_from (props : list Proposition) (prop : Proposition)
      (t : Table) :
  In prop props ->
  Forall (fun ke => entry_from props (snd ke)) t ->
  Forall (fun ke => entry_from props (snd ke)) (consolidate_step t prop).
Proof.
  intros Hin Ht. destruct (skipped prop) eqn:Hs.
  - rewrite consolidate_step_skipped by exact Hs. exact Ht.
  - unfold consolidate_step. unfold skipped in Hs. rewrite Hs.
    apply add_proposition_from; auto.
Qed.

Lemma fold_consolidate_from (all : list Proposition) :
  forall (props : list Proposition) (t : Table),
    incl props all ->
    Forall (fun ke => entry_from all (snd ke)) t ->
    Forall (fun ke => entry_from all (snd ke)) (fold_left consolidate_step props t).
Proof.
  induction props as [|p props IH]; intros t Hincl Ht; simpl; [exact Ht|].
  apply IH.
  - intros x Hx. apply Hincl. right. exact Hx.
  - apply consolidate_step_from; [apply Hincl; left; reflexivity | exact Ht].
Qed.

(** Every entry of the result comes from propositions that were kept. *)
Lemma consolidated_from_kept (props : list Proposition) (e : Consolidated) :
  In e (consolidate_propositions props) -> entry_from props e.
Proof.
  unfold consolidate_propositions. intros Hin.
  apply in_map_iff in Hin. destruct Hin as ([k e'] & <- & Hin).
  pose proof (@fold_consolidate_from props props [] (incl_refl _) (Forall_nil _)) as H.
  rewrite Forall_forall in H. exact (H _ Hin).
Qed.

(** C10. A proposition whose stripped text is empty or shorter than ten
    characters is left out: the result is the one obtained without it, no
    entry of the result has its text, and every citation of the result is
    a citation of another proposition, one that was kept. *)
Theorem short_proposition_omitted
        (before after : list Proposition) (prop : Proposition) :
  strip (prop_text prop) = [] \/ len (strip (prop_text prop)) < 10 ->
  consolidate_propositions (before ++ prop :: after)
  = consolidate_propositions (before ++ after)
  /\ forall e, In e (consolidate_propositions (before ++ prop :: after)) ->
       proposition e <> strip (prop_text prop)
       /\ forall c, In c (cons_citations e) ->
            exists q, In q (before ++ after) /\ skipped q = false
                      /\ In c (citations q).
Proof.
  intros Hshort.
  assert (Hs : skipped prop = true).
  { unfold skipped. destruct Hshort as [-> | Hlt]; [reflexivity|].
    apply orb_true_iff. right. apply Nat.ltb_lt. exact Hlt. }
  assert (Heq : consolidate_propositions (before ++ prop :: after)
                = consolidate_propositions (before ++ after)).
  { unfold consolidate_propositions. rewrite !fold_left_app. cbn [fold_left].
    rewrite consolidate_step_skipped by exact Hs. reflexivity. }
  split; [exact Heq|].
  intros e He. rewrite Heq in He.
  destruct (consolidated_from_kept _ _ He) as [(q & Hq & Hqs & Hqe) Hc].
  split; [|exact Hc].
  intros Habs. rewrite Hqe in Habs.
  unfold skipped in Hs, Hqs. rewrite Habs in Hqs. congruence.
Qed.

Lemma short_proposition_omitted_witness :
  consolidate_propositions [rule; fragment] = consolidate_propositions [rule]
  /\ map cons_citations (consolidate_propositions [rule; fragment])
     = [[smith_citation]].
Proof.
  destruct (@short_proposition_omitted [rule] [] fragment) as [H _].
  - right. vm_compute. lia.
  - split; [exact H | vm_compute; reflexivity].
Defined.

End Consolidation.


(* --------------------------------------------------------------------- *)
(** ** The parenthetical after a citation *)
(* --------------------------------------------------------------------- *)

Section ParentheticalDetectors.
Import Detectors.










Lemma close_paren_done (s : str) (i : nat) : ParseBrief.close_paren s i 0 = (0, i).
Proof. destruct s; reflexivity. Qed.




Lemma match_open_paren_spec (s : str) :
  forall i e, ParseBrief.match_open_paren s i = Some e ->
    exists ws rest, s = ws ++ 40%N :: rest
                    /\ forallb isspace ws = true /\ e = i + len ws + 1.
Proof.
  induction s as [|c s IH]; intros i e H; cbn [ParseBrief.match_open_paren] in H;
    [discriminate|].
  destruct (isspace c) eqn:Hc.
  - destruct (IH (S i) e H) as (ws & rest & -> & Hws & ->).
    exists (c :: ws), rest. cbn [forallb app len List.length]. rewrite Hc, Hws.
    repeat split. unfold len. lia.
  - destruct (c =? 40)%N eqn:Hp; [|discriminate].
    apply N.eqb_eq in Hp. subst c. injection H as <-.
    exists [], s. repeat split. cbn. lia.
Qed.

Lemma lstrip_by_spec (p : char -> bool) (s : str) :
  exists ws, s = ws ++ lstrip_by p s /\ forallb p ws = true.
Proof.
  induction s as [|c s (ws & Hs & Hws)]; cbn [lstrip_by].
  - exists []. split; reflexivity.
  - destruct (p c) eqn:Hc.
    + exists (c :: ws). cbn [app forallb]. rewrite Hc, Hws, <- Hs.
      split; reflexivity.
    + exists []. split; reflexivity.
Qed.









End ParentheticalDetectors.

(* ===================================================================== *)
(** * Further properties of the code *)
(* ===================================================================== *)

(* --------------------------------------------------------------------- *)
(** ** String-cite groups *)
(* --------------------------------------------------------------------- *)

Section StringCiteGroups.
Import Analyzer Invariants.

Lemma strip_by_nonempty (p : char -> bool) (s : str) :
  nonempty (strip_by p s) = true -> nonempty s = true.
Proof. destruct s; [discriminate | reflexivity]. Qed.

(** One turn of the loop: a string cite keeps counter and last
    proposition and takes the last proposition as its text; a new
    proposition raises the counter by one and becomes the last one. *)
Lemma step_group (text : str) (st : LoopState) (cite : Cite) :
  let st' := fst (step text st cite) in
  let item := snd (step text st cite) in
  string_cite_group item = group_counter st'
  /\ ((is_string_cite item = true
       /\ group_counter st' = group_counter st
       /\ last_proposition st' = last_proposition st
       /\ (truthy (last_proposition st) = true ->
           Some (preceding_text item) = last_proposition st))
      \/ (is_string_cite item = false
          /\ group_counter st' = group_counter st + 1
          /\ last_proposition st' = Some (preceding_text item)
          /\ nonempty (preceding_text item) = true)).
Proof.
  unfold step.
  destruct (_get_full_citation_span cite text) as [start_pos end_pos].
  destruct (clean_preceding (raw_preceding text (last_end st) start_pos))
    as [pt sg].
  unfold attribute.
  destruct (negb (nonempty (strip_chars (py ";,. " ++ [9%N; 10%N]) pt))
            || str_in (strip_chars (py ";,. " ++ [9%N; 10%N]) pt) CONNECTORS)
    eqn:E; cbn [fst snd string_cite_group group_counter is_string_cite
                last_proposition preceding_text].
  - split; [reflexivity|]. left. repeat split.
    intros Ht. rewrite Ht. destruct (last_proposition st); [reflexivity|discriminate].
  - split; [reflexivity|]. right. repeat split.
    apply orb_false_iff in E. destruct E as [E _].
    apply negb_false_iff in E. eapply strip_by_nonempty. exact E.
Qed.

Lemma citations_loop_cons (text : str) (st : LoopState) (cite : Cite) (rest : list Cite) :
  citations_loop text st (cite :: rest)
  = snd (step text st cite) :: citations_loop text (fst (step text st cite)) rest.
Proof. cbn [citations_loop]. destruct (step text st cite). reflexivity. Qed.

Lemma loop_group_count (text : str) (found : list Cite) :
  forall (st : LoopState) (k : nat) (item : Item),
    nth_error (citations_loop text st found) k = Some item ->
    string_cite_group item
    = group_counter st
      + new_propositions (firstn (S k) (citations_loop text st found)).
Proof.
  induction found as [|cite rest IH]; intros st k item Hk.
  - destruct k; discriminate.
  - rewrite citations_loop_cons in *.
    destruct (step_group text st cite) as [Hg Hcase].
    cbv zeta in Hg, Hcase.
    set (st1 := fst (step text st cite)) in *.
    set (item0 := snd (step text st cite)) in *.
    assert (Hst1 : group_counter st1
                   = group_counter st + new_propositions [item0]).
    { unfold new_propositions. cbn [filter].
      destruct Hcase as [(Hs & Hc & _)|(Hs & Hc & _)]; rewrite Hs, Hc; cbn; lia. }
    destruct k as [|k].
    + cbn in Hk. injection Hk as <-. cbn [firstn]. rewrite Hg. exact Hst1.
    + cbn [nth_error] in Hk. rewrite (IH st1 k item Hk), Hst1.
      unfold new_propositions. cbn [firstn filter].
      destruct (negb (is_string_cite item0)); cbn [List.length]; lia.
Qed.

Lemma citations_loop_length (text : str) (found : list Cite) :
  forall st, List.length (citations_loop text st found) = List.length found.
Proof.
  induction found as [|c l IH]; intros st; [reflexivity|].
  rewrite citations_loop_cons. cbn [List.length]. f_equal. apply IH.
Qed.

(** X1. The group number of an emitted citation is the number of
    citations, up to and including it, that opened a new proposition; the
    extractor emits one item per citation found. *)
Theorem group_counts_new_propositions
        (text : str) (found_citations : list Cite) (k : nat) (item : Item) :
  nth_error (extract_citations_with_context text found_citations) k = Some item ->
  string_cite_group item
  = new_propositions
      (firstn (S k) (extract_citations_with_context text found_citations))
  /\ List.length (extract_citations_with_context text found_citations)
     = List.length found_citations.
Proof.
  intros Hk. split.
  - unfold extract_citations_with_context in *.
    rewrite (@loop_group_count text found_citations start_state k item Hk).
    reflexivity.
  - apply citations_loop_length.
Qed.

Lemma step_counted (text : str) (st : LoopState) (cite : Cite) :
  counted st -> counted (fst (step text st cite)).
Proof.
  intros Hst. destruct (step_group text st cite) as [_ Hcase]. cbv zeta in Hcase.
  unfold counted.
  destruct Hcase as [(_ & Hc & Hl & _)|(_ & _ & Hl & Hn)]; rewrite Hl.
  - rewrite Hc. exact Hst.
  - intros _. exact Hn.
Qed.

Lemma loop_group_text (text : str) (found : list Cite) :
  forall (st : LoopState), counted st ->
    Forall (fun item =>
              group_counter st <= string_cite_group item
              /\ (string_cite_group item = group_counter st ->
                  1 <= group_counter st ->
                  Some (preceding_text item) = last_proposition st))
           (citations_loop text st found).
Proof.
  induction found as [|cite rest IH]; intros st Hst; [constructor|].
  rewrite citations_loop_cons.
  pose proof (step_counted text cite Hst) as Hst1.
  destruct (step_group text st cite) as [Hg Hcase]. cbv zeta in Hg, Hcase.
  specialize (IH _ Hst1).
  set (st1 := fst (step text st cite)) in *.
  set (item0 := snd (step text st cite)) in *.
  constructor.
  - rewrite Hg.
    destruct Hcase as [(_ & Hc & _ & Ht)|(_ & Hc & _ & _)]; rewrite Hc.
    + split; [lia|]. intros _ H1. apply Ht. apply Hst. exact H1.
    + split; lia.
  - eapply Forall_impl; [|exact IH]. cbv beta. intros x [Hle Heq].
    destruct Hcase as [(_ & Hc & Hl & _)|(_ & Hc & _ & _)].
    + rewrite Hc, Hl in *. split; [exact Hle | exact Heq].
    + split; [lia|]. intros E. lia.
Qed.

Lemma loop_same_group_same_text (text : str) (found : list Cite) :
  forall (st : LoopState), counted st ->
    forall a b, In a (citations_loop text st found) ->
                In b (citations_loop text st found) ->
                string_cite_group a = string_cite_group b ->
                1 <= string_cite_group a ->
                preceding_text a = preceding_text b.
Proof.
  induction found as [|cite rest IH]; intros st Hst a b Ha Hb Hab H1;
    [destruct Ha|].
  rewrite citations_loop_cons in Ha, Hb.
  pose proof (step_counted text cite Hst) as Hst1.
  pose proof (loop_group_text text rest Hst1) as Hrest.
  rewrite Forall_forall in Hrest.
  destruct (step_group text st cite) as [Hg Hcase]. cbv zeta in Hg, Hcase.
  set (st1 := fst (step text st cite)) in *.
  set (item0 := snd (step text st cite)) in *.
  assert (Hhead : 1 <= group_counter st1 ->
                  Some (preceding_text item0) = last_proposition st1).
  { intros Hpos.
    destruct Hcase as [(_ & Hc & Hl & Ht)|(_ & _ & Hl & _)]; rewrite Hl.
    - apply Ht. apply Hst. lia.
    - reflexivity. }
  assert (Hone : forall x, In x (citations_loop text st1 rest) ->
                   string_cite_group x = string_cite_group item0 ->
                   1 <= string_cite_group x ->
                   preceding_text x = preceding_text item0).
  { intros x Hx Hxe Hx1. destruct (Hrest x Hx) as [_ Heq].
    rewrite Hg in Hxe.
    assert (Some (preceding_text x) = Some (preceding_text item0)) as E.
    { rewrite Heq by lia. rewrite Hhead by lia. reflexivity. }
    injection E as E. exact E. }
  destruct Ha as [<-|Ha], Hb as [<-|Hb].
  - reflexivity.
  - symmetry. apply Hone; [exact Hb | congruence | lia].
  - apply Hone; [exact Ha | congruence | exact H1].
  - eapply IH; eauto.
Qed.

(** X2. Two emitted citations with the same positive group number carry
    the same proposition text. *)
Theorem same_group_same_text
        (text : str) (found_citations : list Cite) (a b : Item) :
  In a (extract_citations_with_context text found_citations) ->
  In b (extract_citations_with_context text found_citations) ->
  string_cite_group a = string_cite_group b ->
  1 <= string_cite_group a ->
  preceding_text a = preceding_text b.
Proof.
  apply loop_same_group_same_text. intros H. cbn in H. lia.
Qed.

Lemma group_counts_new_propositions_witness :
  string_cite_group (nth 2 (extract_citations_with_context rule_text rule_cites) see_item)
  = 1.
Proof.
  destruct (@group_counts_new_propositions rule_text rule_cites 2
              (nth 2 (extract_citations_with_context rule_text rule_cites) see_item))
    as [H _].
  - vm_compute. reflexivity.
  - rewrite H. vm_compute. reflexivity.
Defined.

Lemma same_group_same_text_witness :
  preceding_text (nth 0 (extract_citations_with_context rule_text rule_cites) see_item)
  = preceding_text (nth 2 (extract_citations_with_context rule_text rule_cites) see_item).
Proof.
  apply (@same_group_same_text rule_text rule_cites).
  - vm_compute. left. reflexivity.
  - vm_compute. right. right. left. reflexivity.
  - vm_compute. reflexivity.
  - vm_compute. lia.
Defined.

End StringCiteGroups.

(* --------------------------------------------------------------------- *)
(** ** Sentences *)
(* --------------------------------------------------------------------- *)

Section Stripping.

Variable p : char -> bool.

Lemma rstrip_by_decompose (s : str) :
  exists ws, s = rstrip_by p s ++ ws /\ forallb p ws = true.
Proof.
  unfold rstrip_by.
  destruct (lstrip_by_spec p (rev s)) as (ws & Hs & Hws).
  exists (rev ws). split.
  - rewrite <- rev_app_distr. rewrite <- Hs. symmetry. apply rev_involutive.
  - rewrite forallb_forall in *. intros x Hx. apply Hws. apply in_rev. exact Hx.
Qed.

Lemma lstrip_by_head (s : str) (c : char) (r : str) :
  lstrip_by p s = c :: r -> p c = false.
Proof.
  induction s as [|x s IH]; cbn [lstrip_by]; [discriminate|].
  destruct (p x) eqn:Hx; [exact IH|].
  intros H. injection H as <- _. exact Hx.
Qed.

Lemma lstrip_by_fixed (s : str) :
  match s with c :: _ => p c = false | [] => True end -> lstrip_by p s = s.
Proof. destruct s as [|c s]; [reflexivity|]. cbn. intros ->. reflexivity. Qed.

Lemma filter_all (f : char -> bool) (ws : str) :
  forallb p ws = true -> (forall c, p c = true -> f c = false) -> filter f ws = [].
Proof.
  intros Hws Hf. induction ws as [|c ws IH]; [reflexivity|].
  cbn in *. apply andb_true_iff in Hws. destruct Hws as [Hc Hws].
  rewrite (Hf c Hc). apply IH. exact Hws.
Qed.

Lemma filter_strip_by (s : str) :
  filter (fun c => negb (p c)) (strip_by p s) = filter (fun c => negb (p c)) s.
Proof.
  unfold strip_by.
  destruct (lstrip_by_spec p s) as (w1 & H1 & Hw1).
  destruct (rstrip_by_decompose (lstrip_by p s)) as (w2 & H2 & Hw2).
  rewrite H1 at 2. rewrite H2 at 2. rewrite !filter_app.
  rewrite (@filter_all _ w1 Hw1), (@filter_all _ w2 Hw2).
  - rewrite app_nil_r. reflexivity.
  - intros c Hc. rewrite Hc. reflexivity.
  - intros c Hc. rewrite Hc. reflexivity.
Qed.

(** A stripped text is empty, or begins and ends with a character that is
    not stripped. *)
Lemma strip_by_idempotent (s : str) : strip_by p (strip_by p s) = strip_by p s.
Proof.
  set (l := lstrip_by p s).
  assert (Hl : lstrip_by p l = l).
  { apply lstrip_by_fixed. destruct l as [|c r] eqn:E; [exact I|].
    eapply lstrip_by_head. exact E. }
  unfold strip_by at 2. fold l. set (u := rstrip_by p l).
  assert (Hu : rstrip_by p u = u).
  { set (m := lstrip_by p (rev l)).
    assert (Hm : lstrip_by p m = m).
    { apply lstrip_by_fixed. destruct m as [|c r] eqn:E; [exact I|].
      eapply lstrip_by_head. exact E. }
    assert (Hrev : rev u = m) by (unfold u, rstrip_by; apply rev_involutive).
    unfold rstrip_by at 1. rewrite Hrev, Hm. reflexivity. }
  assert (Hlu : lstrip_by p u = u).
  { apply lstrip_by_fixed. destruct u as [|c r] eqn:E; [exact I|].
    destruct (rstrip_by_decompose l) as (ws & Hs & _). fold u in Hs.
    rewrite E in Hs. cbn in Hs.
    apply lstrip_by_head with (s := l) (r := r ++ ws).
    rewrite Hl. exact Hs. }
  unfold strip_by. rewrite Hlu. exact Hu.
Qed.

End Stripping.

Section Segmentation.
Import ParseBrief Invariants.

Lemma non_space_strip (s : str) : non_space (strip s) = non_space s.
Proof. apply filter_strip_by. Qed.

Lemma non_space_app (a b : str) : non_space (a ++ b) = non_space a ++ non_space b.
Proof. apply filter_app. Qed.

Lemma non_space_concat_snoc (l : list str) (s : str) :
  non_space (List.concat (l ++ [s])) = non_space (List.concat l) ++ non_space s.
Proof. rewrite concat_app. cbn [List.concat]. rewrite app_nil_r. apply non_space_app. Qed.

Lemma segment_loop_non_space (text : str) (todo : str) :
  forall i current sentences,
    non_space (List.concat (fst (segment_loop text todo i current sentences))
               ++ snd (segment_loop text todo i current sentences))
    = non_space (List.concat sentences ++ current ++ todo).
Proof.
  induction todo as [|c todo IH]; intros i current sentences;
    cbn [segment_loop fst snd].
  - rewrite app_nil_r. reflexivity.
  - destruct (char_in c terminators && sentence_break text i).
    + rewrite IH. change (c :: todo) with ([c] ++ todo).
      rewrite !non_space_app, non_space_concat_snoc, non_space_strip.
      rewrite !non_space_app. change (non_space []) with (@nil char).
      cbn [app]. rewrite <- !app_assoc. reflexivity.
    + rewrite IH. change (c :: todo) with ([c] ++ todo).
      rewrite <- !app_assoc. reflexivity.
Qed.

Lemma segment_sentences_non_space (text : str) :
  non_space (List.concat (segment_sentences text)) = non_space text.
Proof.
  unfold segment_sentences.
  pose proof (segment_loop_non_space text text 0 [] []) as H.
  destruct (segment_loop text text 0 [] []) as [sentences current].
  cbn [fst snd List.concat app] in H. rewrite <- H.
  destruct current as [|c current].
  - rewrite app_nil_r. reflexivity.
  - destruct (nonempty (strip (c :: current))) eqn:E.
    + rewrite non_space_concat_snoc, non_space_strip, non_space_app. reflexivity.
    + rewrite non_space_app, <- (non_space_strip (c :: current)).
      destruct (strip (c :: current)); [|discriminate].
      rewrite app_nil_r. reflexivity.
Qed.

Lemma terminator_not_space (c : char) :
  char_in c terminators = true -> isspace c = false.
Proof.
  unfold char_in, terminators. cbn [py map list_ascii_of_string existsb].
  intros H. repeat (apply orb_true_iff in H; destruct H as [H|H]);
    try discriminate; apply N.eqb_eq in H; subst c; reflexivity.
Qed.

Lemma strip_keeps (s : str) (c : char) :
  isspace c = false -> In c s -> strip s <> [].
Proof.
  intros Hc Hin Habs.
  assert (In c (non_space s)) as H.
  { apply filter_In. split; [exact Hin|]. rewrite Hc. reflexivity. }
  rewrite <- non_space_strip, Habs in H. destruct H.
Qed.

Lemma strip_trimmed (s : str) : strip s <> [] -> trimmed (strip s).
Proof. intros H. split; [apply strip_by_idempotent | exact H]. Qed.

Lemma segment_loop_trimmed (text : str) (todo : str) :
  forall i current sentences,
    Forall trimmed sentences ->
    Forall trimmed (fst (segment_loop text todo i current sentences)).
Proof.
  induction todo as [|c todo IH]; intros i current sentences Hs;
    cbn [segment_loop fst]; [exact Hs|].
  destruct (char_in c terminators) eqn:Hc; cbn [andb]; [|apply IH; exact Hs].
  destruct (sentence_break text i); [|apply IH; exact Hs].
  apply IH. apply Forall_app. split; [exact Hs|].
  constructor; [|constructor]. apply strip_trimmed.
  apply strip_keeps with (c := c).
  - apply terminator_not_space. exact Hc.
  - apply in_or_app. right. left. reflexivity.
Qed.

Lemma segment_sentences_trimmed (text : str) :
  Forall trimmed (segment_sentences text).
Proof.
  unfold segment_sentences.
  pose proof (segment_loop_trimmed text text 0 [] (Forall_nil _)) as H.
  destruct (segment_loop text text 0 [] []) as [sentences current].
  cbn [fst] in H. destruct current as [|c current]; [exact H|].
  destruct (nonempty (strip (c :: current))) eqn:E; [|exact H].
  apply Forall_app. split; [exact H|]. constructor; [|constructor].
  apply strip_trimmed. intros Habs. rewrite Habs in E. discriminate.
Qed.

(** X3. Segmentation neither drops nor adds nor reorders a character that
    is not whitespace: the sentences, put end to end, are the text up to
    whitespace. *)
Theorem segmentation_keeps_text (text : str) :
  non_space (List.concat (segment_sentences text)) = non_space text.
Proof. exact (segment_sentences_non_space text). Qed.

Lemma non_space_nil_iff (s : str) : non_space s = [] <-> forallb isspace s = true.
Proof.
  induction s as [|c s IH]; cbn; [tauto|].
  destruct (isspace c); cbn; [exact IH|]. split; discriminate.
Qed.

(** X4. Every sentence is non-empty and has no whitespace at either end;
    no sentence at all is returned exactly when the text is blank. *)
Theorem sentences_trimmed (text : str) :
  Forall (fun s => strip s = s /\ s <> []) (segment_sentences text)
  /\ (segment_sentences text = [] <-> forallb isspace text = true).
Proof.
  split; [exact (segment_sentences_trimmed text)|].
  rewrite <- non_space_nil_iff, <- segment_sentences_non_space.
  split.
  - intros ->. reflexivity.
  - intros H. pose proof (segment_sentences_trimmed text) as Ht.
    destruct (segment_sentences text) as [|s l]; [reflexivity|].
    exfalso. inversion Ht as [|? ? [Hs Hne] _]; subst.
    cbn [List.concat] in H. rewrite non_space_app in H.
    apply app_eq_nil in H. destruct H as [H _].
    apply non_space_nil_iff in H.
    assert (strip s = []) as E.
    { unfold strip, strip_by.
      assert (lstrip_by isspace s = []) as ->.
      { clear Hs Hne Ht. induction s as [|c s IH]; [reflexivity|].
        cbn in H. apply andb_true_iff in H. destruct H as [Hc H].
        cbn. rewrite Hc. apply IH. exact H. }
      reflexivity. }
    rewrite Hs in E. contradiction.
Qed.

End Segmentation.

(* --------------------------------------------------------------------- *)
(** ** Paragraphs *)
(* --------------------------------------------------------------------- *)

Section Paragraphs.
Import Layout ParseBriefLayout Invariants.

Lemma take_indented_split (bm : option Z) (l : list PBlock) :
  l = fst (take_indented bm l) ++ snd (take_indented bm l)
  /\ forallb (indented bm) (fst (take_indented bm l)) = true.
Proof.
  induction l as [|b l [IH1 IH2]]; cbn [take_indented]; [split; reflexivity|].
  destruct (indented bm b) eqn:Hb; [|split; reflexivity].
  destruct (take_indented bm l) as [q rest]. cbn [fst snd app forallb] in *.
  rewrite Hb, IH2. split; [f_equal; exact IH1 | reflexivity].
Qed.

Lemma collect_body_split (bm : option Z) (l : list PBlock) :
  l = fst (collect_body bm l) ++ snd (collect_body bm l).
Proof.
  induction l as [|b l IH]; cbn [collect_body]; [reflexivity|].
  destruct (indented bm b && is_block_quote bm l); [reflexivity|].
  destruct (collect_body bm l) as [body rest]. cbn [fst snd app] in *.
  f_equal. exact IH.
Qed.

Lemma second_pass_partition (fuel : nat) (bm : option Z) :
  forall (l : list PBlock) (ps : list RawParagraph),
    second_pass fuel bm l = Some ps ->
    flat_map paragraph_blocks ps = l /\ Forall (well_formed_paragraph bm) ps.
Proof.
  induction fuel as [|fuel IH]; intros l ps H; [discriminate|].
  destruct l as [|block after]; cbn [second_pass] in H.
  - injection H as <-. split; [reflexivity | constructor].
  - assert (Hbody : forall ps,
               (let '(body_blocks, rest) := collect_body bm after in
                option_map (cons (raw_body (block :: body_blocks)))
                           (second_pass fuel bm rest)) = Some ps ->
               flat_map paragraph_blocks ps = block :: after
               /\ Forall (well_formed_paragraph bm) ps).
    { intros ps' H'. pose proof (collect_body_split bm after) as Hs.
      destruct (collect_body bm after) as [bs rest]. cbn [fst snd] in Hs.
      destruct (second_pass fuel bm rest) as [ps0|] eqn:E; [|discriminate].
      injection H' as <-. destruct (IH _ _ E) as [Hf Hw].
      cbn [flat_map paragraph_blocks]. rewrite Hf. split.
      - cbn [app]. f_equal. symmetry. exact Hs.
      - constructor; [discriminate | exact Hw]. }
    destruct (indented bm block) eqn:Hb; [|apply Hbody; exact H].
    pose proof (take_indented_split bm after) as [Hs Hq].
    destruct (take_indented bm after) as [qs rest]. cbn [fst snd] in Hs, Hq.
    destruct (2 <=? List.length (block :: qs)) eqn:Hlen; [|apply Hbody; exact H].
    destruct (second_pass fuel bm rest) as [ps0|] eqn:E; [|discriminate].
    injection H as <-. destruct (IH _ _ E) as [Hf Hw].
    cbn [flat_map paragraph_blocks]. rewrite Hf. split.
    + cbn [app]. f_equal. symmetry. exact Hs.
    + constructor; [|exact Hw]. split.
      * apply Nat.leb_le. exact Hlen.
      * cbn [forallb]. rewrite Hb, Hq. reflexivity.
Qed.

(** X5. The paragraphs returned by [extract_paragraphs] hold the blocks
    kept by the first pass, each once and in order; a block quote has at
    least two blocks, all of them more than 25pt right of the body margin,
    and a body paragraph has at least one block. *)
Theorem paragraphs_partition_blocks
        (m : Margins) (counted : list Block) (pages : list (nat * list Block)) :
  let bm := body_margin (_calculate_margins m counted) in
  exists paragraphs,
    extract_paragraphs m counted pages = Some paragraphs
    /\ flat_map paragraph_blocks paragraphs = first_pass bm pages
    /\ Forall (well_formed_paragraph bm) paragraphs.
Proof.
  intros bm. unfold extract_paragraphs. fold bm.
  destruct (@second_pass_total (S (List.length (first_pass bm pages))) bm
              (first_pass bm pages)) as [ps Hps]; [lia|].
  exists ps. split; [exact Hps|]. eapply second_pass_partition. exact Hps.
Qed.

Lemma never_indented (bm : option Z) (b : PBlock) :
  margin_truthy bm = None -> indented bm b = false.
Proof. unfold indented, indent_of. intros ->. reflexivity. Qed.

Lemma collect_body_all (bm : option Z) (l : list PBlock) :
  margin_truthy bm = None -> collect_body bm l = (l, []).
Proof.
  intros Hm. induction l as [|b l IH]; cbn [collect_body]; [reflexivity|].
  rewrite (@never_indented bm b Hm), IH. reflexivity.
Qed.

(** X6. Without a usable body margin (none computed, or margin 0) no block
    counts as indented, and all the blocks kept form one body paragraph. *)
Theorem no_margin_single_body
        (m : Margins) (counted : list Block) (pages : list (nat * list Block)) :
  margin_truthy (body_margin (_calculate_margins m counted)) = None ->
  first_pass (body_margin (_calculate_margins m counted)) pages <> [] ->
  extract_paragraphs m counted pages
  = Some [raw_body (first_pass (body_margin (_calculate_margins m counted)) pages)].
Proof.
  intros Hm Hne. unfold extract_paragraphs.
  set (bm := body_margin (_calculate_margins m counted)) in *.
  destruct (first_pass bm pages) as [|block after]; [congruence|].
  cbn [second_pass List.length].
  rewrite (@never_indented bm block Hm), (@collect_body_all bm after Hm).
  reflexivity.
Qed.

Lemma no_margin_single_body_witness :
  extract_paragraphs no_margins [short_block] [(0, [short_block; long_block])]
  = Some [raw_body (first_pass None [(0, [short_block; long_block])])].
Proof.
  apply (@no_margin_single_body no_margins [short_block]
           [(0, [short_block; long_block])]).
  - vm_compute. reflexivity.
  - vm_compute. discriminate.
Defined.

End Paragraphs.

(* --------------------------------------------------------------------- *)
(** ** Block quotes of pdf_extractor.py *)
(* --------------------------------------------------------------------- *)

Section BlockQuoteDetection.
Import PdfExtractor Processor PdfExtractorQuotes Invariants.

Lemma detect_loop_runs (all_blocks : list XBlock) :
  forall (rest current before : list XBlock),
    all_blocks = before ++ current ++ rest ->
    forallb is_indented current = true ->
    match rev before with b :: _ => is_indented b = false | [] => True end ->
    Forall (fun q => exists run, indented_run all_blocks run /\ q = quote_of run)
           (detect_loop rest current).
Proof.
  induction rest as [|block rest IH]; intros current before Hall Hcur Hbefore.
  - cbn [detect_loop]. unfold flush.
    destruct (2 <=? List.length current) eqn:Hlen; constructor; [|constructor].
    exists current. split; [|reflexivity].
    exists before, []. repeat split; auto. apply Nat.leb_le. exact Hlen.
  - cbn [detect_loop]. destruct (is_indented block) eqn:Hb.
    + apply (IH (current ++ [block]) before).
      * rewrite Hall, <- !app_assoc. reflexivity.
      * rewrite forallb_app, Hcur. cbn. rewrite Hb. reflexivity.
      * exact Hbefore.
    + apply Forall_app. split.
      * unfold flush.
        destruct (2 <=? List.length current) eqn:Hlen; constructor; [|constructor].
        exists current. split; [|reflexivity].
        exists before, (block :: rest). repeat split; auto.
        apply Nat.leb_le. exact Hlen.
      * apply (IH [] (before ++ current ++ [block])).
        -- rewrite Hall, <- !app_assoc. reflexivity.
        -- reflexivity.
        -- rewrite !rev_app_distr. cbn. exact Hb.
Qed.

Lemma detect_loop_bound (rest : list XBlock) :
  forall current,
    2 * List.length (detect_loop rest current)
    <= List.length current + List.length (filter is_indented rest).
Proof.
  induction rest as [|block rest IH]; intros current; cbn [detect_loop filter].
  - unfold flush. destruct (2 <=? List.length current) eqn:Hlen; cbn [List.length].
    + apply Nat.leb_le in Hlen. lia.
    + lia.
  - destruct (is_indented block).
    + specialize (IH (current ++ [block])). rewrite length_app in IH.
      cbn [List.length] in *. lia.
    + rewrite length_app. specialize (IH []). cbn [List.length] in IH.
      unfold flush. destruct (2 <=? List.length current) eqn:Hlen; cbn [List.length].
      * apply Nat.leb_le in Hlen. lia.
      * lia.
Qed.

(** X7. Every block quote detected by pdf_extractor.py is made of a
    maximal run of two or more consecutive indented blocks (text, first
    page, last page); so there are at most half as many block quotes as
    indented blocks. *)
Theorem block_quotes_are_indented_runs (all_blocks : list XBlock) :
  Forall (fun q => exists run, indented_run all_blocks run /\ q = quote_of run)
         (detect_block_quotes all_blocks)
  /\ 2 * List.length (detect_block_quotes all_blocks)
     <= List.length (filter is_indented all_blocks).
Proof.
  split.
  - apply (@detect_loop_runs all_blocks all_blocks [] []); [reflexivity..|exact I].
  - apply (detect_loop_bound all_blocks []).
Qed.

End BlockQuoteDetection.

(* --------------------------------------------------------------------- *)
(** ** Consolidation groups citations by key *)
(* --------------------------------------------------------------------- *)

Section Grouping.
Import Extractor Invariants.

Lemma str_eqb_eq (a b : str) : str_eqb a b = true <-> a = b.
Proof.
  revert b. induction a as [|x a IH]; intros [|y b]; cbn; split;
    try discriminate; try reflexivity.
  - intros H. apply andb_true_iff in H. destruct H as [Hxy Hab].
    apply N.eqb_eq in Hxy. apply IH in Hab. congruence.
  - intros H. injection H as -> ->. rewrite N.eqb_refl. apply IH. reflexivity.
Qed.

Lemma str_eqb_refl (a : str) : str_eqb a a = true.
Proof. apply str_eqb_eq. reflexivity. Qed.

Lemma str_eqb_neq (a b : str) : a <> b -> str_eqb a b = false.
Proof.
  intros H. destruct (str_eqb a b) eqn:E; [|reflexivity].
  apply str_eqb_eq in E. contradiction.
Qed.

Lemma NoDup_snoc (A : Type) (l : list A) (a : A) :
  NoDup l -> ~ In a l -> NoDup (l ++ [a]).
Proof.
  induction l as [|x l IH]; intros Hnd Hin; cbn [app].
  - constructor; [intros [] | constructor].
  - inversion Hnd as [|? ? Hx Hl]; subst. constructor.
    + intros H. apply in_app_or in H. destruct H as [H|[H|[]]].
      * contradiction.
      * apply Hin. left. symmetry. exact H.
    + apply IH; [exact Hl|]. intros H. apply Hin. right. exact H.
Qed.

Lemma add_proposition_keys (key text : str) (prop : Proposition) (t : Table) :
  map fst (add_proposition key text prop t)
  = if existsb (fun k => str_eqb k key) (map fst t)
    then map fst t else map fst t ++ [key].
Proof.
  induction t as [|[k e] t IH]; cbn [add_proposition map existsb fst app];
    [reflexivity|].
  destruct (str_eqb k key); cbn [orb map fst]; [reflexivity|].
  rewrite IH. destruct (existsb _ (map fst t)); reflexivity.
Qed.

Lemma existsb_key (key : str) (keys : list str) :
  existsb (fun k => str_eqb k key) keys = true <-> In key keys.
Proof.
  rewrite existsb_exists. split.
  - intros (k & Hin & Hk). apply str_eqb_eq in Hk. subst. exact Hin.
  - intros H. exists key. split; [exact H | apply str_eqb_refl].
Qed.

(** The entries of the table after [prop], kept, was added under [key]. *)
Lemma add_proposition_entries (key text : str) (prop : Proposition) (t : Table) :
  NoDup (map fst t) ->
  forall k e', In (k, e') (add_proposition key text prop t) ->
    (k <> key /\ In (k, e') t)
    \/ (k = key /\ exists e, In (k, e) t
                   /\ e' = mkConsolidated (proposition e) (type e)
                                          (cons_citations e ++ citations prop)
                                          (cons_signal e))
    \/ (k = key /\ ~ In key (map fst t)
        /\ e' = mkConsolidated text (proposition_type prop)
                               (citations prop) (signal prop)).
Proof.
  induction t as [|[k0 e0] t IH]; intros Hnd k e' Hin;
    cbn [add_proposition] in Hin.
  - destruct Hin as [H|[]]. injection H as <- <-.
    right. right. repeat split. intros [].
  - inversion Hnd as [|? ? Hnotin Hnd']; subst.
    destruct (str_eqb k0 key) eqn:E.
    + apply str_eqb_eq in E. subst k0. destruct Hin as [H|H].
      * injection H as <- <-. right. left. split; [reflexivity|].
        exists e0. split; [left; reflexivity | reflexivity].
      * left. split; [|right; exact H].
        intros ->. apply Hnotin. cbn [map fst] in *.
        apply in_map_iff. exists (key, e'). split; [reflexivity | exact H].
    + assert (Hne : k0 <> key).
      { intros ->. rewrite str_eqb_refl in E. discriminate. }
      destruct Hin as [H|H].
      * injection H as <- <-. left. split; [exact Hne | left; reflexivity].
      * destruct (IH Hnd' _ _ H) as [[H1 H2]|[[H1 (e & H2 & H3)]|[H1 [H2 H3]]]].
        -- left. split; [exact H1 | right; exact H2].
        -- right. left. split; [exact H1|]. exists e. split; [right; exact H2 | exact H3].
        -- right. right. split; [exact H1|]. split; [|exact H3].
           cbn [map fst]. intros [Hk|Hk]; [congruence | contradiction].
Qed.

Lemma filter_kept_snoc (k : str) (seen : list Proposition) (prop : Proposition) :
  filter (kept_under k) (seen ++ [prop])
  = filter (kept_under k) seen ++ (if kept_under k prop then [prop] else []).
Proof. rewrite filter_app. reflexivity. Qed.

Lemma consolidate_step_table (seen : list Proposition) (t : Table) (prop : Proposition) :
  table_of seen t -> table_of (seen ++ [prop]) (consolidate_step t prop).
Proof.
  intros (Hnd & Hent & Hkeys).
  destruct (skipped prop) eqn:Hs.
  - rewrite consolidate_step_skipped by exact Hs.
    assert (Hk : forall k, kept_under k prop = false).
    { intros k. unfold kept_under. rewrite Hs. reflexivity. }
    split; [exact Hnd|]. split.
    + intros k e Hin. rewrite filter_kept_snoc, Hk, app_nil_r. apply Hent. exact Hin.
    + intros q Hq Hqs. apply in_app_or in Hq. destruct Hq as [Hq|[<-|[]]].
      * apply Hkeys; assumption.
      * congruence.
  - unfold consolidate_step. unfold skipped in Hs. rewrite Hs.
    fold (skipped prop) in Hs.
    set (text := strip (prop_text prop)). set (key := slice text 0 200).
    assert (Hself : kept_under key prop = true).
    { unfold kept_under. rewrite Hs. apply str_eqb_refl. }
    assert (Hother : forall k, k <> key -> kept_under k prop = false).
    { intros k Hk. unfold kept_under. rewrite Hs. cbn [negb andb].
      apply str_eqb_neq. intros E. apply Hk. symmetry. exact E. }
    split; [|split].
    + rewrite add_proposition_keys.
      destruct (existsb (fun k => str_eqb k key) (map fst t)) eqn:E; [exact Hnd|].
      apply NoDup_snoc; [exact Hnd|].
      intros Hin. apply existsb_key in Hin. congruence.
    + intros k e' Hin.
      destruct (add_proposition_entries key text prop t Hnd _ _ Hin)
        as [[Hk Hin']|[[-> (e & Hin' & ->)]|[-> [Hnew ->]]]].
      * rewrite filter_kept_snoc, (Hother k Hk), app_nil_r. apply Hent. exact Hin'.
      * destruct (Hent _ _ Hin') as (Hk & Hc & first & rest & Hf & Hp & Ht & Hsg).
        rewrite filter_kept_snoc, Hself.
        cbn [cons_citations proposition type cons_signal].
        split; [exact Hk|]. split.
        -- rewrite flat_map_app, Hc. cbn [flat_map]. rewrite app_nil_r. reflexivity.
        -- exists first, (rest ++ [prop]). rewrite Hf. repeat split; assumption.
      * assert (Hnone : filter (kept_under key) seen = []).
        { destruct (filter (kept_under key) seen) as [|q l] eqn:Ef; [reflexivity|].
          exfalso. apply Hnew.
          assert (In q (filter (kept_under key) seen)) as Hq by (rewrite Ef; left; reflexivity).
          apply filter_In in Hq. destruct Hq as [Hq Hqk].
          unfold kept_under in Hqk. apply andb_true_iff in Hqk.
          destruct Hqk as [Hqs Hqe]. apply negb_true_iff in Hqs.
          apply str_eqb_eq in Hqe. rewrite <- Hqe. apply Hkeys; assumption. }
        rewrite filter_kept_snoc, Hself, Hnone.
        cbn [cons_citations proposition type cons_signal app flat_map].
        split; [reflexivity|]. split; [rewrite app_nil_r; reflexivity|].
        exists prop, []. repeat split.
    + intros q Hq Hqs. rewrite add_proposition_keys.
      assert (Hor : In (slice (strip (prop_text q)) 0 200) (map fst t)
                    \/ slice (strip (prop_text q)) 0 200 = key).
      { apply in_app_or in Hq. destruct Hq as [Hq|[<-|[]]].
        - left. apply Hkeys; assumption.
        - right. reflexivity. }
      destruct (existsb (fun k => str_eqb k key) (map fst t)) eqn:E.
      * destruct Hor as [H|H]; [exact H|]. rewrite H. apply existsb_key. exact E.
      * apply in_or_app. destruct Hor as [H|H]; [left; exact H|].
        right. left. symmetry. exact H.
Qed.

Lemma fold_consolidate_table (props : list Proposition) :
  forall seen t, table_of seen t ->
                 table_of (seen ++ props) (fold_left consolidate_step props t).
Proof.
  induction props as [|p props IH]; intros seen t Ht; cbn [fold_left].
  - rewrite app_nil_r. exact Ht.
  - replace (seen ++ p :: props) with ((seen ++ [p]) ++ props)
      by (rewrite <- app_assoc; reflexivity).
    apply IH. apply consolidate_step_table. exact Ht.
Qed.

Lemma consolidate_table (props : list Proposition) :
  table_of props (fold_left consolidate_step props []).
Proof.
  apply (fold_consolidate_table props (seen := []) (t := [])).
  split; [constructor|]. split; [intros k e []|intros q []].
Qed.

(** X8. [consolidate_propositions] groups by key, the first 200
    characters of the stripped text: no two entries of the result share
    a key, the citations of an entry are those of all the kept
    propositions under its key, in the order of the input, and every
    kept proposition has its key among the entries. *)
Theorem consolidation_groups_by_key (props : list Proposition) :
  NoDup (map entry_key (consolidate_propositions props))
  /\ Forall (fun e =>
               cons_citations e
               = flat_map citations (filter (kept_under (entry_key e)) props))
            (consolidate_propositions props)
  /\ Forall (fun prop =>
               skipped prop = true
               \/ In (slice (strip (prop_text prop)) 0 200)
                     (map entry_key (consolidate_propositions props)))
            props.
Proof.
  destruct (consolidate_table props) as (Hnd & Hent & Hkeys).
  unfold consolidate_propositions.
  set (t := fold_left consolidate_step props []) in *.
  assert (Hmap : map entry_key (map snd t) = map fst t).
  { rewrite map_map. apply map_ext_in. intros [k e] Hin.
    destruct (Hent _ _ Hin) as [-> _]. reflexivity. }
  rewrite Hmap. split; [exact Hnd|]. split.
  - apply Forall_forall. intros e Hin. apply in_map_iff in Hin.
    destruct Hin as ([k e'] & <- & Hin).
    destruct (Hent _ _ Hin) as (Hk & Hc & _). cbn [snd]. rewrite <- Hk. exact Hc.
  - apply Forall_forall. intros q Hq.
    destruct (skipped q) eqn:Hs; [left; reflexivity|].
    right. apply Hkeys; assumption.
Qed.

(** X9. At least one kept proposition falls under the key of each
    entry, and the first of them gives the entry its text (stripped),
    its type and its signal; the later ones only add citations. *)
Theorem first_proposition_names_entry (props : list Proposition) :
  Forall (fun e =>
            exists first rest,
              filter (kept_under (entry_key e)) props = first :: rest
              /\ proposition e = strip (prop_text first)
              /\ type e = proposition_type first
              /\ cons_signal e = signal first)
         (consolidate_propositions props).
Proof.
  destruct (consolidate_table props) as (_ & Hent & _).
  unfold consolidate_propositions.
  apply Forall_forall. intros e Hin. apply in_map_iff in Hin.
  destruct Hin as ([k e'] & <- & Hin).
  destruct (Hent _ _ Hin) as (Hk & _ & H). cbn [snd]. rewrite <- Hk. exact H.
Qed.

End Grouping.

(* --------------------------------------------------------------------- *)
(** ** Records handed from citation to citation *)
(* --------------------------------------------------------------------- *)

Section Propagation.
Import ParseBrief Invariants.

Lemma or_else_kept (a b : option str) : truthy a = true -> or_else a b = a.
Proof. unfold or_else. intros ->. reflexivity. Qed.

Lemma citation_updated_refl (c : Citation) : citation_updated c c.
Proof. unfold citation_updated. repeat split; auto. Qed.

Lemma inherit_updated (c src : Citation) (r : dict) :
  dict_truthy (Some r) = true ->
  (cite_type c = short_case \/ cite_type c = id_cite) ->
  citation_updated c (inherit c src r).
Proof.
  intros Hr Ht. unfold citation_updated, inherit.
  repeat split; cbn; auto.
  - intros H. apply or_else_kept. exact H.
  - intros H1 H2. destruct Ht; contradiction.
Qed.

Lemma inherit_pin_updated (c src : Citation) (r : dict) (p : option str) (b : bool) :
  dict_truthy (Some r) = true ->
  (cite_type c = short_case \/ cite_type c = id_cite) ->
  (b = true -> truthy (pin_cite c) = false) ->
  citation_updated c (if b then set_pin_cite (inherit c src r) p
                      else inherit c src r).
Proof.
  intros Hr Ht Hb. destruct b; [|apply inherit_updated; assumption].
  specialize (Hb eq_refl).
  unfold citation_updated, inherit. repeat split; cbn; auto.
  - intros H. apply or_else_kept. exact H.
  - intros H. congruence.
  - intros H1 H2. destruct Ht; contradiction.
Qed.

Lemma process_citation_updated (st : PropagateState) (c : Citation) :
  citation_updated c (snd (process_citation st c)).
Proof.
  unfold process_citation. destruct (cite_type c) eqn:Ht;
    try (cbn [snd]; apply citation_updated_refl).
  - (* short form *)
    cbn [snd].
    destruct (cite_key (volume c) (reporter c)) as [key|];
      [|apply citation_updated_refl].
    destruct (cites_get (full_cites_by_key st) key) as [full_cite|];
      [|apply citation_updated_refl].
    destruct (cl_record full_cite) as [[|kv r]|];
      try apply citation_updated_refl.
    destruct (int_truthy (get_start_page (kv :: r)) && truthy (page c)).
    + destruct (get_start_page (kv :: r)) as [sp|];
        [|apply citation_updated_refl].
      destruct (option_map int (page c)) as [[p|]|];
        try apply citation_updated_refl.
      destruct (p >=? sp)%Z; [|apply citation_updated_refl].
      apply inherit_updated; [reflexivity | left; exact Ht].
    + apply inherit_updated; [reflexivity | left; exact Ht].
  - (* Id. *)
    destruct (last_cite st) as [last|]; [|apply citation_updated_refl].
    destruct (cl_record last) as [[|kv r]|]; try apply citation_updated_refl.
    cbn [snd].
    assert (Hfill : citation_updated c
              (if negb (truthy (pin_cite c))
                  && truthy (or_else (pin_cite c) (last_pin_cite st))
               then set_pin_cite (inherit c last (kv :: r))
                                 (or_else (pin_cite c) (last_pin_cite st))
               else inherit c last (kv :: r))).
    { apply inherit_pin_updated; [reflexivity | right; exact Ht |].
      intros H. apply andb_true_iff in H. destruct H as [H _].
      apply negb_true_iff in H. exact H. }
    destruct (int_truthy (get_start_page (kv :: r))
              && truthy (or_else (pin_cite c) (last_pin_cite st)));
      [|exact Hfill].
    destruct (get_start_page (kv :: r)) as [sp|]; [|apply citation_updated_refl].
    destruct (or_else (pin_cite c) (last_pin_cite st)) as [pin|] eqn:Hp;
      [|apply citation_updated_refl].
    destruct (is_valid_pin_cite pin sp); [exact Hfill | apply citation_updated_refl].
Qed.

Lemma process_citations_updated (citations : list Citation) :
  forall st, Forall2 citation_updated citations
                     (snd (process_citations st citations)).
Proof.
  induction citations as [|c rest IH]; intros st; cbn [process_citations].
  - constructor.
  - pose proof (process_citation_updated st c) as Hc.
    destruct (process_citation st c) as [st1 c1].
    specialize (IH st1). destruct (process_citations st1 rest) as [st2 rest1].
    cbn [snd] in *. constructor; assumption.
Qed.

Lemma propagate_sentences_updated (l : list Sentence) :
  forall st, Forall2 sentence_updated l (snd (propagate_sentences st l)).
Proof.
  induction l as [|s l IH]; intros st; cbn [propagate_sentences].
  - constructor.
  - pose proof (process_citations_updated (sent_citations s) st) as Hc.
    destruct (process_citations st (sent_citations s)) as [st1 cs].
    specialize (IH st1). destruct (propagate_sentences st1 l) as [st2 l1].
    cbn [snd] in *. constructor; [|exact IH].
    split; [reflexivity | exact Hc].
Qed.

Lemma propagate_paragraphs_updated (l : list Paragraph) :
  forall st, Forall2 paragraph_updated l (snd (propagate_paragraphs st l)).
Proof.
  induction l as [|p l IH]; intros st; cbn [propagate_paragraphs].
  - constructor.
  - destruct p as [i t cs|ss].
    + pose proof (process_citations_updated cs st) as Hc.
      destruct (process_citations st cs) as [st1 cs1].
      specialize (IH st1). destruct (propagate_paragraphs st1 l) as [st2 l1].
      cbn [snd] in *. constructor; [|exact IH].
      cbn. repeat split. exact Hc.
    + pose proof (propagate_sentences_updated ss st) as Hs.
      destruct (propagate_sentences st ss) as [st1 ss1].
      specialize (IH st1). destruct (propagate_paragraphs st1 l) as [st2 l1].
      cbn [snd] in *. constructor; [|exact IH]. exact Hs.
Qed.

(** X10. [propagate_cl_records] keeps the shape of the parsed argument
    (paragraphs, their kinds, intros, quote texts, sentence texts, the
    number and order of citations) and, in a citation, changes nothing
    but the record, the case name and the pin cite: a case name or a pin
    cite that is not empty is kept, a record is never taken away, and a
    citation that is neither a short form nor an Id. is left as it was. *)
Theorem propagation_only_fills_in (paragraphs : list Paragraph) :
  Forall2 paragraph_updated paragraphs (propagate_cl_records paragraphs).
Proof. apply propagate_paragraphs_updated. Qed.

(** *** One flat list of citations *)

Lemma process_citations_app (a b : list Citation) :
  forall st,
    process_citations st (a ++ b)
    = (fst (process_citations (fst (process_citations st a)) b),
       snd (process_citations st a)
       ++ snd (process_citations (fst (process_citations st a)) b)).
Proof.
  induction a as [|c a IH]; intros st; cbn [process_citations app fst snd].
  - destruct (process_citations st b); reflexivity.
  - destruct (process_citation st c) as [st1 c1]. rewrite IH.
    destruct (process_citations st1 a) as [st2 a1]. cbn [fst snd].
    reflexivity.
Qed.

Lemma propagate_sentences_flat (l : list Sentence) :
  forall st,
    (fst (propagate_sentences st l),
     flat_map sent_citations (snd (propagate_sentences st l)))
    = process_citations st (flat_map sent_citations l).
Proof.
  induction l as [|s l IH]; intros st;
    cbn [propagate_sentences flat_map]; [reflexivity|].
  rewrite process_citations_app.
  destruct (process_citations st (sent_citations s)) as [st1 cs].
  specialize (IH st1). destruct (propagate_sentences st1 l) as [st2 l1].
  cbn [fst snd flat_map sent_citations] in *. rewrite <- IH. reflexivity.
Qed.

Lemma propagate_paragraphs_flat (l : list Paragraph) :
  forall st,
    (fst (propagate_paragraphs st l),
     all_citations (snd (propagate_paragraphs st l)))
    = process_citations st (all_citations l).
Proof.
  unfold all_citations.
  induction l as [|p l IH]; intros st;
    cbn [propagate_paragraphs flat_map]; [reflexivity|].
  rewrite process_citations_app. destruct p as [i t cs|ss].
  - cbn [citations_of].
    destruct (process_citations st cs) as [st1 cs1].
    specialize (IH st1). destruct (propagate_paragraphs st1 l) as [st2 l1].
    cbn [fst snd flat_map citations_of] in *. rewrite <- IH. reflexivity.
  - cbn [citations_of]. rewrite <- propagate_sentences_flat.
    destruct (propagate_sentences st ss) as [st1 ss1].
    specialize (IH st1). destruct (propagate_paragraphs st1 l) as [st2 l1].
    cbn [fst snd flat_map citations_of] in *. rewrite <- IH. reflexivity.
Qed.

(** X11. Sentence and paragraph boundaries play no part: the citations
    of the result, in reading order, are those the resolver gives on the
    citations of the whole argument taken as one list. *)
Theorem propagation_ignores_boundaries (paragraphs : list Paragraph) :
  all_citations (propagate_cl_records paragraphs)
  = snd (process_citations initial_state (all_citations paragraphs)).
Proof.
  unfold propagate_cl_records.
  rewrite <- propagate_paragraphs_flat. reflexivity.
Qed.

(** *** Where a record comes from *)

Lemma state_from_more (seen : list Citation) (c : Citation) (st : PropagateState) :
  state_from seen st -> state_from (seen ++ [c]) st.
Proof.
  intros [Hf Hl]. split.
  - intros k f Hin. rewrite map_app. apply in_or_app. left. eapply Hf; eauto.
  - intros l H. rewrite map_app. apply in_or_app. left. apply Hl. exact H.
Qed.

Lemma cites_get_in (m : list (str * Citation)) (k : str) (f : Citation) :
  cites_get m k = Some f -> exists k', In (k', f) m.
Proof.
  induction m as [|[k' v] m IH]; cbn [cites_get]; [discriminate|].
  destruct (str_eqb k' k).
  - intros H. injection H as ->. exists k'. left. reflexivity.
  - intros H. destruct (IH H) as [k2 H2]. exists k2. right. exact H2.
Qed.

Lemma track_last_from (seen : list Citation) (c c1 : Citation) (st : PropagateState) :
  state_from (seen ++ [c]) st ->
  In (cl_record c1) (map cl_record (seen ++ [c])) ->
  state_from (seen ++ [c]) (track_last st c1).
Proof.
  intros [Hf Hl] Hin. unfold track_last.
  destruct (dict_truthy (cl_record c1)); [|split; assumption].
  split; cbn [full_cites_by_key last_cite]; [exact Hf|].
  intros l H. injection H as <-. exact Hin.
Qed.

Lemma record_from_in (seen : list Citation) (c c' : Citation) :
  record_from seen c c' -> In (cl_record c') (map cl_record (seen ++ [c])).
Proof.
  intros [H|H]; rewrite map_app; apply in_or_app.
  - right. left. symmetry. exact H.
  - left. exact H.
Qed.

Lemma process_citation_from (seen : list Citation) (st : PropagateState) (c : Citation) :
  state_from seen st ->
  record_from seen c (snd (process_citation st c))
  /\ state_from (seen ++ [c]) (fst (process_citation st c)).
Proof.
  intros Hst. pose proof Hst as [Hf Hl].
  pose proof (state_from_more c Hst) as Hst'.
  assert (Hown : record_from seen c c) by (left; reflexivity).
  unfold process_citation. destruct (cite_type c) eqn:Ht;
    cbn [fst snd]; try (split; assumption).
  - (* full *)
    split; [exact Hown|].
    apply track_last_from; [|apply record_from_in; exact Hown].
    destruct (cite_key (volume c) (reporter c)) as [key|]; [|exact Hst'].
    destruct Hst' as [Hf' Hl']. split; cbn [full_cites_by_key last_cite].
    + intros k f [H|H].
      * injection H as <- <-. apply record_from_in. exact Hown.
      * eapply Hf'; eauto.
    + exact Hl'.
  - (* short form *)
    assert (Hgoal : forall c1, record_from seen c c1 ->
               record_from seen c c1
               /\ state_from (seen ++ [c]) (track_last st c1)).
    { intros c1 H. split; [exact H|].
      apply track_last_from; [exact Hst' | apply record_from_in; exact H]. }
    apply Hgoal.
    destruct (cite_key (volume c) (reporter c)) as [key|]; [|exact Hown].
    destruct (cites_get (full_cites_by_key st) key) as [full_cite|] eqn:Hget;
      [|exact Hown].
    destruct (cl_record full_cite) as [[|kv r]|] eqn:Hr; try exact Hown.
    assert (Hin : record_from seen c (inherit c full_cite (kv :: r))).
    { right. cbn. rewrite <- Hr. apply cites_get_in in Hget.
      destruct Hget as [k' Hk']. eapply Hf; eauto. }
    destruct (int_truthy (get_start_page (kv :: r)) && truthy (page c));
      [|exact Hin].
    destruct (get_start_page (kv :: r)) as [sp|]; [|exact Hown].
    destruct (option_map int (page c)) as [[p|]|]; try exact Hown.
    destruct (p >=? sp)%Z; [exact Hin | exact Hown].
  - (* Id. *)
    destruct (last_cite st) as [last|] eqn:Hlast; cbn [fst snd];
      [|split; assumption].
    destruct (cl_record last) as [[|kv r]|] eqn:Hr; cbn [fst snd];
      try (split; assumption).
    split.
    + assert (Hin : forall b p,
                 record_from seen c
                   (if b : bool then set_pin_cite (inherit c last (kv :: r)) p
                    else inherit c last (kv :: r))).
      { intros b p. right. destruct b; cbn; rewrite <- Hr; apply Hl; reflexivity. }
      destruct (int_truthy (get_start_page (kv :: r))
                && truthy (or_else (pin_cite c) (last_pin_cite st)));
        [|apply Hin].
      destruct (get_start_page (kv :: r)) as [sp|]; [|exact Hown].
      destruct (or_else (pin_cite c) (last_pin_cite st)) as [pin|];
        [|exact Hown].
      destruct (is_valid_pin_cite pin sp); [apply Hin | exact Hown].
    + destruct Hst' as [Hf' Hl']. split; cbn [full_cites_by_key last_cite].
      * exact Hf'.
      * intros l H. apply Hl'. congruence.
Qed.

Lemma process_citations_from (citations : list Citation) :
  forall seen st,
    state_from seen st ->
    records_from_earlier seen citations (snd (process_citations st citations))
    /\ state_from (seen ++ citations) (fst (process_citations st citations)).
Proof.
  induction citations as [|c rest IH]; intros seen st Hst;
    cbn [process_citations].
  - cbn. rewrite app_nil_r. split; [exact I | exact Hst].
  - destruct (process_citation_from c Hst) as [Hc Hst1].
    destruct (process_citation st c) as [st1 c1]. cbn [fst snd] in *.
    destruct (IH _ _ Hst1) as [Hrest Hst2].
    destruct (process_citations st1 rest) as [st2 rest1]. cbn [fst snd] in *.
    split.
    + cbn [records_from_earlier]. split; [exact Hc | exact Hrest].
    + rewrite <- app_assoc in Hst2. exact Hst2.
Qed.

(** X12. The record of a citation after [propagate_cl_records] is the
    one it had or the record that a citation before it, in reading
    order, had in the input; no record comes from a later citation or
    from elsewhere. *)
Theorem records_come_from_earlier_citations (paragraphs : list Paragraph) :
  records_from_earlier [] (all_citations paragraphs)
                       (all_citations (propagate_cl_records paragraphs)).
Proof.
  unfold propagate_cl_records.
  pose proof (propagate_paragraphs_flat paragraphs initial_state) as Hflat.
  assert (H0 : state_from [] initial_state).
  { split; cbn; [intros k f [] | discriminate]. }
  destruct (process_citations_from (all_citations paragraphs) H0) as [H _].
  rewrite <- Hflat in H. exact H.
Qed.

(** *** Short forms *)

Lemma track_last_full_cites (st : PropagateState) (c : Citation) :
  full_cites_by_key (track_last st c) = full_cites_by_key st.
Proof. unfold track_last. destruct (dict_truthy (cl_record c)); reflexivity. Qed.

Lemma process_citation_keeps_key (key : str) (st : PropagateState) (c : Citation) :
  keeps_key key c = true ->
  cites_get (full_cites_by_key (fst (process_citation st c))) key
  = cites_get (full_cites_by_key st) key.
Proof.
  unfold keeps_key, process_citation. intros Hk.
  destruct (cite_type c); cbn [fst].
  - rewrite track_last_full_cites.
    destruct (cite_key (volume c) (reporter c)) as [k|]; [|reflexivity].
    cbn in Hk. apply negb_true_iff in Hk.
    cbn [full_cites_by_key cites_get]. rewrite Hk. reflexivity.
  - rewrite track_last_full_cites. reflexivity.
  - destruct (last_cite st) as [last|]; [|reflexivity].
    destruct (cl_record last) as [[|kv r]|]; reflexivity.
  - reflexivity.
  - reflexivity.
Qed.

Lemma process_citations_keeps_key (key : str) (mid : list Citation) :
  forall st,
    forallb (keeps_key key) mid = true ->
    cites_get (full_cites_by_key (fst (process_citations st mid))) key
    = cites_get (full_cites_by_key st) key.
Proof.
  induction mid as [|c mid IH]; intros st H; cbn [process_citations forallb] in *.
  - reflexivity.
  - apply andb_true_iff in H. destruct H as [Hc Hmid].
    pose proof (process_citation_keeps_key key st c Hc) as H1.
    destruct (process_citation st c) as [st1 c1]. cbn [fst] in H1.
    specialize (IH st1 Hmid).
    destruct (process_citations st1 mid) as [st2 mid1]. cbn [fst] in *.
    congruence.
Qed.

Lemma process_citations_length (citations : list Citation) :
  forall st, List.length (snd (process_citations st citations))
             = List.length citations.
Proof.
  induction citations as [|c rest IH]; intros st; cbn [process_citations].
  - reflexivity.
  - destruct (process_citation st c) as [st1 c1]. specialize (IH st1).
    destruct (process_citations st1 rest) as [st2 rest1]. cbn [snd] in *.
    cbn [List.length]. rewrite IH. reflexivity.
Qed.

Lemma int_nonempty (p : str) (n : Z) : int p = Some n -> truthy (Some p) = true.
Proof. destruct p; [vm_compute; discriminate | reflexivity]. Qed.

(** X13. A short form is resolved against the latest full citation of
    its volume and reporter, whatever was stored before: when that
    citation has a record with a start page other than 0 and the page of
    the short form is a number, the short form takes the record (and the
    case name, if it has none) exactly when its page is not below the
    start page, with no upper limit, and is left as it was otherwise. *)
Theorem short_form_takes_latest_full_citation
        (st : PropagateState) (full short : Citation) (mid : list Citation)
        (key : str) (r : dict) (start_page n : Z) (p : str) :
  cite_type full = full_case ->
  cite_key (volume full) (reporter full) = Some key ->
  cl_record full = Some r -> dict_truthy (Some r) = true ->
  get_start_page r = Some start_page -> start_page <> 0%Z ->
  forallb (keeps_key key) mid = true ->
  cite_type short = short_case ->
  cite_key (volume short) (reporter short) = Some key ->
  page short = Some p -> int p = Some n ->
  exists mid',
    snd (process_citations st (full :: mid ++ [short]))
    = full :: mid'
      ++ [if (start_page <=? n)%Z then inherit short full r else short]
    /\ List.length mid' = List.length mid.
Proof.
  intros Hfull Hkey Hr Hrt Hsp Hnz Hmid Hshort Hkey' Hp Hn.
  change (full :: mid ++ [short]) with ([full] ++ mid ++ [short]).
  rewrite !process_citations_app.
  cbn [snd fst].
  set (st1 := fst (process_citations st [full])).
  assert (Hst1 : cites_get (full_cites_by_key st1) key = Some full).
  { subst st1. cbn [process_citations]. unfold process_citation.
    rewrite Hfull, Hkey. cbn [fst]. rewrite track_last_full_cites.
    cbn [full_cites_by_key cites_get]. rewrite str_eqb_refl. reflexivity. }
  assert (Hfirst : snd (process_citations st [full]) = [full]).
  { cbn [process_citations]. unfold process_citation. rewrite Hfull. reflexivity. }
  rewrite Hfirst.
  set (st2 := fst (process_citations st1 mid)).
  assert (Hst2 : cites_get (full_cites_by_key st2) key = Some full).
  { subst st2. rewrite process_citations_keeps_key by exact Hmid. exact Hst1. }
  exists (snd (process_citations st1 mid)).
  split; [|apply process_citations_length].
  cbn [app]. do 2 f_equal.
  cbn [process_citations]. unfold process_citation. rewrite Hshort, Hkey', Hst2, Hr.
  destruct r as [|kv r']; [discriminate|].
  rewrite Hsp, Hp. cbn [option_map]. rewrite Hn, (int_nonempty _ Hn).
  cbn [int_truthy]. 
  replace (negb (start_page =? 0)%Z) with true
    by (symmetry; apply negb_true_iff, Z.eqb_neq; exact Hnz).
  cbn [andb snd].
  rewrite Z.geb_leb. reflexivity.
Qed.

Lemma short_form_takes_latest_full_citation_witness :
  exists mid',
    snd (process_citations initial_state
           (smith_full :: [id_at "at 105"] ++ [smith_short]))
    = smith_full :: mid'
      ++ [if (100 <=? 9000)%Z then inherit smith_short smith_full smith_record
          else smith_short]
    /\ List.length mid' = 1.
Proof.
  apply (@short_form_takes_latest_full_citation initial_state smith_full
           smith_short [id_at "at 105"] (py "184|S.W.3d") smith_record
           100%Z 9000%Z (py "9000"));
    try (vm_compute; reflexivity).
  vm_compute. discriminate.
Defined.

End Propagation.

(* --------------------------------------------------------------------- *)
(** ** Quotations, signals and spans of citation_analyzer.py *)
(* --------------------------------------------------------------------- *)

Section Quotations.
Import Analyzer Invariants.

Lemma ordered_from_le (i j : nat) (l : list Quotation) :
  i <= j -> ordered_from j l -> ordered_from i l.
Proof. destruct l as [|q l]; cbn; [auto|]. intros H [H1 H2]. split; [lia|exact H2]. Qed.

Lemma no_quote_mark_rev (s : str) : no_quote_mark (rev s) = no_quote_mark s.
Proof.
  unfold no_quote_mark. induction s as [|c s IH]; [reflexivity|].
  cbn [rev forallb]. rewrite forallb_app, IH. cbn [forallb].
  rewrite andb_true_r. apply andb_comm.
Qed.

Lemma slice_middle (A : Type) (pre0 mid post : list A) :
  firstn (List.length pre0 + List.length mid - List.length pre0)
         (skipn (List.length pre0) (pre0 ++ mid ++ post)) = mid.
Proof.
  rewrite skipn_app, skipn_all, Nat.sub_diag. cbn [skipn app].
  replace (List.length pre0 + List.length mid - List.length pre0)
    with (List.length mid + 0) by lia.
  rewrite firstn_app_2. cbn [firstn]. apply app_nil_r.
Qed.

Lemma quotations_scan_spec (s : str) :
  forall pre open,
    scan_state pre open ->
    Forall (quotation_in (pre ++ s)) (quotations_scan s (len pre) open)
    /\ ordered_from (scan_from pre open) (quotations_scan s (len pre) open).
Proof.
  induction s as [|c s IH]; intros pre open Hst; cbn [quotations_scan].
  - split; [constructor | exact I].
  - assert (Hlen : S (len pre) = len (pre ++ [c])).
    { unfold len. rewrite length_app. cbn. lia. }
    assert (Htext : pre ++ c :: s = (pre ++ [c]) ++ s).
    { rewrite <- app_assoc. reflexivity. }
    rewrite Htext, Hlen.
    destruct open as [[start run]|].
    + destruct Hst as (pre0 & a & Hpre & Hstart & Ha & Hrun).
      assert (Hle : start <= len pre).
      { subst pre start. unfold len. rewrite length_app. lia. }
      destruct (is_quote_mark c) eqn:Hc.
      * destruct run as [|r run'].
        -- destruct (IH (pre ++ [c]) (Some (len pre, []))) as [H1 H2].
           { exists pre, c. repeat split; auto. }
           split; [exact H1|].
           cbn [scan_from] in *. eapply ordered_from_le; [exact Hle | exact H2].
        -- destruct (IH (pre ++ [c]) None I) as [H1 H2].
           split.
           ++ constructor; [|exact H1].
              unfold quotation_in. cbn [q_text q_start q_end].
              assert (Hlp : len (pre ++ [c]) = start + len (rev (r :: run')) + 2).
              { subst pre start. unfold len. cbn [rev].
                repeat (rewrite length_app; cbn [List.length]). lia. }
              repeat split.
              ** intros H. apply (f_equal (@List.length _)) in H.
                 rewrite length_rev in H. discriminate.
              ** rewrite no_quote_mark_rev. exact Hrun.
              ** exact Hlp.
              ** exists a, c. repeat split; auto.
                 assert (Ht : (pre ++ [c]) ++ s
                              = pre0 ++ (a :: rev (r :: run') ++ [c]) ++ s).
                 { rewrite Hpre. repeat (rewrite <- app_assoc; cbn [app]).
                   reflexivity. }
                 unfold slice. rewrite Hlp, Ht, <- Hstart.
                 replace (len pre0 + len (rev (r :: run')) + 2 - len pre0)
                   with (List.length pre0
                         + List.length (a :: rev (r :: run') ++ [c])
                         - List.length pre0).
                 { apply slice_middle. }
                 unfold len. cbn [List.length rev].
                 repeat (rewrite length_app; cbn [List.length]). lia.
           ++ cbn [scan_from ordered_from q_start q_end].
              split; [lia|]. exact H2.
      * destruct (IH (pre ++ [c]) (Some (start, c :: run))) as [H1 H2].
        { exists pre0, a. repeat split; auto.
          - subst pre. cbn [rev]. rewrite <- app_assoc. reflexivity.
          - unfold no_quote_mark in *. cbn [forallb]. rewrite Hc, Hrun. reflexivity. }
        split; [exact H1 | exact H2].
    + destruct (is_quote_mark c) eqn:Hc.
      * destruct (IH (pre ++ [c]) (Some (len pre, []))) as [H1 H2].
        { exists pre, c. repeat split; auto. }
        split; [exact H1 | exact H2].
      * destruct (IH (pre ++ [c]) None I) as [H1 H2].
        split; [exact H1|]. cbn [scan_from] in *.
        eapply ordered_from_le; [|exact H2]. lia.
Qed.

(** X14. The positions that [_find_quotations] reports index the text:
    from start to end stand an opening mark, the quoted characters and a
    closing mark; the quoted text is not empty and holds no quotation
    mark; the quotations come in order and do not overlap. *)
Theorem quotations_index_the_text (text : str) :
  Forall (quotation_in text) (_find_quotations text)
  /\ ordered_from 0 (_find_quotations text).
Proof.
  unfold _find_quotations.
  exact (quotations_scan_spec text [] None I).
Qed.

End Quotations.

Section Signals.
Import Analyzer.





End Signals.

Section Spans.
Import Analyzer.

Lemma antecedent_search_spec (antecedent s : str) :
  forall prev i m,
    antecedent_search antecedent prev s i = Some m ->
    i <= m /\ m - i <= len s
    /\ istartswith (skipn (m - i) s) antecedent = true.
Proof.
  induction s as [|c s IH]; intros prev i m H; cbn [antecedent_search] in H.
  - destruct (word_boundary prev [] && antecedent_here antecedent []) eqn:E;
      [|discriminate].
    injection H as <-. rewrite Nat.sub_diag. cbn [skipn].
    apply andb_true_iff in E. destruct E as [_ E]. unfold antecedent_here in E.
    apply andb_true_iff in E. destruct E as [E _].
    split; [lia|]. split; [lia | exact E].
  - destruct (word_boundary prev (c :: s) && antecedent_here antecedent (c :: s))
      eqn:E.
    + injection H as <-. rewrite Nat.sub_diag. cbn [skipn].
      apply andb_true_iff in E. destruct E as [_ E]. unfold antecedent_here in E.
      apply andb_true_iff in E. destruct E as [E _].
      split; [lia|]. split; [lia | exact E].
    + destruct (IH _ _ _ H) as (H1 & H2 & H3).
      split; [lia|]. cbn [len List.length]. unfold len in H2. split; [lia|].
      replace (m - i) with (S (m - S i)) by lia. exact H3.
Qed.

(** X16. The span of [_get_full_citation_span] is the span of the
    recogniser, or the full span it gives for a full or short case
    citation, or, for a short case citation without one, a span with the
    same end whose start lies at most 100 characters further left, where
    the text reads the antecedent name (ignoring case). *)
Theorem span_reaches_back_to_the_antecedent (cite : Cite) (text : str) :
  let span := _get_full_citation_span cite text in
  span = (span_start cite, span_end cite)
  \/ ((cite_class cite = FullCaseCitation \/ cite_class cite = ShortCaseCitation)
      /\ full_span_or cite = Some span)
  \/ (cite_class cite = ShortCaseCitation
      /\ full_span_or cite = None
      /\ snd span = span_end cite
      /\ fst span <= span_start cite
      /\ span_start cite - fst span <= 100
      /\ exists antecedent,
           antecedent_guess cite = Some antecedent /\ antecedent <> []
           /\ istartswith (slice text (fst span) (span_start cite)) antecedent
              = true).
Proof.
  unfold _get_full_citation_span.
  destruct (cite_class cite) eqn:Hc; try (left; reflexivity).
  - destruct (full_span_or cite) as [sp|] eqn:Hf; [|left; reflexivity].
    right. left. split; [left|]; reflexivity.
  - destruct (full_span_or cite) as [sp|] eqn:Hf.
    { right. left. split; [right|]; reflexivity. }
    destruct (antecedent_guess cite) as [[|a0 antecedent]|] eqn:Ha;
      try (left; reflexivity).
    set (lookback := Nat.min (span_start cite) 100).
    set (from := span_start cite - lookback).
    destruct (antecedent_search (a0 :: antecedent) None
                (slice text from (span_start cite)) 0) as [m|] eqn:Hm;
      [|left; reflexivity].
    right. right.
    destruct (antecedent_search_spec _ _ _ _ Hm) as (_ & Hle & Hst).
    rewrite Nat.sub_0_r in Hle, Hst.
    assert (Hlb : lookback <= span_start cite) by (subst lookback; lia).
    assert (Hlb' : lookback <= 100) by (subst lookback; lia).
    assert (Hlen : len (slice text from (span_start cite)) <= lookback).
    { unfold slice, len. rewrite length_firstn. subst from. lia. }
    cbn [fst snd].
    repeat split; try reflexivity; try (subst from; lia).
    exists (a0 :: antecedent). split; [reflexivity|]. split; [discriminate|].
    replace (slice text (from + m) (span_start cite))
      with (skipn m (slice text from (span_start cite))); [exact Hst|].
    unfold slice. rewrite skipn_firstn_comm, skipn_skipn.
    f_equal; [subst from; lia | f_equal; lia].
Qed.

End Spans.

Section SentenceStart.
Import Analyzer.

Lemma nth_error_suffix (st ws after : str) (c : char) (r : str) :
  st = ws ++ after -> after = c :: r ->
  nth_error st (len st - len after) = Some c.
Proof.
  intros -> ->. unfold len. rewrite length_app.
  replace (List.length ws + List.length (c :: r) - List.length (c :: r))
    with (List.length ws + 0) by lia.
  rewrite nth_error_app2 by lia.
  replace (List.length ws + 0 - List.length ws) with 0 by lia. reflexivity.
Qed.

Lemma char_in_punct_not_space (c : char) :
  char_in c (py ".!?") = true -> isspace c = false.
Proof.
  unfold char_in. cbn [py map list_ascii_of_string existsb].
  intros H. repeat (apply orb_true_iff in H; destruct H as [H|H]);
    try discriminate; apply N.eqb_eq in H; subst c; reflexivity.
Qed.

Lemma sentence_start_loop_spec (st : str) :
  forall k b,
    k <= len st ->
    (1 <= b -> exists j c, k <= j /\ nth_error st j = Some c /\ isspace c = false) ->
    let p := sentence_start_loop st k b in
    p = 0 \/ exists c, nth_error st p = Some c /\ isupper c = true.
Proof.
  induction k as [|i IH]; intros b Hk Hb; cbn [sentence_start_loop].
  - left. reflexivity.
  - assert (Hi : i <= len st) by lia.
    destruct (nth_error st i) as [char|] eqn:Hchar; [|apply IH; auto].
    2: { intros H. destruct (Hb H) as (j & c & Hj & Hc & Hs).
         exists j, c. split; [lia|]. split; assumption. }
    assert (Hkeep : 1 <= b ->
              exists j c, i <= j /\ nth_error st j = Some c /\ isspace c = false).
    { intros H. destruct (Hb H) as (j & c & Hj & Hc & Hs).
      exists j, c. split; [lia|]. split; assumption. }
    destruct (char_in char (py ".!?")) eqn:Hp; [|apply IH; auto].
    destruct (lstrip (slice_from st (i + 1))) as [|c r] eqn:Hafter.
    + (* nothing after the punctuation *)
      destruct (negb (ends_with_abbrev st i)); [|apply IH; auto].
      destruct (b + 1 =? 2) eqn:Hb2.
      * exfalso. apply Nat.eqb_eq in Hb2.
        destruct Hb as (j & c & Hj & Hc & Hs); [lia|].
        destruct (lstrip_by_spec isspace (slice_from st (i + 1))) as (ws & Hws & Hall).
        unfold lstrip in Hafter. rewrite Hafter, app_nil_r in Hws.
        unfold slice_from in Hws.
        assert (Hin : In c ws).
        { rewrite <- Hws. apply nth_error_In with (n := j - (i + 1)).
          rewrite nth_error_skipn. replace (i + 1 + (j - (i + 1))) with j by lia.
          exact Hc. }
        rewrite forallb_forall in Hall. rewrite (Hall _ Hin) in Hs. discriminate.
      * apply IH; [exact Hi|]. intros _. exists i, char.
        split; [lia|]. split; [exact Hchar | apply char_in_punct_not_space; exact Hp].
    + destruct (isupper c) eqn:Hup; [|apply IH; auto].
      destruct (negb (ends_with_abbrev st i)); [|apply IH; auto].
      destruct (b + 1 =? 2).
      * right. exists c. split; [|exact Hup].
        destruct (lstrip_by_spec isspace (slice_from st (i + 1))) as (ws & Hws & _).
        unfold lstrip in Hafter. rewrite Hafter in Hws. unfold slice_from in Hws.
        apply nth_error_suffix with (ws := firstn (i + 1) st ++ ws) (r := r);
          [|reflexivity].
        rewrite <- app_assoc, <- Hws. symmetry. apply firstn_skipn.
      * apply IH; [exact Hi|]. intros _. exists i, char.
        split; [lia|]. split; [exact Hchar | apply char_in_punct_not_space; exact Hp].
Qed.

(** X17. [_find_sentence_start] returns 0 or a position before
    [end_pos] at which the text has an upper-case letter. *)
Theorem sentence_start_at_capital (text : str) (end_pos : nat) :
  let p := _find_sentence_start text end_pos in
  p = 0
  \/ (p < end_pos /\ exists c, nth_error text p = Some c /\ isupper c = true).
Proof.
  unfold _find_sentence_start.
  set (st := slice text 0 end_pos).
  destruct (@sentence_start_loop_spec st (len st) 0 (le_n _)) as [H|(c & Hc & Hup)].
  - intros H. lia.
  - left. exact H.
  - right. subst st. unfold slice in *. rewrite Nat.sub_0_r in *. cbn [skipn] in *.
    set (p := sentence_start_loop (firstn end_pos text) (len (firstn end_pos text)) 0) in *.
    assert (Hlt : p < end_pos).
    { assert (p < List.length (firstn end_pos text)) as H
        by (apply nth_error_Some; congruence).
      rewrite length_firstn in H. lia. }
    split; [exact Hlt|]. exists c. split; [|exact Hup].
    rewrite nth_error_firstn in Hc.
    destruct (p <? end_pos) eqn:E; [exact Hc|].
    apply Nat.ltb_ge in E. lia.
Qed.

End SentenceStart.

(* --------------------------------------------------------------------- *)
(** ** The report of brief_processor.py *)
(* --------------------------------------------------------------------- *)

Section Report.
Import Analyzer Processor Invariants.

Variable extract_section_with_blockquotes : str -> str -> Exception + option SectionData.
Variable normalize_text : str -> str.
Variable get_citations : str -> list Cite.

Lemma step_coherent (text : str) (st : LoopState) (cite : Cite) :
  coherent (snd (step text st cite)) /\ block_quote (snd (step text st cite)) = None.
Proof.
  unfold step.
  destruct (_get_full_citation_span cite text) as [start_pos end_pos].
  destruct (clean_preceding _) as [pt sg].
  destruct (attribute pt (last_proposition st) (group_counter st))
    as [[[pt' sc] lp] g].
  cbn [snd]. unfold coherent.
  cbn [has_quotation quotations content_type block_quote].
  destruct (_find_quotations pt') as [|q qs]; repeat split; discriminate.
Qed.

Lemma citations_loop_coherent (text : str) (found : list Cite) :
  forall st, Forall (fun item => coherent item /\ block_quote item = None)
                    (citations_loop text st found).
Proof.
  induction found as [|cite rest IH]; intros st; [constructor|].
  rewrite citations_loop_cons. constructor; [apply step_coherent | apply IH].
Qed.

Lemma link_item_coherent (item : Item) (pn : str) (bqs : list BlockQuote) :
  coherent item -> coherent (link_item item pn bqs).
Proof.
  intros H. rewrite link_item_first.
  destruct (List.find _ bqs) as [bq|]; [|exact H].
  unfold coherent, linked. cbn. repeat split. discriminate.
Qed.

Lemma count_types_add_up (l : list Item) :
  List.length l
  = count_type STATEMENT l + count_type QUOTATION l + count_type BLOCK_QUOTATION l.
Proof.
  unfold count_type. induction l as [|item l IH]; [reflexivity|].
  cbn [filter List.length]. destruct (content_type item); cbn; lia.
Qed.

Lemma count_block_linked (l : list Item) :
  Forall coherent l -> count_type BLOCK_QUOTATION l = List.length (filter is_linked l).
Proof.
  unfold count_type. induction 1 as [|item l [_ Hc] _ IH]; [reflexivity|].
  cbn [filter]. unfold is_linked at 1.
  destruct (content_type item); destruct Hc as [Hq Hb]; cbn [ContentType_eqb].
  - rewrite Hb. exact IH.
  - rewrite Hb. exact IH.
  - destruct (block_quote item); [|contradiction]. cbn [List.length]. f_equal. exact IH.
Qed.

Lemma count_quotation_flag (l : list Item) :
  Forall coherent l -> count_type QUOTATION l = List.length (filter has_quotation l).
Proof.
  unfold count_type. induction 1 as [|item l [Hh Hc] _ IH]; [reflexivity|].
  cbn [filter]. rewrite Hh.
  destruct (content_type item); destruct Hc as [Hq Hb]; cbn [ContentType_eqb].
  - rewrite Hq. exact IH.
  - destruct (quotations item); [contradiction|]. cbn. f_equal. exact IH.
  - rewrite Hq. exact IH.
Qed.

(** X18. In the report of [process_brief] every item is coherent: a
    statement has no quotation and no block quote, a quotation has
    quotations and no block quote, a block quotation has a block quote
    and no quotations, and the flag [has_quotation] says whether there
    are quotations.  The totals of the metadata add up to the number of
    citations, the block-quotation total counts the linked items and the
    inline total the items flagged. *)
Theorem report_is_coherent :
  match process_brief extract_section_with_blockquotes normalize_text get_citations with
  | inr result =>
      let m := metadata result in
      Forall coherent (items result)
      /\ total_citations m = List.length (items result)
      /\ total_citations m
         = total_statements m + total_inline_quotations m + total_block_quotations m
      /\ total_block_quotations m = List.length (filter is_linked (items result))
      /\ total_inline_quotations m
         = List.length (filter has_quotation (items result))
  | inl _ => True
  end.
Proof.
  unfold process_brief.
  destruct (find_argument_section extract_section_with_blockquotes)
    as [e|[argument_section|]]; try exact I.
  cbn [metadata items total_citations total_statements total_inline_quotations
       total_block_quotations].
  set (out := _link_block_quotes_to_citations _ _).
  assert (Hco : Forall coherent out).
  { subst out. unfold _link_block_quotes_to_citations, extract_citations_with_context.
    apply Forall_map. eapply Forall_impl; [|apply citations_loop_coherent].
    intros item [H _]. apply link_item_coherent. exact H. }
  split; [exact Hco|]. split; [reflexivity|].
  split; [apply count_types_add_up|].
  split; [apply count_block_linked | apply count_quotation_flag]; exact Hco.
Qed.

End Report.

Section Linking.
Import Analyzer Processor Invariants.

Lemma link_item_text (item : Item) (pn : str) (bqs : list BlockQuote) :
  preceding_text (link_item item pn bqs) = preceding_text item.
Proof.
  rewrite link_item_first. destruct (List.find _ bqs); reflexivity.
Qed.

(** X19. Linking is idempotent: a second run of
    [_link_block_quotes_to_citations] with the same block quotes leaves
    every item as the first run made it. *)
Theorem linking_twice_changes_nothing (items : list Item) (block_quotes : list BlockQuote) :
  _link_block_quotes_to_citations
    (_link_block_quotes_to_citations items block_quotes) block_quotes
  = _link_block_quotes_to_citations items block_quotes.
Proof.
  unfold _link_block_quotes_to_citations. rewrite map_map.
  apply map_ext. intros item. rewrite link_item_text.
  rewrite !link_item_first.
  destruct (List.find _ block_quotes) as [bq|]; reflexivity.
Qed.

End Linking.

(* --------------------------------------------------------------------- *)
(** ** Signals, parentheticals and propositions of parse_brief.py *)
(* --------------------------------------------------------------------- *)

Section SignalBefore.
Import ParseBrief.

Lemma signals_sorted :
  StronglySorted (fun a b => len b <= len a) SIGNALS_SORTED.
Proof.
  vm_compute. repeat (constructor; try (cbv; lia)).
Qed.

Lemma signals_sorted_same (s : str) : In s SIGNALS <-> In s SIGNALS_SORTED.
Proof.
  assert (H1 : forallb (fun x => str_in x SIGNALS_SORTED) SIGNALS = true)
    by (vm_compute; reflexivity).
  assert (H2 : forallb (fun x => str_in x SIGNALS) SIGNALS_SORTED = true)
    by (vm_compute; reflexivity).
  rewrite forallb_forall in H1, H2.
  split; intros H; [apply H1 in H | apply H2 in H];
    unfold str_in in H; apply existsb_exists in H;
    destruct H as (y & Hy & He); apply str_eqb_eq in He; subst y; exact Hy.
Qed.

Lemma find_longest (f : str -> bool) (l : list str) :
  StronglySorted (fun a b => len b <= len a) l ->
  match List.find f l with
  | Some x => In x l /\ f x = true
              /\ Forall (fun y => f y = true -> len y <= len x) l
  | None => Forall (fun y => f y = false) l
  end.
Proof.
  induction 1 as [|a l Hs IH Hall]; cbn [List.find]; [constructor|].
  destruct (f a) eqn:Ha.
  - split; [left; reflexivity|]. split; [exact Ha|].
    constructor; [intros _; lia|].
    eapply Forall_impl; [|exact Hall]. cbn. intros y Hy _. exact Hy.
  - destruct (List.find f l) as [x|].
    + destruct IH as (Hin & Hx & Hle). split; [right; exact Hin|].
      split; [exact Hx|]. constructor; [congruence | exact Hle].
    + constructor; assumption.
Qed.

(** X20. [_find_signal_before] reports the longest signal that the
    text before the position ends with (lower case, trailing whitespace
    apart, at most 30 characters back): the result is one of [SIGNALS],
    the text ends with it, and no signal the text ends with is longer;
    [None] means that the text ends with no signal. *)
Theorem longest_signal_wins (text : str) (pos : nat) :
  let preceding := lower (rstrip (slice text (pos - Nat.min pos 30) pos)) in
  match _find_signal_before text pos with
  | Some signal =>
      In signal SIGNALS
      /\ endswith preceding (lower signal) = true
      /\ Forall (fun other => endswith preceding (lower other) = true ->
                              len other <= len signal) SIGNALS
  | None =>
      Forall (fun other => endswith preceding (lower other) = false) SIGNALS
  end.
Proof.
  intros preceding. unfold _find_signal_before. fold preceding.
  pose proof (find_longest (fun signal => endswith preceding (lower signal))
                           signals_sorted) as H.
  destruct (List.find _ SIGNALS_SORTED) as [signal|].
  - destruct H as (Hin & Hs & Hle). split; [apply signals_sorted_same; exact Hin|].
    split; [exact Hs|]. apply Forall_forall. intros other Ho.
    rewrite Forall_forall in Hle. apply Hle. apply signals_sorted_same. exact Ho.
  - apply Forall_forall. intros other Ho.
    rewrite Forall_forall in H. apply H. apply signals_sorted_same. exact Ho.
Qed.

End SignalBefore.

Section Balanced.
Import Invariants.

Lemma close_paren_spec (todo : str) :
  forall i d j,
    ParseBrief.close_paren todo i (S d) = (0, j) ->
    exists inner rest : str,
      todo = inner ++ 41%N :: rest /\ j = i + len inner + 1
      /\ depth_after inner d = Some 0.
Proof.
  induction todo as [|c todo IH]; intros i d j H; cbn [ParseBrief.close_paren] in H.
  - discriminate.
  - destruct (c =? 40)%N eqn:Hopen.
    + destruct (IH _ _ _ H) as (inner & rest & -> & -> & Hd).
      exists (c :: inner), rest. cbn [app len List.length depth_after].
      rewrite Hopen. unfold len. split; [reflexivity|]. split; [lia | exact Hd].
    + destruct (c =? 41)%N eqn:Hclose.
      * destruct d as [|d].
        -- rewrite close_paren_done in H. injection H as <-.
           apply N.eqb_eq in Hclose. subst c.
           exists [], todo. cbn. split; [reflexivity|]. split; [lia | reflexivity].
        -- destruct (IH _ _ _ H) as (inner & rest & -> & -> & Hd).
           exists (c :: inner), rest. cbn [app len List.length depth_after].
           rewrite Hopen, Hclose. unfold len.
           split; [reflexivity|]. split; [lia | exact Hd].
      * destruct (IH _ _ _ H) as (inner & rest & -> & -> & Hd).
        exists (c :: inner), rest. cbn [app len List.length depth_after].
        rewrite Hopen, Hclose. unfold len.
        split; [reflexivity|]. split; [lia | exact Hd].
Qed.

Lemma depth_after_app (a b : str) :
  forall d, depth_after (a ++ b) d
            = match depth_after a d with
              | Some d' => depth_after b d'
              | None => None
              end.
Proof.
  induction a as [|c a IH]; intros d; cbn [app depth_after]; [reflexivity|].
  destruct (c =? 40)%N; [apply IH|].
  destruct (c =? 41)%N; [|apply IH].
  destruct d; [reflexivity | apply IH].
Qed.

Lemma depth_after_space (ws : str) :
  forallb isspace ws = true -> forall d, depth_after ws d = Some d.
Proof.
  induction ws as [|c ws IH]; intros H d; cbn [depth_after]; [reflexivity|].
  cbn [forallb] in H. apply andb_true_iff in H. destruct H as [Hc Hws].
  destruct (c =? 40)%N eqn:E1.
  { apply N.eqb_eq in E1. subst c. discriminate. }
  destruct (c =? 41)%N eqn:E2.
  { apply N.eqb_eq in E2. subst c. discriminate. }
  apply IH. exact Hws.
Qed.

Lemma depth_after_strip (s : str) (d : nat) :
  depth_after (strip s) d = depth_after s d.
Proof.
  unfold strip, strip_by.
  destruct (lstrip_by_spec isspace s) as (w1 & H1 & Hw1).
  destruct (@rstrip_by_decompose isspace (lstrip_by isspace s)) as (w2 & H2 & Hw2).
  set (core := rstrip_by isspace (lstrip_by isspace s)) in *.
  transitivity (depth_after (w1 ++ core ++ w2) d).
  - rewrite depth_after_app, (depth_after_space _ Hw1), depth_after_app.
    destruct (depth_after core d) as [d'|]; [|reflexivity].
    rewrite (depth_after_space _ Hw2). reflexivity.
  - f_equal. rewrite <- H2. symmetry. exact H1.
Qed.

(** The text between [start] and the close parenthesis found from there. *)
Lemma closed_content (text : str) (start i : nat) :
  ParseBrief.close_paren (slice_from text start) start 1 = (0, i) ->
  balanced (strip (slice text start (i - 1)))
  /\ start < i /\ nth_error text (i - 1) = Some 41%N.
Proof.
  intros H. destruct (close_paren_spec _ _ _ H) as (inner & rest & Ht & -> & Hd).
  unfold slice_from in Ht.
  assert (Hstart : start <= List.length text).
  { destruct (Nat.le_gt_cases start (List.length text)) as [Hle|Hgt]; [exact Hle|].
    rewrite skipn_all2 in Ht by lia. destruct inner; discriminate. }
  split; [|split; [lia|]].
  - unfold balanced. rewrite depth_after_strip. unfold slice.
    replace (start + len inner + 1 - 1 - start) with (List.length inner + 0)
      by (unfold len; lia).
    rewrite Ht, firstn_app_2. cbn [firstn]. rewrite app_nil_r. exact Hd.
  - rewrite <- (firstn_skipn start text), Ht.
    rewrite nth_error_app2 by (rewrite length_firstn; unfold len; lia).
    rewrite length_firstn.
    replace (start + len inner + 1 - 1 - Nat.min start (List.length text))
      with (List.length inner + 0) by (unfold len; lia).
    rewrite nth_error_app2 by lia.
    replace (List.length inner + 0 - List.length inner) with 0 by lia.
    reflexivity.
Qed.

(** X21. The parenthetical that [_find_parenthetical_after] returns,
    in parse_brief.py and in extract_propositions.py, has balanced
    parentheses: the scan stops at the close parenthesis that matches
    the open one.  In extract_propositions.py the positions returned are
    those of the open parenthesis and of the character after the close
    one, and the content is the stripped text between them. *)
Theorem parentheticals_are_balanced (text : str) (pos : nat) :
  match ParseBrief._find_parenthetical_after text pos with
  | Some content => balanced content
  | None => True
  end
  /\ match Extractor._find_parenthetical_after text pos with
     | Some (content, paren_start, paren_end) =>
         balanced content
         /\ pos <= paren_start < paren_end
         /\ nth_error text paren_start = Some 40%N
         /\ nth_error text (paren_end - 1) = Some 41%N
         /\ content = strip (slice text (paren_start + 1) (paren_end - 1))
     | None => True
     end.
Proof.
  split.
  - unfold ParseBrief._find_parenthetical_after.
    destruct (ParseBrief.match_open_paren _ 0) as [match_end|]; [|exact I].
    destruct (existsb _ ParseBrief.PAREN_VERBS); [|exact I].
    destruct (ParseBrief.close_paren _ _ 1) as [depth i] eqn:E.
    destruct (depth =? 0) eqn:Hd; [|exact I].
    apply Nat.eqb_eq in Hd. subst depth.
    apply (closed_content _ _ E).
  - unfold Extractor._find_parenthetical_after.
    destruct (ParseBrief.match_open_paren _ 0) as [match_end|] eqn:Hm; [|exact I].
    destruct (existsb _ Extractor.PAREN_VERBS); [|exact I].
    destruct (ParseBrief.close_paren _ _ 1) as [depth i] eqn:E.
    destruct (depth =? 0) eqn:Hd; cbn [negb]; [|exact I].
    apply Nat.eqb_eq in Hd. subst depth.
    destruct (closed_content _ _ E) as (Hb & Hlt & Hclose).
    destruct (match_open_paren_spec _ _ Hm) as (ws & rest & Hs & Hws & ->).
    cbn [Nat.add] in *.
    split; [exact Hb|].
    split; [clear - Hlt; unfold len in *; lia|].
    split; [|split; [exact Hclose | reflexivity]].
    replace (pos + (len ws + 1) - 1) with (pos + len ws) by (unfold len; lia).
    unfold slice in Hs.
    assert (Hsk : nth_error (skipn pos text) (len ws) = Some 40%N).
    { rewrite <- (firstn_skipn (pos + 50 - pos) (skipn pos text)), Hs.
      rewrite <- app_assoc. rewrite nth_error_app2 by apply le_n.
      unfold len. rewrite Nat.sub_diag. reflexivity. }
    rewrite nth_error_skipn in Hsk. exact Hsk.
Qed.

End Balanced.

Section WellFormed.
Import ParseBrief Invariants.

Lemma well_formed_incl (cited cited' : list Citation) (p : Proposition) :
  incl cited cited' -> well_formed_proposition cited p ->
  well_formed_proposition cited' p.
Proof.
  intros Hi (H1 & H2 & H3 & H4). repeat split; auto.
  eapply incl_tran; eauto.
Qed.

Lemma sentence_propositions_well_formed (sent : Sentence) (prev : option str) :
  Forall (well_formed_proposition (sent_citations sent))
         (sentence_propositions sent prev).
Proof.
  unfold sentence_propositions.
  destruct (sent_citations sent) as [|c0 cs] eqn:Hcs; [constructor|].
  destruct (_extract_proposition_from_sentence (sent_text sent) (c0 :: cs) prev)
    as [pt ty] eqn:E.
  destruct pt as [[|t0 t]|]; try constructor.
  apply Forall_app. split.
  - apply Forall_forall. intros p Hp. apply in_map_iff in Hp.
    destruct Hp as (c & <- & Hc). apply filter_In in Hc. destruct Hc as [Hin Hsig].
    unfold well_formed_proposition, paren_prop. cbn.
    split; [discriminate|]. split; [intros x [<-|[]]; exact Hin|].
    split; [discriminate|]. intros _.
    unfold signaled_with_parenthetical in Hsig.
    apply andb_true_iff in Hsig. destruct Hsig as [_ Hp].
    destruct (parenthetical c) as [[|x xs]|]; try discriminate.
  - constructor; [|constructor].
    unfold well_formed_proposition. cbn.
    split; [discriminate|]. split; [apply incl_refl|].
    destruct (extracted_type _ _ _ E) as [-> | ->];
      split; try discriminate; intros _; discriminate.
Qed.

Lemma body_loop_well_formed (sents : list Sentence) :
  forall prev,
    Forall (well_formed_proposition (flat_map sent_citations sents))
           (snd (body_loop prev sents)).
Proof.
  induction sents as [|sent rest IH]; intros prev; cbn [body_loop];
    [constructor|].
  specialize (IH (Some (sent_text sent))).
  destruct (body_loop (Some (sent_text sent)) rest) as [prev' out].
  cbn [snd flat_map] in *. apply Forall_app. split.
  - eapply Forall_impl; [|apply sentence_propositions_well_formed].
    intros p. apply well_formed_incl. apply incl_appl, incl_refl.
  - eapply Forall_impl; [|exact IH].
    intros p. apply well_formed_incl. apply incl_appr, incl_refl.
Qed.

Lemma paragraphs_loop_well_formed (paras : list Paragraph) :
  forall prev,
    Forall (well_formed_proposition (Invariants.all_citations paras))
           (snd (paragraphs_loop prev paras)).
Proof.
  unfold Invariants.all_citations.
  induction paras as [|p rest IH]; intros prev; cbn [paragraphs_loop];
    [constructor|].
  destruct p as [intro quote_text citations|sents].
  - specialize (IH (Some quote_text)).
    destruct (paragraphs_loop (Some quote_text) rest) as [prev' out].
    cbn [snd flat_map Invariants.citations_of] in *. apply Forall_app. split.
    + destruct citations as [|c cs]; constructor; [|constructor].
      unfold well_formed_proposition. cbn [prop_citations prop_type prop_text].
      split; [discriminate|]. split; [apply incl_appl, incl_refl|].
      split; [discriminate|]. intros H. contradiction.
    + eapply Forall_impl; [|exact IH].
      intros p. apply well_formed_incl. apply incl_appr, incl_refl.
  - pose proof (body_loop_well_formed sents prev) as Hb.
    destruct (body_loop prev sents) as [prev1 here].
    specialize (IH prev1).
    destruct (paragraphs_loop prev1 rest) as [prev' out].
    cbn [snd flat_map Invariants.citations_of] in *. apply Forall_app. split.
    + eapply Forall_impl; [|exact Hb].
      intros p. apply well_formed_incl. apply incl_appl, incl_refl.
    + eapply Forall_impl; [|exact IH].
      intros p. apply well_formed_incl. apply incl_appr, incl_refl.
Qed.

(** X22. Every proposition of [extract_propositions] cites at least
    one citation, all of them citations of the parsed argument, has a
    type, and has a text unless it is a block quote. *)
Theorem propositions_are_well_formed (paragraphs : list Paragraph) :
  Forall (well_formed_proposition (Invariants.all_citations paragraphs))
         (extract_propositions paragraphs).
Proof. apply paragraphs_loop_well_formed. Qed.

End WellFormed.

(* --------------------------------------------------------------------- *)
(** ** The margins are the most frequent positions *)
(* --------------------------------------------------------------------- *)

Section MostCommon.
Import Layout Invariants.

Lemma counter_incr_get (k : Z) (c : Counter) (k' : Z) :
  counter_get (counter_incr k c) k'
  = if (k' =? k)%Z then S (counter_get c k') else counter_get c k'.
Proof.
  induction c as [|[k0 n] c IH]; cbn [counter_incr counter_get].
  - destruct (k' =? k)%Z; reflexivity.
  - destruct (k =? k0)%Z eqn:E; cbn [counter_get].
    + apply Z.eqb_eq in E. subst k0.
      destruct (k' =? k)%Z; reflexivity.
    + destruct (k' =? k0)%Z eqn:E'.
      * apply Z.eqb_eq in E'. subst k0.
        rewrite Z.eqb_sym in E. rewrite E. reflexivity.
      * exact IH.
Qed.

Lemma counter_incr_keys (k : Z) (c : Counter) :
  map fst (counter_incr k c)
  = if existsb (Z.eqb k) (map fst c) then map fst c else map fst c ++ [k].
Proof.
  induction c as [|[k0 n] c IH]; cbn [counter_incr map fst existsb app];
    [reflexivity|].
  destruct (k =? k0)%Z; cbn [orb map fst]; [reflexivity|].
  rewrite IH. destruct (existsb (Z.eqb k) (map fst c)); reflexivity.
Qed.

Lemma existsb_Zeqb (k : Z) (l : list Z) : existsb (Z.eqb k) l = true <-> In k l.
Proof.
  rewrite existsb_exists. split.
  - intros (x & Hx & E). apply Z.eqb_eq in E. subst. exact Hx.
  - intros H. exists k. split; [exact H | apply Z.eqb_refl].
Qed.

Lemma position_count_snoc (seen : list Block) (b : Block) (k : Z) :
  position_count (seen ++ [b]) k
  = position_count seen k
    + (if substantial b && (round (x0 b) =? k)%Z then 1 else 0).
Proof.
  unfold position_count. rewrite filter_app, length_app. cbn [filter].
  destruct (substantial b && (round (x0 b) =? k)%Z); reflexivity.
Qed.

Lemma counts_of_step (seen : list Block) (c : Counter) (b : Block) :
  counts_of seen c ->
  counts_of (seen ++ [b])
            (if substantial b then counter_incr (round (x0 b)) c else c).
Proof.
  intros (Hnd & Hget & Hkeys).
  destruct (substantial b) eqn:Hs.
  - split; [|split].
    + rewrite counter_incr_keys.
      destruct (existsb (Z.eqb (round (x0 b))) (map fst c)) eqn:E; [exact Hnd|].
      apply NoDup_snoc; [exact Hnd|].
      intros H. apply existsb_Zeqb in H. congruence.
    + intros k. rewrite counter_incr_get, position_count_snoc, Hs, Hget.
      cbn [andb]. rewrite (Z.eqb_sym (round (x0 b)) k).
      destruct (k =? round (x0 b))%Z; lia.
    + intros k. rewrite counter_incr_keys, position_count_snoc, Hs. cbn [andb].
      destruct (existsb (Z.eqb (round (x0 b))) (map fst c)) eqn:E.
      * intros H. specialize (Hkeys k H). lia.
      * intros H. apply in_app_or in H. destruct H as [H|[<-|[]]].
        -- specialize (Hkeys k H). lia.
        -- rewrite Z.eqb_refl. lia.
  - split; [exact Hnd|]. split.
    + intros k. rewrite position_count_snoc, Hs. cbn [andb]. rewrite Hget. lia.
    + intros k H. rewrite position_count_snoc. specialize (Hkeys k H). lia.
Qed.

Lemma fold_counts_of (blocks : list Block) :
  forall seen c,
    counts_of seen c ->
    counts_of (seen ++ blocks)
      (fold_left (fun c b => if substantial b then counter_incr (round (x0 b)) c
                             else c) blocks c).
Proof.
  induction blocks as [|b blocks IH]; intros seen c H; cbn [fold_left].
  - rewrite app_nil_r. exact H.
  - replace (seen ++ b :: blocks) with ((seen ++ [b]) ++ blocks)
      by (rewrite <- app_assoc; reflexivity).
    apply IH. apply counts_of_step. exact H.
Qed.

Lemma x0_counts_of (blocks : list Block) : counts_of blocks (x0_counts blocks).
Proof.
  apply (@fold_counts_of blocks [] []).
  split; [constructor|]. split; [reflexivity | intros k []].
Qed.

Lemma counter_get_in (c : Counter) (k : Z) :
  0 < counter_get c k -> In (k, counter_get c k) c.
Proof.
  induction c as [|[k0 n] c IH]; cbn [counter_get]; [lia|].
  destruct (k =? k0)%Z eqn:E.
  - apply Z.eqb_eq in E. subst k0. intros _. left. reflexivity.
  - intros H. right. apply IH. exact H.
Qed.

Lemma counter_in_get (c : Counter) (k : Z) (n : nat) :
  NoDup (map fst c) -> In (k, n) c -> counter_get c k = n.
Proof.
  induction c as [|[k0 n0] c IH]; intros Hnd Hin; [destruct Hin|].
  cbn [map fst] in Hnd. inversion Hnd as [|? ? Hnot Hnd']; subst.
  cbn [counter_get]. destruct Hin as [H|H].
  - injection H as -> ->. rewrite Z.eqb_refl. reflexivity.
  - destruct (k =? k0)%Z eqn:E.
    + apply Z.eqb_eq in E. subst k0. exfalso. apply Hnot.
      apply in_map_iff. exists (k, n). split; [reflexivity | exact H].
    + apply IH; assumption.
Qed.

(** *** [most_common]: a stable sort by count *)

Lemma insert_by_count_perm (x : Z * nat) (l : Counter) :
  Permutation (x :: l) (insert_by_count x l).
Proof.
  induction l as [|y l IH]; cbn [insert_by_count]; [apply Permutation_refl|].
  destruct (snd y <? snd x); [apply Permutation_refl|].
  eapply Permutation_trans; [apply perm_swap|]. apply perm_skip. exact IH.
Qed.

Lemma insert_by_count_sorted (x : Z * nat) (l : Counter) :
  StronglySorted (fun a b => snd b <= snd a) l ->
  StronglySorted (fun a b => snd b <= snd a) (insert_by_count x l).
Proof.
  induction 1 as [|y l Hs IH Hall]; cbn [insert_by_count].
  - constructor; constructor.
  - destruct (snd y <? snd x) eqn:E.
    + apply Nat.ltb_lt in E. constructor; [constructor; assumption|].
      constructor; [lia|]. eapply Forall_impl; [|exact Hall].
      cbn. intros z Hz. lia.
    + apply Nat.ltb_ge in E. constructor; [exact IH|].
      eapply Permutation_Forall; [apply insert_by_count_perm|].
      constructor; assumption.
Qed.

Lemma sort_by_count (c : Counter) :
  forall acc,
    StronglySorted (fun a b => snd b <= snd a) acc ->
    StronglySorted (fun a b => snd b <= snd a)
                   (fold_left (fun acc x => insert_by_count x acc) c acc)
    /\ Permutation (acc ++ c)
                   (fold_left (fun acc x => insert_by_count x acc) c acc).
Proof.
  induction c as [|x c IH]; intros acc Hs; cbn [fold_left].
  - rewrite app_nil_r. split; [exact Hs | apply Permutation_refl].
  - destruct (IH (insert_by_count x acc) (insert_by_count_sorted x Hs)) as [H1 H2].
    split; [exact H1|].
    eapply Permutation_trans; [|exact H2].
    eapply Permutation_trans; [apply Permutation_sym, Permutation_middle|].
    change (x :: acc ++ c) with ((x :: acc) ++ c).
    apply Permutation_app_tail. apply insert_by_count_perm.
Qed.

(** X23. [_calculate_margins], with either offset: when no block is
    substantial the margins stay as they were; otherwise the body margin
    is a position (rounded left edge) of some substantial block, and
    either every substantial block stands there and the indent is the
    body margin plus the offset, or the indent is another such position,
    to the right of the body margin, and no third position has more
    substantial blocks than either of the two. *)
Theorem margins_are_the_most_frequent_positions
        (offset : Z) (m : Margins) (blocks : list Block) :
  margins_from_counts offset m (calculate_margins offset m blocks) blocks.
Proof.
  unfold margins_from_counts, calculate_margins, most_common.
  destruct (x0_counts_of blocks) as (Hnd & Hget & Hkeys).
  destruct (@sort_by_count (x0_counts blocks) [] (SSorted_nil _)) as [Hsorted Hperm].
  cbn [app] in Hperm.
  set (sorted := fold_left (fun acc x => insert_by_count x acc) (x0_counts blocks) [])
    in *.
  assert (Hin : forall e, In e sorted <-> In e (x0_counts blocks)).
  { intros e. split; apply Permutation_in;
      [apply Permutation_sym|]; exact Hperm. }
  assert (Hnd' : NoDup (map fst sorted)).
  { eapply Permutation_NoDup; [|exact Hnd]. apply Permutation_map. exact Hperm. }
  assert (Hentry : forall k n, In (k, n) sorted ->
                               n = position_count blocks k /\ 0 < n).
  { intros k n H. apply Hin in H.
    pose proof (counter_in_get _ _ _ Hnd H) as Hg. rewrite Hget in Hg.
    split; [congruence|]. rewrite <- Hg. apply Hkeys.
    apply in_map_iff. exists (k, n). split; [reflexivity | exact H]. }
  assert (Hfound : forall k, 0 < position_count blocks k ->
                             In (k, position_count blocks k) sorted).
  { intros k H. apply Hin. rewrite <- Hget in *. apply counter_get_in. exact H. }
  destruct sorted as [|[ka na] [|[kb nb] rest]] eqn:Hsort; cbn [firstn].
  - (* no margin cluster *)
    left. split; [reflexivity|].
    apply forallb_forall. intros b Hb.
    destruct (substantial b) eqn:Hs; [|reflexivity]. exfalso.
    assert (0 < position_count blocks (round (x0 b))) as Hpos.
    { unfold position_count.
      assert (In b (filter (fun b0 => substantial b0
                              && (round (x0 b0) =? round (x0 b))%Z) blocks)) as Hf.
      { apply filter_In. split; [exact Hb|]. rewrite Hs, Z.eqb_refl. reflexivity. }
      destruct (filter _ blocks); [destruct Hf | cbn; lia]. }
    destruct (Hfound _ Hpos).
  - (* one cluster *)
    right. exists ka. cbn [body_margin indent_margin fst].
    destruct (Hentry ka na (or_introl eq_refl)) as [Hna Hpos].
    split; [reflexivity|]. split; [lia|]. left. split; [reflexivity|].
    intros k Hk. destruct (position_count blocks k) as [|n] eqn:E; [reflexivity|].
    exfalso. assert (0 < position_count blocks k) as Hp by lia.
    destruct (Hfound _ Hp) as [H|[]]. congruence.
  - (* two clusters or more *)
    right. cbn [body_margin indent_margin fst].
    destruct (Hentry ka na (or_introl eq_refl)) as [Hna Hpa].
    destruct (Hentry kb nb (or_intror (or_introl eq_refl))) as [Hnb Hpb].
    assert (Hab : ka <> kb).
    { cbn [map fst] in Hnd'. inversion Hnd' as [|? ? Hnot _]; subst.
      intros E. apply Hnot. left. symmetry. exact E. }
    assert (Hrest : forall k, k <> ka -> k <> kb ->
              position_count blocks k <= na /\ position_count blocks k <= nb).
    { intros k H1 H2.
      destruct (position_count blocks k) as [|n] eqn:E; [lia|].
      assert (0 < position_count blocks k) as Hp by lia.
      destruct (Hfound _ Hp) as [H|[H|H]]; try congruence.
      inversion Hsorted as [|? ? Hs1 Ha]; subst.
      inversion Hs1 as [|? ? _ Hb]; subst.
      rewrite Forall_forall in Ha, Hb.
      specialize (Ha _ (or_intror H)). specialize (Hb _ H).
      cbn [snd] in *. rewrite E in *. lia. }
    exists (Z.min ka kb). split; [reflexivity|].
    assert (Hcases : ((ka < kb)%Z /\ Z.min ka kb = ka /\ Z.max ka kb = kb)
                     \/ ((kb < ka)%Z /\ Z.min ka kb = kb /\ Z.max ka kb = ka))
      by lia.
    destruct Hcases as [(Hlt & -> & ->)|(Hlt & -> & ->)].
    + split; [lia|]. right. exists kb. split; [reflexivity|].
      split; [lia|]. split; [lia|].
      intros k H1 H2. destruct (Hrest k H1 H2). lia.
    + split; [lia|]. right. exists ka. split; [reflexivity|].
      split; [lia|]. split; [lia|].
      intros k H1 H2. destruct (Hrest k H2 H1). lia.
Qed.

End MostCommon.

(* --------------------------------------------------------------------- *)
(** ** Chains of Id. citations *)
(* --------------------------------------------------------------------- *)

Section IdChain.
Import ParseBrief Invariants.




End IdChain.
